(** * ltfs-zip-archiver: a shallow embedding of the streaming pipeline

    The repository holds two variants of one program:
    - [src/main.go]: the plain archiver (fail-fast, names relative to the
      source's base directory);
    - the SHA-256 variant: the same archiver with an asynchronous digest
      stage, volume-root synthesis and a skip-and-log error policy.

    Both share [PauseController], [SpeedTracker] and [BufferedWriter]
    verbatim.  Go's standard library ([io], [os], [path/filepath],
    [archive/zip], [crypto/sha256]) is the environment: it is modelled by
    interfaces (type classes, records of operations, scripted oracles),
    never by the program's own code.  SHA-256 is also given in full, for
    the examples of the digest stage. *)

From stdpp Require Import base option list strings gmap.
From Stdlib Require Import Strings.Byte Strings.Ascii ZArith NArith.

Local Open Scope nat_scope.

(** ** Go basics *)

(** Go's [error] values as far as the program tells them apart: [io.EOF]
    is compared by identity in the copy loop, everything else is opaque. *)
Inductive error : Type :=
| EOF
| Err (msg : string).

#[global] Instance error_eq_dec : EqDecision error.
Proof. solve_decision. Defined.

#[global] Instance byte_eq_dec : EqDecision byte := Byte.byte_eq_dec.

(** A slice expression [p[lo:hi]] (in range in every use below). *)
Definition slice {A} (p : list A) (lo hi : nat) : list A :=
  take (hi - lo) (drop lo p).

(** The builtin [copy(dst, src)]: overwrites the first
    [min (len dst) (len src)] elements of [dst]; the result is [dst]'s new
    content. *)
Definition copy {A} (dst src : list A) : list A :=
  take (length dst) src ++ drop (length src) dst.

(** [io.Writer]: one method, returning the byte count and an error. *)
Class Writer (W : Type) : Type :=
  io_Write : W → list byte → W * (nat * option error).

(** ** The device behind the pipeline

    [os.File] as the program sees it: an append-only sink.  [received] logs
    the slice of every [Write] call, [stored] the bytes the device accepted,
    and [faults] scripts the outcome of the coming calls: [None] (or an
    exhausted script) is a full write, [Some (k, e)] accepts [k] bytes at
    most and reports [e]. *)
Record File : Type := mkFile {
  received : list (list byte);
  stored : list byte;
  faults : list (option (nat * error))
}.

Definition newFile (fs : list (option (nat * error))) : File :=
  {| received := []; stored := []; faults := fs |}.

Definition File_Write (f : File) (p : list byte) : File * (nat * option error) :=
  match faults f with
  | Some (k, e) :: rest =>
      let n := k `min` length p in
      ({| received := received f ++ [p];
          stored := stored f ++ take n p;
          faults := rest |}, (n, Some e))
  | None :: rest =>
      ({| received := received f ++ [p];
          stored := stored f ++ p;
          faults := rest |}, (length p, None))
  | [] =>
      ({| received := received f ++ [p];
          stored := stored f ++ p;
          faults := [] |}, (length p, None))
  end.

#[global] Instance File_Writer : Writer File := File_Write.

(** A device script without a failure. *)
Definition no_faults (fs : list (option (nat * error))) : Prop :=
  Forall (λ x, x = None) fs.

(** ** BufferedWriter (identical in both variants) *)

Module BufferedWriter.

Section Defs.
Context {W : Type} `{Writer W}.

(** [buffer] has a fixed length (the capacity); [buffer[:offset]] is the
    pending data.  [offset] never exceeds [len(buffer)], so the Go [int]
    arithmetic on it stays within the naturals. *)
Record t : Type := mk {
  writer : W;
  buffer : list byte;
  offset : nat
}.

Definition NewBufferedWriter (w : W) (bufSize : nat) : t :=
  {| writer := w; buffer := replicate bufSize x00; offset := 0 |}.

Definition Flush (bw : t) : t * option error :=
  if decide (offset bw = 0) then (bw, None)
  else
    let '(w', (_, err)) := io_Write (writer bw) (slice (buffer bw) 0 (offset bw)) in
    ({| writer := w'; buffer := buffer bw; offset := 0 |}, err).

(** The [for remaining > 0] loop of [Write].  [fuel] bounds the number of
    iterations; [None] means the bound was hit with input left. *)
Fixpoint Write_loop (fuel : nat) (bw : t) (p : list byte)
    (n remaining srcOffset : nat) : option (t * (nat * option error)) :=
  if decide (0 < remaining) then
    match fuel with
    | 0 => None
    | S fuel' =>
        let available := length (buffer bw) - offset bw in
        let flushed :=
          if decide (available = 0) then
            let '(bw1, err) := Flush bw in
            match err with
            | Some e => inl (bw1, e)
            | None => inr (bw1, length (buffer bw1))
            end
          else inr (bw, available) in
        match flushed with
        | inl (bw1, e) => Some (bw1, (n - remaining, Some e))
        | inr (bw1, available) =>
            let copySize :=
              if decide (available < remaining) then available else remaining in
            let bw2 :=
              {| writer := writer bw1;
                 buffer := take (offset bw1) (buffer bw1) ++
                           copy (drop (offset bw1) (buffer bw1))
                                (slice p srcOffset (srcOffset + copySize));
                 offset := offset bw1 + copySize |} in
            Write_loop fuel' bw2 p n (remaining - copySize) (srcOffset + copySize)
        end
    end
  else Some (bw, (n, None)).

(** With a non-empty buffer every iteration consumes a byte, so
    [len(p)] iterations are enough (see [Write_loop_enough]); with
    capacity 0 the Go loop spins forever on a non-empty [p], which is
    the [None] here (see [Write_loop_cap0]). *)
Definition Write (bw : t) (p : list byte) : option (t * (nat * option error)) :=
  Write_loop (length p) bw p (length p) (length p) 0.

(** A caller issuing the calls [Write p1; ...; Write pk] whatever they
    return; the results are collected in order. *)
Fixpoint Write_all (bw : t) (ps : list (list byte))
    : option (t * list (nat * option error)) :=
  match ps with
  | [] => Some (bw, [])
  | p :: ps' =>
      match Write bw p with
      | None => None
      | Some (bw1, r) =>
          match Write_all bw1 ps' with
          | None => None
          | Some (bw2, rs) => Some (bw2, r :: rs)
          end
      end
  end.

(** The data held back in the buffer. *)
Definition pending (bw : t) : list byte := take (offset bw) (buffer bw).

Definition wf (bw : t) : Prop := offset bw ≤ length (buffer bw).
End Defs.

Arguments t W : clear implicits.

End BufferedWriter.

(** The wiring in [main] (both variants): a 10 MiB buffer over the final
    writer. *)
Definition main_bufSize : nat := 10 * 1024 * 1024.

(** No call reported an error. *)
Definition all_ok (rs : list (nat * option error)) : Prop :=
  Forall (λ r, r.2 = None) rs.

(** ** encoding/hex *)

Definition hextable : list ascii :=
  String.list_ascii_of_string "0123456789abcdef".

Definition hex_digit (k : nat) : ascii := nth k hextable "0"%char.

(** [hex.EncodeToString]: two lower-case digits per byte, high nibble
    first. *)
Fixpoint hex_EncodeToString (src : list byte) : string :=
  match src with
  | [] => EmptyString
  | b :: rest =>
      String (hex_digit (Byte.to_nat b / 16))
        (String (hex_digit (Byte.to_nat b `mod` 16)) (hex_EncodeToString rest))
  end.

(** ** crypto/sha256

    The digest stage below takes the hash function as a parameter.
    SHA-256 itself (FIPS 180-4), on 32-bit words held in [N], is what the
    examples run it with. *)
Module SHA256.
Local Open Scope N_scope.

Definition w32 (x : N) : N := x mod 2 ^ 32.

Definition rotr (n x : N) : N := N.lor (N.shiftr x n) (w32 (N.shiftl x (32 - n))).

Definition Ch (x y z : N) : N :=
  N.lxor (N.land x y) (N.land (N.lxor x (N.ones 32)) z).

Definition Maj (x y z : N) : N :=
  N.lxor (N.lxor (N.land x y) (N.land x z)) (N.land y z).

Definition Sigma0 (x : N) : N := N.lxor (N.lxor (rotr 2 x) (rotr 13 x)) (rotr 22 x).
Definition Sigma1 (x : N) : N := N.lxor (N.lxor (rotr 6 x) (rotr 11 x)) (rotr 25 x).
Definition sigma0 (x : N) : N := N.lxor (N.lxor (rotr 7 x) (rotr 18 x)) (N.shiftr x 3).
Definition sigma1 (x : N) : N := N.lxor (N.lxor (rotr 17 x) (rotr 19 x)) (N.shiftr x 10).

(** The primes below 312: the first 64. *)
Definition is_prime (n : N) : bool :=
  forallb (λ d, negb (n mod N.of_nat d =? 0)) (seq 2 (N.to_nat n - 2)).

Definition primes : list N :=
  filter (λ n, is_prime n = true) (N.of_nat <$> seq 2 310).

(** The first 32 bits of the fractional part of the [k]-th root of [p]:
    the largest [r] with [r ^ k ≤ p * 2 ^ (32 k)], found bit by bit from
    bit [b - 1] down, modulo [2 ^ 32]. *)
Fixpoint root_bits (k p : N) (b : nat) (r : N) : N :=
  match b with
  | O => r
  | S b' =>
      let r' := r + 2 ^ N.of_nat b' in
      root_bits k p b' (if r' ^ k <=? p * 2 ^ (32 * k) then r' else r)
  end.

Definition frac_root (k p : N) : N := w32 (root_bits k p 36 0).

(** The round constants: from the cube roots of the first 64 primes. *)
Definition K : list N := Eval vm_compute in frac_root 3 <$> primes.

(** The initial hash value: from the square roots of the first 8
    primes. *)
Definition H0 : list N := Eval vm_compute in frac_root 2 <$> take 8 primes.

(** A number as [k] bytes, most significant first. *)
Fixpoint be_bytes (k : nat) (x : N) : list N :=
  match k with
  | O => []
  | S k' => be_bytes k' (x / 256) ++ [x mod 256]
  end.

Definition be_word (bs : list N) : N := foldl (λ acc b, acc * 256 + b) 0 bs.

(** The message followed by the bit 1, zeros up to 56 modulo 64 bytes,
    and its length in bits on 8 bytes. *)
Definition pad (msg : list N) : list N :=
  let l := length msg in
  msg ++ [0x80] ++ replicate ((55 + 64 - l `mod` 64) `mod` 64)%nat 0
      ++ be_bytes 8 (8 * N.of_nat l).

Fixpoint chunks {A} (k n : nat) (l : list A) : list (list A) :=
  match n with
  | O => []
  | S n' => take k l :: chunks k n' (drop k l)
  end.

(** The message schedule: 48 words after the 16 of the block. *)
Fixpoint schedule (n : nat) (w : list N) : list N :=
  match n with
  | O => w
  | S n' =>
      let t := length w in
      let x := w32 (sigma1 (nth (t - 2) w 0) + nth (t - 7) w 0
                    + sigma0 (nth (t - 15) w 0) + nth (t - 16) w 0) in
      schedule n' (w ++ [x])
  end.

Definition round (st : list N) (kw : N * N) : list N :=
  match st with
  | [a; b; c; d; e; f; g; h] =>
      let t1 := h + Sigma1 e + Ch e f g + kw.1 + kw.2 in
      let t2 := Sigma0 a + Maj a b c in
      [w32 (t1 + t2); a; b; c; w32 (d + t1); e; f; g]
  | _ => st
  end.

Definition compress (h : list N) (block : list N) : list N :=
  let w := schedule 48 (be_word <$> chunks 4 16 block) in
  let st := foldl round h (zip K w) in
  zip_with (λ x y, w32 (x + y)) h st.

Definition to_byte (x : N) : byte := default x00 (Byte.of_N x).

(** [sha256.Sum256], as [hash.Hash.Sum(nil)] gives it for the bytes
    written. *)
Definition Sum256 (msg : list byte) : list byte :=
  let p := pad (Byte.to_N <$> msg) in
  let h := foldl compress H0 (chunks 64 (length p / 64)%nat p) in
  to_byte <$> concat (be_bytes 4 <$> h).
End SHA256.

Definition ascii_bytes (s : string) : list byte :=
  (λ c, SHA256.to_byte (N_of_ascii c)) <$> String.list_ascii_of_string s.

(** ** AsyncSHA256Writer (SHA-256 variant)

    Two goroutines share the struct: the caller of [Write], [Close] and
    [Sum] (the main goroutine; with one caller the mutex [mu] is never
    contended) and [hashWorker].  The system is a transition system whose
    actions are the atomic steps of either goroutine and the passing of
    time; a run is a list of actions, so that every interleaving is a
    run.  A step that would block (a send on a full channel, a receive on
    an empty one, [select] with no ready case, [wg.Wait] with a live
    worker) is not enabled. *)

Module AsyncSHA256Writer.

(** Where [hashWorker] is. *)
Inductive worker : Type := Running | Exited.

(** The method a blocked channel send belongs to. *)
Inductive call : Type :=
| InWrite (n : nat)
| InClose
| InSum.

(** Where the calling goroutine is. *)
Inductive caller : Type :=
| Idle
| Sending (v : option (list byte)) (k : call)
| Selecting (deadline : Z)
| Waiting
| Panicked.

(** What the caller has observed so far: the answer of the underlying
    writer to each [Write], the closing of the stage, and the value
    returned by each [Sum]. *)
Inductive event : Type :=
| EvWrite (p : list byte) (n : nat) (err : option error)
| EvClose
| EvSum (r : string).

Inductive action : Type :=
| AWrite (p : list byte)   (* caller: [Write(p)] up to its channel send *)
| AClose                   (* caller: [Close()] up to its channel send *)
| ASum                     (* caller: [Sum()] up to the send in [Close] *)
| ASend                    (* the pending send on [dataCh] goes through *)
| AWorkerData              (* worker: [select] takes [<-asw.dataCh] *)
| AWorkerDone              (* worker: [select] takes [<-asw.doneCh] *)
| ARecv                    (* [Sum]: [select] takes [<-asw.resultCh] *)
| ATimeout                 (* [Sum]: [select] takes [<-time.After(...)] *)
| AWait                    (* [Sum]: [asw.wg.Wait()] returns *)
| ATick (d : Z).           (* [d] nanoseconds pass *)

(** [30 * time.Second], in nanoseconds. *)
Definition sum_timeout : Z := 30 * 1000000000.

Definition dataCh_cap : nat := 10.
Definition resultCh_cap : nat := 1.

Section Defs.
Context {W : Type} `{Writer W}.

(** [crypto/sha256]: the digest of a message.  The [hash.Hash] held in
    [hasher] is represented by the bytes written to it so far, of which
    [Sum(nil)] is the digest. *)
Variable sha256 : list byte → list byte.

(** The struct.  A channel is the list of the values it holds, oldest
    first; [None] in [dataCh] is the nil slice.  [doneCh] carries no
    value: only whether it has been closed matters. *)
Record t : Type := mk {
  writer : W;
  hasher : list byte;
  dataCh : list (option (list byte));
  doneCh : bool;
  resultCh : list string;
  wg : nat;
  closed : bool
}.

Record sys : Type := mkSys {
  asw : t;
  hashWorker : worker;
  main : caller;
  now : Z;
  log : list event
}.

Definition NewAsyncSHA256Writer (w : W) : sys :=
  {| asw := {| writer := w; hasher := []; dataCh := []; doneCh := false;
               resultCh := []; wg := 1; closed := false |};
     hashWorker := Running;
     main := Idle;
     now := 0;
     log := [] |}.

Definition set_writer (a : t) (w : W) : t :=
  {| writer := w; hasher := hasher a; dataCh := dataCh a; doneCh := doneCh a;
     resultCh := resultCh a; wg := wg a; closed := closed a |}.
Definition set_hasher (a : t) (h : list byte) : t :=
  {| writer := writer a; hasher := h; dataCh := dataCh a; doneCh := doneCh a;
     resultCh := resultCh a; wg := wg a; closed := closed a |}.
Definition set_dataCh (a : t) (c : list (option (list byte))) : t :=
  {| writer := writer a; hasher := hasher a; dataCh := c; doneCh := doneCh a;
     resultCh := resultCh a; wg := wg a; closed := closed a |}.
Definition set_doneCh (a : t) (b : bool) : t :=
  {| writer := writer a; hasher := hasher a; dataCh := dataCh a; doneCh := b;
     resultCh := resultCh a; wg := wg a; closed := closed a |}.
Definition set_resultCh (a : t) (c : list string) : t :=
  {| writer := writer a; hasher := hasher a; dataCh := dataCh a; doneCh := doneCh a;
     resultCh := c; wg := wg a; closed := closed a |}.
Definition set_wg (a : t) (k : nat) : t :=
  {| writer := writer a; hasher := hasher a; dataCh := dataCh a; doneCh := doneCh a;
     resultCh := resultCh a; wg := k; closed := closed a |}.
Definition set_closed (a : t) (b : bool) : t :=
  {| writer := writer a; hasher := hasher a; dataCh := dataCh a; doneCh := doneCh a;
     resultCh := resultCh a; wg := wg a; closed := b |}.

(** [Write], up to the send: the underlying write, the early return on
    its error, and the private copy of [p[:n]] about to be sent. *)
Definition Write (s : sys) (p : list byte) : sys :=
  let '(w', (n, err)) := io_Write (writer (asw s)) p in
  let a := set_writer (asw s) w' in
  let l := log s ++ [EvWrite p n err] in
  match err with
  | Some _ =>
      {| asw := a; hashWorker := hashWorker s; main := Idle; now := now s; log := l |}
  | None =>
      if negb (closed a) && bool_decide (0 < n) then
        let dataCopy := copy (replicate n x00) (slice p 0 n) in
        {| asw := a; hashWorker := hashWorker s;
           main := Sending (Some dataCopy) (InWrite n); now := now s; log := l |}
      else
        {| asw := a; hashWorker := hashWorker s; main := Idle; now := now s; log := l |}
  end.

(** [Close], up to the send of the nil slice; [k] tells whether it runs
    on its own or as the first statement of [Sum].  [after_send] is
    where the caller goes once the method [k] is past its send: [Write]
    and [Close] return, [Sum] enters its [select]. *)
Definition after_send (s : sys) (k : call) : caller :=
  match k with
  | InSum => Selecting (now s + sum_timeout)
  | _ => Idle
  end.

Definition Close (s : sys) (k : call) : sys :=
  if closed (asw s) then
    {| asw := asw s; hashWorker := hashWorker s; main := after_send s k;
       now := now s; log := log s |}
  else
    {| asw := set_closed (asw s) true; hashWorker := hashWorker s;
       main := Sending None k; now := now s; log := log s ++ [EvClose] |}.

(** One turn of the [for]/[select] of [hashWorker] on the [dataCh]
    case.  On the nil slice the send on [resultCh], the [return] and the
    deferred [wg.Done()] are taken as one step: the states in between
    are not told apart. *)
Definition hashWorker_data (s : sys) : option sys :=
  match dataCh (asw s) with
  | [] => None
  | None :: rest =>
      if decide (length (resultCh (asw s)) < resultCh_cap) then
        let a := set_dataCh (asw s) rest in
        let a := set_resultCh a
                   (resultCh a ++ [hex_EncodeToString (sha256 (hasher a))]) in
        Some {| asw := set_wg a (wg a - 1); hashWorker := Exited; main := main s;
                now := now s; log := log s |}
      else None
  | Some data :: rest =>
      let a := set_dataCh (asw s) rest in
      Some {| asw := set_hasher a (hasher a ++ data); hashWorker := Running;
              main := main s; now := now s; log := log s |}
  end.

Definition step (act : action) (s : sys) : option sys :=
  match act, main s with
  | AWrite p, Idle => Some (Write s p)
  | AClose, Idle => Some (Close s InClose)
  | ASum, Idle => Some (Close s InSum)
  | ASend, Sending v k =>
      if decide (length (dataCh (asw s)) < dataCh_cap) then
        Some {| asw := set_dataCh (asw s) (dataCh (asw s) ++ [v]);
                hashWorker := hashWorker s; main := after_send s k;
                now := now s; log := log s |}
      else None
  | AWorkerData, _ =>
      match hashWorker s with
      | Running => hashWorker_data s
      | Exited => None
      end
  | AWorkerDone, _ =>
      match hashWorker s with
      | Running =>
          if doneCh (asw s) then
            Some {| asw := set_wg (asw s) (wg (asw s) - 1); hashWorker := Exited;
                    main := main s; now := now s; log := log s |}
          else None
      | Exited => None
      end
  | ARecv, Selecting _ =>
      match resultCh (asw s) with
      | result :: rest =>
          Some {| asw := set_resultCh (asw s) rest; hashWorker := hashWorker s;
                  main := Idle; now := now s; log := log s ++ [EvSum result] |}
      | [] => None
      end
  | ATimeout, Selecting deadline =>
      if decide (deadline ≤ now s)%Z then
        if doneCh (asw s) then
          (* close of a closed channel *)
          Some {| asw := asw s; hashWorker := hashWorker s; main := Panicked;
                  now := now s; log := log s |}
        else
          Some {| asw := set_doneCh (asw s) true; hashWorker := hashWorker s;
                  main := Waiting; now := now s; log := log s |}
      else None
  | AWait, Waiting =>
      if decide (wg (asw s) = 0) then
        Some {| asw := asw s; hashWorker := hashWorker s; main := Idle;
                now := now s; log := log s ++ [EvSum ""] |}
      else None
  | ATick d, _ =>
      if decide (0 ≤ d)%Z then
        Some {| asw := asw s; hashWorker := hashWorker s; main := main s;
                now := (now s + d)%Z; log := log s |}
      else None
  | _, _ => None
  end.

(** A run: the actions are taken in order; [None] when one of them is
    not enabled. *)
Fixpoint run (s : sys) (tr : list action) : option sys :=
  match tr with
  | [] => Some s
  | act :: tr' =>
      match step act s with
      | Some s' => run s' tr'
      | None => None
      end
  end.

(** The calls the caller makes in a run, in order. *)
Definition is_call (act : action) : bool :=
  match act with
  | AWrite _ | AClose | ASum => true
  | _ => false
  end.

Definition calls (tr : list action) : list action := filter is_call tr.
End Defs.

(** The bytes of the writes that the underlying writer reported as done:
    [p[:n]] for every answer [(n, nil)]. *)
Fixpoint written_ok (l : list event) : list byte :=
  match l with
  | [] => []
  | EvWrite p n None :: l' => slice p 0 n ++ written_ok l'
  | _ :: l' => written_ok l'
  end.

(** The same, up to the closing of the stage. *)
Fixpoint fed (l : list event) : list byte :=
  match l with
  | [] => []
  | EvWrite p n None :: l' => slice p 0 n ++ fed l'
  | EvClose :: _ => []
  | _ :: l' => fed l'
  end.

(** What one event adds to [written_ok]. *)
Definition contribution (e : event) : list byte :=
  match e with
  | EvWrite p n None => slice p 0 n
  | _ => []
  end.

Definition has_close (l : list event) : bool :=
  existsb (λ e, match e with EvClose => true | _ => false end) l.

Arguments t W : clear implicits.
Arguments sys W : clear implicits.

(** What is on its way to the worker: the channel, then the value of a
    blocked send. *)
Definition inflight {W} (s : sys W) : list (option (list byte)) :=
  dataCh (asw s) ++
  match main s with
  | Sending v _ => [v]
  | _ => []
  end.


(** A state with nothing under way. *)
Definition quiescent (s : sys File) : Prop :=
  main s = Idle ∧ hashWorker s = Running ∧ dataCh (asw s) = [] ∧
  resultCh (asw s) = [] ∧ closed (asw s) = false.

(** The invariant of the stage over the device.  [d] is the digest
    function, [hex.EncodeToString] after SHA-256. *)
Record Inv (d : list byte → string) (s : sys File) : Prop := {
  inv_closed : closed (asw s) = has_close (log s);
  inv_result : ∀ r, r ∈ resultCh (asw s) → r = d (fed (log s));
  inv_sum : ∀ r, EvSum r ∈ log s → r = "" ∨ r = d (fed (log s));
  inv_wg : wg (asw s) = match hashWorker s with Running => 1 | Exited => 0 end;
  inv_open :
    closed (asw s) = false → hashWorker s = Running ∧ ∀ r, EvSum r ∉ log s;
  inv_done : doneCh (asw s) = true → closed (asw s) = true;
  inv_select :
    match main s with
    | Selecting _ | Waiting | Sending _ InSum | Sending None _ =>
        closed (asw s) = true
    | _ => True
    end;
  inv_running :
    hashWorker s = Running →
    resultCh (asw s) = [] ∧
    ∃ xs, hasher (asw s) ++ concat xs = fed (log s) ∧
          inflight s = (Some <$> xs) ++ (if closed (asw s) then [None] else [])
}.

End AsyncSHA256Writer.

(** ** strings *)

Fixpoint HasPrefix (s prefix : string) {struct prefix} : bool :=
  match prefix, s with
  | EmptyString, _ => true
  | String c prefix', String d s' => bool_decide (c = d) && HasPrefix s' prefix'
  | String _ _, EmptyString => false
  end.

Definition HasSuffix (s suffix : string) : bool :=
  HasPrefix (String.rev s) (String.rev suffix).

Definition TrimPrefix (s prefix : string) : string :=
  if HasPrefix s prefix
  then String.substring (String.length prefix)
         (String.length s - String.length prefix) s
  else s.

Definition TrimSuffix (s suffix : string) : string :=
  if HasSuffix s suffix
  then String.substring 0 (String.length s - String.length suffix) s
  else s.

(** [strings.Trim(s, cutset)] for a cutset of one ASCII byte [c], the
    only way the program calls it: [trimLeftByte(trimRightByte(s, c), c)]. *)
Fixpoint trimLeftByte (s : string) (c : ascii) : string :=
  match s with
  | String d s' => if bool_decide (d = c) then trimLeftByte s' c else s
  | EmptyString => EmptyString
  end.

(** The same from the right end. *)
Definition trimRightByte (s : string) (c : ascii) : string :=
  String.rev (trimLeftByte (String.rev s) c).

(** [Trim] returns an empty [s] as it is. *)
Definition Trim (s : string) (c : ascii) : string :=
  if bool_decide (s = "") then s else trimLeftByte (trimRightByte s c) c.

(** The double quote. *)
Definition quote : ascii := "034"%char.

(** ** path/filepath and os, as the program uses them

    The functions of [path/filepath] belong to the platform; the program
    is modelled over any implementation of them.  [Abs] and [Rel] can
    fail. *)
Record Filepath : Type := mkFilepath {
  Separator : ascii;
  Abs : string → string + error;
  Rel : string → string → string + error;
  Dir : string → string;
  Base : string → string;
  VolumeName : string → string;
  Join : string → string → string;
  ToSlash : string → string
}.

Definition PathSeparator (fp : Filepath) : string :=
  String (Separator fp) EmptyString.

(** [os.FileInfo], as far as it is looked at. *)
Record FileInfo : Type := mkFileInfo {
  IsDir : bool;
  Size : Z
}.

(** ** PauseController (identical in both variants)

    [paused] is the [int32] flag; the mutex and the condition variable
    only make [WaitIfPaused] sleep until the flag is 0 again, which in a
    transition system is a step that is enabled when the flag is 0. *)
Module PauseController.

Record t : Type := mk { paused : Z }.

Definition NewPauseController : t := {| paused := 0%Z |}.

Definition Toggle (pc : t) : t :=
  if decide (paused pc = 0%Z) then {| paused := 1%Z |} else {| paused := 0%Z |}.

Definition IsPaused (pc : t) : bool := bool_decide (paused pc = 1%Z).

(** Whether [WaitIfPaused] returns: its loop runs while [paused == 1]. *)
Definition WaitIfPaused_returns (pc : t) : bool :=
  negb (bool_decide (paused pc = 1%Z)).

End PauseController.

(** ** readLines (identical in both variants)

    The file is read through a [bufio.Scanner]: [scanned] are the lines
    it yields and [scan_err] is what [scanner.Err()] returns after them.
    [strings.TrimSpace] belongs to the standard library; the function is
    modelled over any implementation of it. *)
Module ReadLines.
Section Defs.
Variable TrimSpace : string → string.

(** The loop [for scanner.Scan()]. *)
Fixpoint scan_loop (lines scanned : list string) : list string :=
  match scanned with
  | [] => lines
  | text :: rest =>
      let line := TrimSpace text in
      let line := Trim line quote in
      if negb (bool_decide (line = "")) then scan_loop (lines ++ [line]) rest
      else scan_loop lines rest
  end.

Definition readLines (open_err : option error) (scanned : list string)
    (scan_err : option error) : list string * option error :=
  match open_err with
  | Some err => ([], Some err)
  | None => (scan_loop [] scanned, scan_err)
  end.

(** What [main] makes of the two results: the error is looked at
    first. *)
Definition checked (r : list string * option error) : list string + error :=
  match r.2 with
  | Some err => inr err
  | None => inl r.1
  end.
End Defs.
End ReadLines.

(** ** The progress line (identical in both variants)

    The description of the progress bar shows the current file's path cut
    to [maxPathLen] bytes: three dots and the end of the path. *)
Definition maxPathLen : nat := 16.

Definition shown_path (filePath : string) : string :=
  if decide (maxPathLen < String.length filePath) then
    let lo := String.length filePath - maxPathLen + 3 in
    "..." +:+ String.substring lo (String.length filePath - lo) filePath
  else filePath.

(** ** The archiving goroutine

    What the goroutine running [main] and [addFiles] does is recorded as a
    trace of events, in order.  Calls that only feed the progress display
    ([bar.Add], [speedTracker.Update], [currentFile.Store]) leave no
    event. *)

(** The call site of a [w.CreateHeader]. *)
Inductive header_kind : Type := HVolume | HEntry.

(** [zip.FileHeader], as far as the program sets it. *)
Record FileHeader : Type := mkFileHeader {
  Name : string;
  Method : Z
}.

(** [zip.Store]. *)
Definition zip_Store : Z := 0%Z.

Inductive logmsg : Type :=
| LogScan (source : string) (e : error)
| LogDone
| LogSha256 (sum : string)
| LogSha256Saved (file : string)
| WarnSha256File (file : string) (e : error)
| WarnSha256Timeout
| LogAccess (path : string) (e : error)
| LogFileInfoHeader (path : string) (e : error)
| LogAbs (path : string) (e : error)
| LogVolumeHeader (name : string) (e : error)
| LogCreateHeader (name : string) (e : error)
| LogOpen (path : string) (e : error)
| LogWrite (path : string) (e : error)
| LogRead (path : string) (e : error).

Inductive event : Type :=
| EvVisit (path : string)           (* the walk function is entered *)
| EvWaitIfPaused                    (* [pauseController.WaitIfPaused()] returned *)
| EvCreate (name : string)          (* [os.Create(destFile)] succeeded *)
| EvCreateHeader (k : header_kind) (h : FileHeader) (err : option error)
| EvOpen (path : string) (err : option error)
| EvRead (path : string) (n : nat) (err : option error)
| EvWrite (data : list byte) (err : option error)
| EvLog (m : logmsg)
| EvZipClose                        (* [zipWriter.Close()] *)
| EvFlush                           (* [bufferedFile.Flush()] *)
| EvWriteFile (name content : string) (err : option error).

#[global] Instance FileHeader_eq_dec : EqDecision FileHeader.
Proof. solve_decision. Defined.

#[global] Instance header_kind_eq_dec : EqDecision header_kind.
Proof. solve_decision. Defined.
#[global] Instance logmsg_eq_dec : EqDecision logmsg.
Proof. solve_decision. Defined.
#[global] Instance event_eq_dec : EqDecision event.
Proof. solve_decision. Defined.

(** One call of the walk function by [filepath.Walk], with what the
    environment answers during it: the error handed in by [Walk], the
    outcome of [zip.FileInfoHeader] and of [os.Open], and the results of
    the successive [file.Read] calls (after which [Read] gives
    [(0, io.EOF)]). *)
Record WalkItem : Type := mkWalkItem {
  path : string;
  info : FileInfo;
  walk_err : option error;
  header_err : option error;
  open_err : option error;
  reads : list (list byte * option error)
}.

(** The state the goroutine threads through: its trace, the outcomes of
    the coming calls into [archive/zip] ([None], or an exhausted script:
    success), and the map [createdVolumes] of the SHA-256 variant. *)
Record world : Type := mkWorld {
  trace : list event;
  zfaults : list (option error);
  createdVolumes : gmap string bool
}.

(** A computation inside the walk function: it ends with a value, or with
    the walk function returning ([inr r], [r] the returned error). *)
Definition M (A : Type) : Type := world → world * (A + option error).

#[global] Instance M_ret : MRet M := λ A (a : A) w, (w, inl a).

#[global] Instance M_bind : MBind M := λ A B (k : A → M B) (m : M A) w,
  match m w with
  | (w', inl a) => k a w'
  | (w', inr r) => (w', inr r)
  end.

Definition return_ {A} (r : option error) : M A := λ w, (w, inr r).

Definition add_event (w : world) (e : event) : world :=
  {| trace := trace w ++ [e]; zfaults := zfaults w;
     createdVolumes := createdVolumes w |}.

Definition emit (e : event) : M unit := λ w, (add_event w e, inl ()).

(** The next outcome of a call into [archive/zip]. *)
Definition next (w : world) : option error := default None (head (zfaults w)).

Definition pop (w : world) : world :=
  {| trace := trace w; zfaults := tail (zfaults w);
     createdVolumes := createdVolumes w |}.

Definition zip_call : M (option error) := λ w, (pop w, inl (next w)).

Definition CreateHeader (k : header_kind) (h : FileHeader) : M (option error) :=
  err ← zip_call; emit (EvCreateHeader k h err);; mret err.

Definition entry_Write (data : list byte) : M (option error) :=
  err ← zip_call; emit (EvWrite data err);; mret err.

Definition WaitIfPaused : M unit := emit EvWaitIfPaused.

Definition log_Printf (m : logmsg) : M unit := emit (EvLog m).

(** [filepath.Walk]: the walk function is called on the items in order;
    the first error it returns stops the walk and is the result. *)
Fixpoint Walk (fn : WalkItem → M unit) (items : list WalkItem) (w : world)
    : world * option error :=
  match items with
  | [] => (w, None)
  | it :: rest =>
      match fn it w with
      | (w', inl _) | (w', inr None) => Walk fn rest w'
      | (w', inr (Some e)) => (w', Some e)
      end
  end.

(** How [main] ends: it returns, or [log.Fatalf]/[log.Fatalln] exits the
    process (deferred calls do not run then). *)
Inductive fatal : Type :=
| FatalSrcRead (e : error)
| FatalSrcEmpty
| FatalDstRead (e : error)
| FatalDstEmpty
| FatalAbsDest (e : error)
| FatalAbsSource (source : string) (e : error)
| FatalDestInSource (destFile source : string)
| FatalScan (source : string) (e : error)
| FatalCreate (destFile : string) (e : error)
| FatalAddFiles (source : string) (e : error).

Inductive exit : Type :=
| Returned
| Fatal (f : fatal).

(** The fatal errors of the configuration phase: everything [main] can
    die of before the first look at the filesystem tree. *)
Definition is_config_error (f : fatal) : bool :=
  match f with
  | FatalSrcRead _ | FatalSrcEmpty | FatalDstRead _ | FatalDstEmpty
  | FatalAbsDest _ | FatalAbsSource _ _ | FatalDestInSource _ _ => true
  | _ => false
  end.

(** The environment of a run: the two configuration files as [readLines]
    returns them, the filesystem as [os.Stat] and [filepath.Walk] show
    it, the outcome of [os.Create], the outcomes of the calls into
    [archive/zip], and (SHA-256 variant) the [-n] flag and the outcome
    of [os.WriteFile]. *)
Record Env : Type := mkEnv {
  src_txt : list string + error;
  dst_txt : list string + error;
  os_Stat : string → FileInfo + error;
  walk : string → list WalkItem;
  create_err : option error;
  zip_script : list (option error);
  noSha256 : bool;
  writeFile_err : option error
}.

Definition world0 (env : Env) : world :=
  {| trace := []; zfaults := zip_script env; createdVolumes := ∅ |}.

(** ** The plain variant, [main.go] *)

Module Plain.
Section Defs.
Variable fp : Filepath.

(** The copy loop of the walk function: [rs] are the results the coming
    [file.Read] calls will give. *)
Fixpoint copyLoop (path : string) (rs : list (list byte * option error)) : M unit :=
  WaitIfPaused;;
  match rs with
  | [] => emit (EvRead path 0 (Some EOF))
  | (chunk, err) :: rs' =>
      emit (EvRead path (length chunk) err);;
      (if decide (0 < length chunk) then
         writeErr ← entry_Write chunk;
         match writeErr with
         | Some e => return_ (Some e)
         | None => mret ()
         end
       else mret ());;
      match err with
      | None => copyLoop path rs'
      | Some EOF => mret ()
      | Some e => return_ (Some e)
      end
  end.

(** "If the source itself is a file, we want it at the root of the
    zip". *)
Definition rootFile (basePath baseDir : string) (it : WalkItem) (relPath : string)
    : string :=
  if negb (IsDir (info it))
     && bool_decide (baseDir = Dir fp basePath)
     && bool_decide (basePath = path it)
  then Base fp (path it) else relPath.

Definition walkFn (basePath baseDir : string) (it : WalkItem) : M unit :=
  emit (EvVisit (path it));;
  match walk_err it with
  | Some e => return_ (Some e)
  | None =>
      WaitIfPaused;;
      match header_err it with
      | Some e => return_ (Some e)
      | None =>
          match Rel fp baseDir (path it) with
          | inr e => return_ (Some e)
          | inl relPath =>
              let relPath := rootFile basePath baseDir it relPath in
              let name := ToSlash fp relPath in
              let name := if IsDir (info it) then name +:+ "/" else name in
              err ← CreateHeader HEntry {| Name := name; Method := zip_Store |};
              match err with
              | Some e => return_ (Some e)
              | None =>
                  if negb (IsDir (info it)) then
                    emit (EvOpen (path it) (open_err it));;
                    match open_err it with
                    | Some e => return_ (Some e)
                    | None => copyLoop (path it) (reads it)
                    end
                  else return_ None
              end
          end
      end
  end.

Definition addFiles (env : Env) (basePath : string) (w : world)
    : world * option error :=
  match os_Stat env basePath with
  | inr e => (w, Some e)
  | inl info =>
      let baseDir := if IsDir info then basePath else Dir fp basePath in
      Walk (walkFn basePath baseDir) (walk env basePath) w
  end.

(** The check of the destination against the sources. *)
Fixpoint checkDest (destFile absDest : string) (sources : list string)
    : option fatal :=
  match sources with
  | [] => None
  | source :: rest =>
      match Abs fp source with
      | inr e => Some (FatalAbsSource source e)
      | inl absSource =>
          if HasPrefix absDest absSource
          then Some (FatalDestInSource destFile source)
          else checkDest destFile absDest rest
      end
  end.

(** Phase 1, the scan that sizes the progress bar: a walk that stops at
    the first error. *)
Definition scanFn (it : WalkItem) : M unit :=
  match walk_err it with
  | Some e => return_ (Some e)
  | None => mret ()
  end.

Fixpoint scan (env : Env) (sources : list string) (w : world)
    : world * option fatal :=
  match sources with
  | [] => (w, None)
  | source :: rest =>
      match Walk scanFn (walk env source) w with
      | (w', Some e) => (w', Some (FatalScan source e))
      | (w', None) => scan env rest w'
      end
  end.

(** The loop of [main] over the sources. *)
Fixpoint addAll (env : Env) (sources : list string) (w : world)
    : world * option fatal :=
  match sources with
  | [] => (w, None)
  | source :: rest =>
      match addFiles env source w with
      | (w', Some e) => (w', Some (FatalAddFiles source e))
      | (w', None) => addAll env rest w'
      end
  end.

Definition emit_all (es : list event) (w : world) : world :=
  {| trace := trace w ++ es; zfaults := zfaults w;
     createdVolumes := createdVolumes w |}.

Definition main (env : Env) : world * exit :=
  let w := world0 env in
  match src_txt env with
  | inr e => (w, Fatal (FatalSrcRead e))
  | inl [] => (w, Fatal FatalSrcEmpty)
  | inl sources =>
      match dst_txt env with
      | inr e => (w, Fatal (FatalDstRead e))
      | inl [] => (w, Fatal FatalDstEmpty)
      | inl (destFile :: _) =>
          match Abs fp destFile with
          | inr e => (w, Fatal (FatalAbsDest e))
          | inl absDest =>
              match checkDest destFile absDest sources with
              | Some f => (w, Fatal f)
              | None =>
                  match scan env sources w with
                  | (w, Some f) => (w, Fatal f)
                  | (w, None) =>
                      match create_err env with
                      | Some e => (w, Fatal (FatalCreate destFile e))
                      | None =>
                          let w := emit_all [EvCreate destFile] w in
                          match addAll env sources w with
                          | (w, Some f) => (w, Fatal f)
                          | (w, None) =>
                              let w := emit_all [EvLog LogDone] w in
                              (* the deferred calls *)
                              (emit_all [EvZipClose; EvFlush] w, Returned)
                          end
                      end
                  end
              end
          end
      end
  end.
End Defs.
End Plain.

(** ** The SHA-256 variant *)

Module Digest.
Section Defs.
Variable fp : Filepath.

Fixpoint copyLoop (path : string) (rs : list (list byte * option error)) : M unit :=
  WaitIfPaused;;
  match rs with
  | [] => emit (EvRead path 0 (Some EOF))
  | (chunk, readErr) :: rs' =>
      emit (EvRead path (length chunk) readErr);;
      (if decide (0 < length chunk) then
         writeErr ← entry_Write chunk;
         match writeErr with
         | Some e => log_Printf (LogWrite path e);; return_ None
         | None => mret ()
         end
       else mret ());;
      match readErr with
      | None => copyLoop path rs'
      | Some EOF => mret ()
      | Some e => log_Printf (LogRead path e);; return_ None
      end
  end.

(** [createdVolumes[driveLetter]]: a missing key reads as [false]. *)
Definition volume_created (driveLetter : string) : M bool :=
  λ w, (w, inl (default false (createdVolumes w !! driveLetter))).

(** [createdVolumes[driveLetter] = true]. *)
Definition set_created (w : world) (driveLetter : string) : world :=
  {| trace := trace w; zfaults := zfaults w;
     createdVolumes := <[driveLetter := true]> (createdVolumes w) |}.

Definition mark_volume (driveLetter : string) : M unit :=
  λ w, (set_created w driveLetter, inl ()).

(** The drive letter of an absolute path ("C" for [C:\...]), and the
    path the entry gets in the archive, before [ToSlash]. *)
Definition driveLetter (absPath : string) : string :=
  let volumeName := VolumeName fp absPath in
  TrimSuffix volumeName ":".

Definition zipPath (absPath : string) : string :=
  let volumeName := VolumeName fp absPath in
  let pathWithoutVolume := TrimPrefix absPath volumeName in
  let pathWithoutVolume := TrimPrefix pathWithoutVolume (PathSeparator fp) in
  Join fp (driveLetter absPath) pathWithoutVolume.

Definition walkFn (it : WalkItem) : M unit :=
  emit (EvVisit (path it));;
  match walk_err it with
  | Some e => log_Printf (LogAccess (path it) e);; return_ None
  | None =>
      WaitIfPaused;;
      match header_err it with
      | Some e => log_Printf (LogFileInfoHeader (path it) e);; return_ None
      | None =>
          match Abs fp (path it) with
          | inr e => log_Printf (LogAbs (path it) e);; return_ None
          | inl absPath =>
              let driveLetter := driveLetter absPath in
              created ← volume_created driveLetter;
              (if negb (bool_decide (driveLetter = "")) && negb created then
                 let volHeader :=
                   {| Name := driveLetter +:+ "/"; Method := zip_Store |} in
                 err ← CreateHeader HVolume volHeader;
                 match err with
                 | Some e => log_Printf (LogVolumeHeader (Name volHeader) e)
                 | None => mret ()
                 end;;
                 mark_volume driveLetter
               else mret ());;
              let zipPath := zipPath absPath in
              if bool_decide (zipPath = "") || bool_decide (zipPath = ".") then
                return_ None
              else
                let name := ToSlash fp zipPath in
                let name := if IsDir (info it) then name +:+ "/" else name in
                err ← CreateHeader HEntry {| Name := name; Method := zip_Store |};
                match err with
                | Some e => log_Printf (LogCreateHeader name e);; return_ None
                | None =>
                    if negb (IsDir (info it)) then
                      emit (EvOpen (path it) (open_err it));;
                      match open_err it with
                      | Some e => log_Printf (LogOpen (path it) e);; return_ None
                      | None => copyLoop (path it) (reads it)
                      end
                    else return_ None
                end
          end
      end
  end.

Definition addFiles (env : Env) (basePath : string) (w : world)
    : world * option error :=
  Walk walkFn (walk env basePath) w.

(** "Check if source is a directory and add a separator". *)
Definition add_separator (env : Env) (absSource : string) : string :=
  match os_Stat env absSource with
  | inl info =>
      if IsDir info && negb (HasSuffix absSource (PathSeparator fp))
      then absSource +:+ PathSeparator fp
      else absSource
  | inr _ => absSource
  end.

(** The check of the destination: a source that is a directory gets a
    trailing separator first. *)
Fixpoint checkDest (env : Env) (destFile absDest : string) (sources : list string)
    : option fatal :=
  match sources with
  | [] => None
  | source :: rest =>
      match Abs fp source with
      | inr e => Some (FatalAbsSource source e)
      | inl absSource =>
          let absSource := add_separator env absSource in
          if HasPrefix absDest absSource
          then Some (FatalDestInSource destFile source)
          else checkDest env destFile absDest rest
      end
  end.

(** Phase 1: errors are logged, the scan goes on. *)
Definition scanFn (it : WalkItem) : M unit :=
  match walk_err it with
  | Some e => log_Printf (LogAccess (path it) e);; return_ None
  | None => mret ()
  end.

Fixpoint scan (env : Env) (sources : list string) (w : world) : world :=
  match sources with
  | [] => w
  | source :: rest =>
      match Walk scanFn (walk env source) w with
      | (w', Some e) => scan env rest (Plain.emit_all [EvLog (LogScan source e)] w')
      | (w', None) => scan env rest w'
      end
  end.

Fixpoint addAll (env : Env) (sources : list string) (w : world)
    : world * option fatal :=
  match sources with
  | [] => (w, None)
  | source :: rest =>
      match addFiles env source w with
      | (w', Some e) => (w', Some (FatalAddFiles source e))
      | (w', None) => addAll env rest w'
      end
  end.

(** The last lines of [main]: what is logged and written once [Sum] has
    returned [sha256Sum]. *)
Definition report (env : Env) (sha256Sum destFile : string) : list event :=
  EvLog LogDone ::
  if noSha256 env then []
  else if negb (bool_decide (sha256Sum = "")) then
    let sha256File := destFile +:+ ".sha256" in
    [EvLog (LogSha256 sha256Sum);
     EvWriteFile sha256File
       (sha256Sum +:+ "  " +:+ Base fp destFile +:+ String "010"%char EmptyString)
       (writeFile_err env);
     match writeFile_err env with
     | Some e => EvLog (WarnSha256File sha256File e)
     | None => EvLog (LogSha256Saved sha256File)
     end]
  else [EvLog WarnSha256Timeout].

(** [sha256Sum] is what [sha256Writer.Sum()] returns in this run (the
    stage itself is the transition system [AsyncSHA256Writer]); without
    [-n] unset it stays the empty string. *)
Definition main (env : Env) (sha256Sum : string) : world * exit :=
  let w := world0 env in
  match src_txt env with
  | inr e => (w, Fatal (FatalSrcRead e))
  | inl [] => (w, Fatal FatalSrcEmpty)
  | inl sources =>
      match dst_txt env with
      | inr e => (w, Fatal (FatalDstRead e))
      | inl [] => (w, Fatal FatalDstEmpty)
      | inl (destFile :: _) =>
          match Abs fp destFile with
          | inr e => (w, Fatal (FatalAbsDest e))
          | inl absDest =>
              match checkDest env destFile absDest sources with
              | Some f => (w, Fatal f)
              | None =>
                  let w := scan env sources w in
                  match create_err env with
                  | Some e => (w, Fatal (FatalCreate destFile e))
                  | None =>
                      let w := Plain.emit_all [EvCreate destFile] w in
                      match addAll env sources w with
                      | (w, Some f) => (w, Fatal f)
                      | (w, None) =>
                          let w := Plain.emit_all [EvZipClose; EvFlush] w in
                          let sha256Sum := if noSha256 env then "" else sha256Sum in
                          let w := Plain.emit_all (report env sha256Sum destFile) w in
                          (* the deferred calls *)
                          (Plain.emit_all [EvZipClose; EvFlush] w, Returned)
                      end
                  end
              end
          end
      end
  end.
End Defs.
End Digest.

(** A path lies inside a directory when it continues the directory's
    path after a separator (which a root directory already ends with). *)
Definition dir_prefix (fp : Filepath) (dir : string) : string :=
  if HasSuffix dir (PathSeparator fp) then dir else dir +:+ PathSeparator fp.

Definition inside (fp : Filepath) (p dir : string) : Prop :=
  ∃ rest, p = dir_prefix fp dir +:+ rest.

(** ** Pausing: the keyboard goroutine against the archiving goroutine

    The archiving goroutine performs the events of its trace in order;
    the keyboard goroutine toggles the flag at any moment.  The event
    [EvWaitIfPaused] can be performed only when [WaitIfPaused] returns. *)
Module Pausing.

Record sys : Type := mk {
  pc : PauseController.t;
  todo : list event;
  done : list event
}.

Inductive action : Type :=
| Toggle     (* keyboard goroutine: [pauseController.Toggle()] *)
| Produce.   (* archiving goroutine: its next event *)

Definition start (tr : list event) : sys :=
  {| pc := PauseController.NewPauseController; todo := tr; done := [] |}.

Definition step (a : action) (s : sys) : option sys :=
  match a with
  | Toggle =>
      Some {| pc := PauseController.Toggle (pc s); todo := todo s; done := done s |}
  | Produce =>
      match todo s with
      | [] => None
      | e :: rest =>
          if bool_decide (e = EvWaitIfPaused)
             && negb (PauseController.WaitIfPaused_returns (pc s))
          then None
          else Some {| pc := pc s; todo := rest; done := done s ++ [e] |}
      end
  end.

Fixpoint run (s : sys) (acts : list action) : option sys :=
  match acts with
  | [] => Some s
  | a :: acts' =>
      match step a s with
      | Some s' => run s' acts'
      | None => None
      end
  end.

End Pausing.

Definition is_read (e : event) : bool :=
  match e with
  | EvRead _ _ _ => true
  | _ => false
  end.

(** The headers created without error, in order. *)
Definition headers (tr : list event) : list string :=
  omap (λ e, match e with
             | EvCreateHeader _ h None => Some (Name h)
             | _ => None
             end) tr.

(** The names of the volume-root headers tried, in order. *)
Definition volume_headers (tr : list event) : list string :=
  omap (λ e, match e with
             | EvCreateHeader HVolume h _ => Some (Name h)
             | _ => None
             end) tr.

Definition is_gate (e : event) : bool :=
  match e with
  | EvWaitIfPaused => true
  | _ => false
  end.

(** Every [file.Read] comes right after a [WaitIfPaused]: [prev] tells
    whether the event before the list is one. *)
Fixpoint gated_after (prev : bool) (tr : list event) : Prop :=
  match tr with
  | [] => True
  | e :: tr' => (is_read e → prev) ∧ gated_after (is_gate e) tr'
  end.

Definition gated (tr : list event) : Prop := gated_after false tr.

(** Reading from a source or writing towards the device. *)
Definition is_io (e : event) : bool :=
  match e with
  | EvRead _ _ _ | EvWrite _ _ | EvCreateHeader _ _ _ | EvZipClose | EvFlush => true
  | _ => false
  end.

(** The events a computation adds to the trace. *)
Definition emitted {A} (m : world → world * A) (w : world) : list event :=
  drop (length (trace w)) (trace (m w).1).

(** What the copy loop emits. *)
Definition is_copy_event (e : event) : bool :=
  match e with
  | EvWaitIfPaused | EvRead _ _ _ | EvWrite _ _ | EvLog _ => true
  | _ => false
  end.

(** No header, no payload. *)
Definition skips_entry (evs : list event) : Prop :=
  Forall (λ e, match e with
               | EvCreateHeader _ _ _ | EvOpen _ _ | EvRead _ _ _ | EvWrite _ _ => False
               | _ => True
               end) evs.

(** No header of its own, no payload; a volume-root header may go out. *)
Definition skips_own_entry (evs : list event) : Prop :=
  Forall (λ e, match e with
               | EvCreateHeader HEntry _ _ | EvOpen _ _ | EvRead _ _ _ | EvWrite _ _ => False
               | _ => True
               end) evs.

(** The drive letters of the paths visited, in order. *)
Definition roots (fp : Filepath) (tr : list event) : list string :=
  omap (λ e, match e with
             | EvVisit p =>
                 match Abs fp p with
                 | inl absPath =>
                     let d := Digest.driveLetter fp absPath in
                     if bool_decide (d = "") then None else Some d
                 | inr _ => None
                 end
             | _ => None
             end) tr.

(** The claim of one root header per root, on a trace. *)
Definition one_header_per_root (fp : Filepath) (tr : list event) : Prop :=
  ∀ d, d ∈ roots fp tr →
    length (filter (λ n, n = d +:+ "/") (headers tr)) = 1.

(** An error while an entry is copied: a [file.Read] that fails with
    something else than [io.EOF], or a failed write of a chunk. *)
Definition copy_error (e : event) : option error :=
  match e with
  | EvRead _ _ (Some err) => if decide (err = EOF) then None else Some err
  | EvWrite _ (Some err) => Some err
  | _ => None
  end.

(** While the flag stays set the archiving goroutine passes no
    [WaitIfPaused], and so reads at most once more. *)
Definition pause_bound (tr : list event) : Prop :=
  ∀ acts1 s1 acts2 s2,
    Pausing.run (Pausing.start tr) acts1 = Some s1 →
    PauseController.IsPaused (Pausing.pc s1) = true →
    Pausing.Toggle ∉ acts2 →
    Pausing.run s1 acts2 = Some s2 →
    Pausing.pc s2 = Pausing.pc s1 ∧
    ∃ evs, Pausing.done s2 = Pausing.done s1 ++ evs ∧
           Forall (λ e, is_gate e = false) evs ∧
           length (filter is_read evs) ≤ 1.

(** The claim that nothing is read or written while the flag is set. *)
Definition pause_stops_io (tr : list event) : Prop :=
  ∀ acts1 s1 acts2 s2,
    Pausing.run (Pausing.start tr) acts1 = Some s1 →
    PauseController.IsPaused (Pausing.pc s1) = true →
    Pausing.Toggle ∉ acts2 →
    Pausing.run s1 acts2 = Some s2 →
    Forall (λ e, is_io e = false)
           (drop (length (Pausing.done s1)) (Pausing.done s2)).

(** What a computation leaves alone when it emits copy events only. *)
Definition quiet_step (w w' : world) : Prop :=
  ∃ evs, trace w' = trace w ++ evs ∧ Forall is_copy_event evs ∧
         createdVolumes w' = createdVolumes w.

(** [createdVolumes[d]]. *)
Definition created (w : world) (d : string) : bool :=
  default false (createdVolumes w !! d).

(** The volume-root headers tried so far are pairwise distinct, and each
    is [d/] for a drive letter [d] that is marked in [createdVolumes]
    and belongs to a path visited. *)
Definition vol_inv (fp : Filepath) (w : world) : Prop :=
  NoDup (volume_headers (trace w)) ∧
  ∀ n, n ∈ volume_headers (trace w) →
    ∃ d, n = d +:+ "/" ∧ created w d = true ∧ d ∈ roots fp (trace w).

Definition vol_step (w w' : world) (vh : list string) (cv : gmap string bool) : Prop :=
  ∃ evs, trace w' = trace w ++ evs ∧ volume_headers evs = vh ∧ createdVolumes w' = cv.

(** The claim of the skipped root, for one call of the walk function of
    the plain variant. *)
Definition Plain_skips_root (fp : Filepath) (basePath baseDir : string)
    (it : WalkItem) (w : world) : Prop :=
  ∀ rel, Rel fp baseDir (path it) = inl rel →
    Plain.rootFile fp basePath baseDir it rel = ""
    ∨ Plain.rootFile fp basePath baseDir it rel = "." →
    skips_entry (emitted (Plain.walkFn fp basePath baseDir it) w).

(** ** What a computation of the walk establishes

    [wp m Q w]: running [m] from [w] ends in a world and a result that
    satisfy [Q]. *)
Definition wp {A} (m : M A) (Q : world → A + option error → Prop) (w : world) : Prop :=
  Q (m w).1 (m w).2.

(** The error a result carries, if any. *)
Definition res_err {A} (r : A + option error) : option error :=
  match r with
  | inr (Some e) => Some e
  | _ => None
  end.

(** Fail-fast, on a trace and the error returned: once a copy error has
    happened, nothing follows it but, after a failed [Read], the write of
    the bytes that [Read] still delivered; and the error returned is the
    last copy error. *)
Fixpoint fail_fast (tr : list event) (r : option error) : Prop :=
  match tr with
  | [] => True
  | ev :: l2 =>
      match copy_error ev with
      | None => fail_fast l2 r
      | Some e =>
          (l2 = [] ∧ r = Some e) ∨
          (∃ d, l2 = [EvWrite d None] ∧ r = Some e) ∨
          (∃ d e2, l2 = [EvWrite d (Some e2)] ∧ r = Some e2)
      end
  end.

Definition clean (tr : list event) : Prop :=
  Forall (λ ev, copy_error ev = None) tr.

Definition addFiles_error (ex : exit) : option error :=
  match ex with
  | Fatal (FatalAddFiles _ e) => Some e
  | _ => None
  end.

(** The claim of a fail-fast run, on the trace and the exit of [main]:
    after a copy error no further entry is visited, and [main] dies of
    the error of [addFiles]. *)
Definition aborts_on_copy_error (run : world * exit) : Prop :=
  ∀ l ev l2, trace run.1 = l ++ ev :: l2 → is_Some (copy_error ev) →
    (∀ p, EvVisit p ∉ l2) ∧
    ∃ source e, run.2 = Fatal (FatalAddFiles source e).

(** ** Two concrete platforms, for examples

    [path/filepath] on slash-separated and on drive-letter paths, cut
    down to cleaned absolute paths, which is all the examples feed
    them. *)
Module Lite.

Fixpoint before (sep : ascii) (l : list ascii) : list ascii :=
  match l with
  | [] => []
  | c :: l' => if bool_decide (c = sep) then [] else c :: before sep l'
  end.

(** The part before the last separator, and the part after it. *)
Definition sep_split (sep : ascii) (s : string) : string * string :=
  let l := reverse (String.list_ascii_of_string s) in
  let base := before sep l in
  (String.string_of_list_ascii (reverse (drop (S (length base)) l)),
   String.string_of_list_ascii (reverse base)).

Definition rel (sep : string) (basepath targpath : string) : string + error :=
  let b := if HasSuffix basepath sep then basepath else basepath +:+ sep in
  if bool_decide (basepath = targpath) then inl "."
  else if HasPrefix targpath b
       then inl (TrimPrefix targpath b)
       else inr (Err "Rel: can't make relative").

Definition join (sep : string) (a b : string) : string :=
  if bool_decide (a = "") then b
  else if bool_decide (b = "") then a
  else a +:+ sep +:+ b.

Definition unix : Filepath :=
  {| Separator := "/"%char;
     Abs := inl;
     Rel := rel "/";
     Dir := λ p, let d := (sep_split "/"%char p).1 in
                 if bool_decide (d = "") then "/" else d;
     Base := λ p, (sep_split "/"%char p).2;
     VolumeName := λ _, "";
     Join := join "/";
     ToSlash := λ p, p |}.

Definition volume (p : string) : string :=
  match p with
  | String c (String ":"%char _) => String c (String ":"%char EmptyString)
  | _ => ""
  end.

Definition to_slash (p : string) : string :=
  String.string_of_list_ascii
    ((λ c, if bool_decide (c = "\"%char) then "/"%char else c)
       <$> String.list_ascii_of_string p).

Definition windows : Filepath :=
  {| Separator := "\"%char;
     Abs := inl;
     Rel := rel "\";
     Dir := λ p, let d := (sep_split "\"%char p).1 in
                 if bool_decide (d = volume p) then d +:+ "\" else d;
     Base := λ p, (sep_split "\"%char p).2;
     VolumeName := volume;
     Join := join "\";
     ToSlash := to_slash |}.

End Lite.

(** ** Environments for examples *)
Module Examples.

Definition file (p : string) (rs : list (list byte * option error)) : WalkItem :=
  {| path := p; info := {| IsDir := false; Size := 0 |};
     walk_err := None; header_err := None; open_err := None; reads := rs |}.

Definition dir (p : string) : WalkItem :=
  {| path := p; info := {| IsDir := true; Size := 0 |};
     walk_err := None; header_err := None; open_err := None; reads := [] |}.

(** One source with the given walk; every path is a directory for
    [os.Stat]; nothing else fails. *)
Definition env (source dest : string) (items : list WalkItem) : Env :=
  {| src_txt := inl [source]; dst_txt := inl [dest];
     os_Stat := λ _, inl {| IsDir := true; Size := 0 |};
     walk := λ _, items;
     create_err := None; zip_script := []; noSha256 := true;
     writeFile_err := None |}.

(** [/src/a.txt] fails on its second [Read]; [/src/b.txt] follows it. *)
Definition read_error : Env :=
  env "/src" "/out/a.zip"
    [file "/src/a.txt" [([x01], None); ([], Some (Err "EIO"))];
     file "/src/b.txt" [([x02], None); ([], Some EOF)]].

(** A directory with one file, on a slash-separated platform and on a
    drive. *)
Definition one_file : Env :=
  env "/src" "/out/a.zip"
    [dir "/src"; file "/src/a.txt" [([x01; x02], None); ([], Some EOF)]].

Definition one_file_on_C : Env :=
  env "C:\data" "D:\a.zip"
    [dir "C:\data"; file "C:\data\a.txt" [([x01; x02], None); ([], Some EOF)]].

End Examples.

(** ** What the walk adds to the trace *)

(** The events of one entry after its [EvVisit]: the gate, a header with
    the method [zip.Store], the opening of the file, reads, writes and
    log lines. *)
Definition is_entry_event (e : event) : bool :=
  match e with
  | EvWaitIfPaused | EvOpen _ _ | EvRead _ _ _ | EvWrite _ _ | EvLog _ => true
  | EvCreateHeader _ h _ => bool_decide (Method h = zip_Store)
  | _ => false
  end.

(** The events of a walk. *)
Definition is_walk_event (e : event) : bool :=
  match e with
  | EvVisit _ => true
  | _ => is_entry_event e
  end.

(** A line of the log. *)
Definition is_log (e : event) : bool :=
  match e with
  | EvLog _ => true
  | _ => false
  end.

(** The paths the walk function was entered for, in order. *)
Definition visits (tr : list event) : list string :=
  omap (λ e, match e with EvVisit p => Some p | _ => None end) tr.

(** The bytes the entry writer took without error, in order. *)
Definition written (evs : list event) : list byte :=
  concat (omap (λ e, match e with EvWrite d None => Some d | _ => None end) evs).

(** A write of a chunk that failed. *)
Definition write_failed (e : event) : bool :=
  match e with
  | EvWrite _ (Some _) => true
  | _ => false
  end.

(** What the [file.Read] calls deliver up to the first one that returns
    an error, [io.EOF] included. *)
Fixpoint delivered (rs : list (list byte * option error)) : list byte :=
  match rs with
  | [] => []
  | (chunk, None) :: rs' => chunk ++ delivered rs'
  | (chunk, Some _) :: _ => chunk
  end.

(** What the copy loop over the reads [rs] adds to the trace. *)
Definition copied (rs : list (list byte * option error)) (w w' : world) : Prop :=
  ∃ evs, trace w' = trace w ++ evs ∧ Forall is_copy_event evs ∧
         written evs `prefix_of` delivered rs ∧
         (Forall (λ e, write_failed e = false) evs → written evs = delivered rs).

(** What one call of the walk function adds to the trace. *)
Definition entered (it : WalkItem) (w w' : world) : Prop :=
  ∃ evs, trace w' = trace w ++ EvVisit (path it) :: evs ∧ Forall is_entry_event evs.

(** What a walk over [items] adds to the trace; [complete] tells whether
    it got to the end of them. *)
Definition walked (items : list WalkItem) (complete : bool) (w w' : world) : Prop :=
  ∃ evs, trace w' = trace w ++ evs ∧ Forall is_walk_event evs ∧
         visits evs `prefix_of` (path <$> items) ∧
         (complete = true → visits evs = path <$> items).

(** Every item the walks of the sources yield, in order. *)
Definition all_items (env : Env) (sources : list string) : list WalkItem :=
  concat (walk env <$> sources).

(** The fatal errors [main] can die of before the archive is begun. *)
Definition is_early_error (f : fatal) : bool :=
  match f with
  | FatalAddFiles _ _ => false
  | _ => true
  end.

(** A directory entry: no payload, and a name that ends in a slash. *)
Definition is_dir_event (e : event) : Prop :=
  match e with
  | EvOpen _ _ | EvRead _ _ _ | EvWrite _ _ => False
  | EvCreateHeader HEntry h _ => HasSuffix (Name h) "/" = true
  | _ => True
  end.

(** The names of the entry headers tried, in order. *)
Definition entry_headers (tr : list event) : list string :=
  omap (λ e, match e with
             | EvCreateHeader HEntry h _ => Some (Name h)
             | _ => None
             end) tr.

(** A write of a chunk carries at least one byte. *)
Definition nonempty_write (e : event) : Prop :=
  match e with
  | EvWrite d _ => d ≠ []
  | _ => True
  end.

(** ** Volume roots: what a call gets to *)

(** The walk function gets to the drive letter [d] for an item: [Walk]
    handed in no error, [zip.FileInfoHeader] and [filepath.Abs]
    succeeded, and [d] is the drive letter of the absolute path. *)
Definition encounters (fp : Filepath) (it : WalkItem) (d : string) : Prop :=
  walk_err it = None ∧ header_err it = None ∧
  ∃ absPath, Abs fp (path it) = inl absPath ∧ Digest.driveLetter fp absPath = d.

(** ** Safety properties of a trace

    A monitor reads the events of a trace in order; [δ q e] is its state
    after the event [e] in state [q], or [None] when [e] must not come
    in state [q]. *)
Section Monitor.
Context {Q : Type}.
Variable δ : Q → event → option Q.

Fixpoint monitor (q : Q) (tr : list event) : option Q :=
  match tr with
  | [] => Some q
  | e :: tr' =>
      match δ q e with
      | Some q' => monitor q' tr'
      | None => None
      end
  end.

(** The state of the monitor on the trace of a world. *)
Definition state (q0 : Q) (w : world) : option Q := monitor q0 (trace w).
End Monitor.

(** The events [main] itself adds to the trace, outside the walks. *)
Definition is_main_event (e : event) : bool :=
  match e with
  | EvLog _ | EvCreate _ | EvZipClose | EvFlush | EvWriteFile _ _ _ => true
  | _ => false
  end.

(** ** The gate at the top of the walk function

    The monitor remembers whether [WaitIfPaused] has returned since the
    walk function was last entered; a header, an [os.Open], a
    [file.Read] and a write of a chunk must not come before it has. *)
Definition entry_gate (passed : bool) (e : event) : option bool :=
  match e with
  | EvVisit _ => Some false
  | EvWaitIfPaused => Some true
  | EvCreateHeader _ _ _ | EvOpen _ _ | EvRead _ _ _ | EvWrite _ _ =>
      if passed then Some true else None
  | _ => Some passed
  end.

Definition entry_gated (tr : list event) : Prop :=
  is_Some (monitor entry_gate false tr).

(** ** Copy errors and the log (SHA-256 variant)

    What the copy loop owes the log. *)
Inductive pending : Type :=
| Calm
| ReadFailed (e : error)          (* a [Read] failed; its bytes, if any, are to be written *)
| ReadFailedWritten (e : error)   (* a [Read] failed and its bytes are written *)
| WriteFailed (e : error)         (* a write failed *)
| GivenUp.                        (* the error is logged *)

(** The monitor keeps the path of the file being read.  After a failed
    write the next event is the log line of that error; after a failed
    [Read] it is the log line of that error, with at most the write of
    the bytes the [Read] delivered before it, unless that write fails:
    then the error of the write is the one to be logged.  Once the
    error is logged the entry is given up: no gate, header, [os.Open],
    [Read] or write comes before the walk function is entered again. *)
Definition errors_logged_step (q : string * pending) (ev : event)
    : option (string * pending) :=
  let '(cur, p) := q in
  match p with
  | Calm =>
      match ev with
      | EvRead path _ (Some e) =>
          Some (path, if decide (e = EOF) then Calm else ReadFailed e)
      | EvRead path _ None => Some (path, Calm)
      | EvWrite _ (Some e) => Some (cur, WriteFailed e)
      | _ => Some (cur, Calm)
      end
  | ReadFailed e =>
      match ev with
      | EvWrite _ None => Some (cur, ReadFailedWritten e)
      | EvWrite _ (Some e2) => Some (cur, WriteFailed e2)
      | _ => if bool_decide (ev = EvLog (LogRead cur e)) then Some (cur, GivenUp) else None
      end
  | ReadFailedWritten e =>
      if bool_decide (ev = EvLog (LogRead cur e)) then Some (cur, GivenUp) else None
  | WriteFailed e =>
      if bool_decide (ev = EvLog (LogWrite cur e)) then Some (cur, GivenUp) else None
  | GivenUp =>
      match ev with
      | EvVisit _ => Some (cur, Calm)
      | EvWaitIfPaused | EvCreateHeader _ _ _ | EvOpen _ _ | EvRead _ _ _
      | EvWrite _ _ => None
      | _ => Some (cur, GivenUp)
      end
  end.

(** No log line is owed. *)
Definition settled (p : pending) : Prop := p = Calm ∨ p = GivenUp.

(** Every copy error of the trace is followed by its log line, and the
    entry is given up then. *)
Definition errors_logged (tr : list event) : Prop :=
  ∃ cur p, monitor errors_logged_step ("", Calm) tr = Some (cur, p) ∧ settled p.

(** ** The digest stage against the device alone *)
Module AsyncSHA256WriterDirect.
Import AsyncSHA256Writer.

(** The arguments of the [Write] calls of a run, in order. *)
Definition writes_of (tr : list action) : list (list byte) :=
  omap (λ a, match a with AWrite p => Some p | _ => None end) tr.

(** The same slices written to the device without the stage in between:
    the device afterwards, and what each [Write] answers. *)
Fixpoint direct (f : File) (ps : list (list byte)) : File * list event :=
  match ps with
  | [] => (f, [])
  | p :: ps' =>
      let '(f', (n, err)) := File_Write f p in
      let '(f'', l) := direct f' ps' in
      (f'', EvWrite p n err :: l)
  end.

(** The answer of the underlying writer to a [Write]. *)
Definition is_write (e : event) : bool :=
  match e with
  | EvWrite _ _ _ => true
  | _ => false
  end.

(** The caller parked in the send of a [Write] has found the stage
    open. *)
Definition sending_open (s : sys File) : Prop :=
  ∀ v n, main s = Sending v (InWrite n) → closed (asw s) = false ∧ is_Some v.

(** [dataCh] holds no more than its capacity. *)
Definition bounded (s : sys File) : Prop := length (dataCh (asw s)) ≤ dataCh_cap.
End AsyncSHA256WriterDirect.

(** ** The digest stage against the sink *)
Module AsyncSHA256WriterSink.
Import AsyncSHA256Writer.

(** The bytes the underlying writer took: [p[:n]] for every answer
    [(n, err)], with or without an error. *)
Fixpoint accepted (l : list event) : list byte :=
  match l with
  | [] => []
  | EvWrite p n _ :: l' => slice p 0 n ++ accepted l'
  | _ :: l' => accepted l'
  end.

(** No [Write] that the underlying writer answered with an error had
    put bytes on it. *)
Definition clean_failures (l : list event) : Prop :=
  ∀ p n e, EvWrite p n (Some e) ∈ l → n = 0.

(** The claim of a digest of the sink: after the calls [Write p1; ...;
    Write pk; Sum()], a non-empty result of [Sum] is the hex encoding of
    the digest of what is on the sink. *)
Definition digest_of_sink (sha256 : list byte → list byte) : Prop :=
  ∀ (fs : list (option (nat * error))) (ps : list (list byte))
    (tr : list action) (s : sys File) (r : string),
    run sha256 (NewAsyncSHA256Writer (newFile fs)) tr = Some s →
    calls tr = (AWrite <$> ps) ++ [ASum] →
    EvSum r ∈ log s →
    r ≠ "" →
    r = hex_EncodeToString (sha256 (stored (writer (asw s)))).
End AsyncSHA256WriterSink.

(** ** The timeout of [Sum] against the call *)
Module AsyncSHA256WriterTimeout.
Import AsyncSHA256Writer.

End AsyncSHA256WriterTimeout.

(** * Theorems *)

(** ** BufferedWriter over the device *)

Section BufferedWriterFacts.
Import BufferedWriter.

Implicit Types (bw : BufferedWriter.t File) (p : list byte).

Lemma File_Write_received f p :
  received (File_Write f p).1 = received f ++ [p].
Proof. unfold File_Write. by repeat case_match. Qed.

Lemma File_Write_clean f p :
  Forall (λ x, x = None) (faults f) →
  (File_Write f p).2.2 = None ∧ Forall (λ x, x = None) (faults (File_Write f p).1).
Proof.
  unfold File_Write. intros Hf.
  destruct (faults f) as [|[[k e]|] rest] eqn:E; simpl; auto.
  - by inversion Hf.
  - by inversion Hf.
Qed.

Lemma Flush_spec bw :
  wf bw →
  ∃ bw' err, Flush bw = (bw', err) ∧
    buffer bw' = buffer bw ∧ offset bw' = 0 ∧
    (offset bw = 0 → bw' = bw ∧ err = None) ∧
    (0 < offset bw → received (writer bw') = received (writer bw) ++ [pending bw]) ∧
    (Forall (λ x, x = None) (faults (writer bw)) →
       err = None ∧ Forall (λ x, x = None) (faults (writer bw'))).
Proof.
  intros Hwf. unfold Flush. case_decide as Ho.
  - exists bw, None. repeat split; auto; try lia.
  - unfold io_Write, File_Writer, slice. rewrite Nat.sub_0_r, drop_0.
    pose proof (File_Write_received (writer bw) (take (offset bw) (buffer bw))) as Hr.
    pose proof (File_Write_clean (writer bw) (take (offset bw) (buffer bw))) as Hc.
    destruct (File_Write _ _) as [w' [k err]]; simpl in *.
    exists {| writer := w'; buffer := buffer bw; offset := 0 |}, err.
    repeat split; auto; try lia; intros; by apply Hc.
Qed.

(** The three assignments that end a loop iteration. *)
Lemma fill_spec (w : File) buf off p src cs :
  off + cs ≤ length buf → src + cs ≤ length p →
  let buf' := take off buf ++ copy (drop off buf) (slice p src (src + cs)) in
  length buf' = length buf ∧
  take (off + cs) buf' = take off buf ++ take cs (drop src p).
Proof.
  intros Hb Hp. unfold copy, slice.
  replace (src + cs - src) with cs by lia.
  assert (length (take cs (drop src p)) = cs) as Hc.
  { rewrite length_take, length_drop. lia. }
  rewrite Hc, length_drop.
  rewrite (take_ge (take cs (drop src p))) by lia.
  split.
  - rewrite !length_app, length_take, Hc, !length_drop. lia.
  - rewrite app_assoc, take_app_le by (rewrite length_app, length_take, Hc; lia).
    rewrite take_ge; [done|]. rewrite length_app, length_take, Hc. lia.
Qed.

Lemma Write_loop_spec fuel : ∀ bw p n rem src,
  wf bw → 0 < length (buffer bw) → rem ≤ fuel → src + rem = length p →
  ∃ bw' k err new,
    Write_loop fuel bw p n rem src = Some (bw', (k, err)) ∧
    wf bw' ∧ length (buffer bw') = length (buffer bw) ∧
    received (writer bw') = received (writer bw) ++ new ∧
    Forall (λ s, length s = length (buffer bw)) new ∧
    (err = None → k = n ∧ concat new ++ pending bw' = pending bw ++ drop src p) ∧
    (Forall (λ x, x = None) (faults (writer bw)) →
       err = None ∧ Forall (λ x, x = None) (faults (writer bw'))).
Proof.
  induction fuel as [|fuel IH]; intros bw p n rem src Hwf Hcap Hfuel Hsrc.
  - assert (rem = 0) as -> by lia. simpl.
    exists bw, n, None, []. rewrite !app_nil_r, drop_ge by lia.
    rewrite app_nil_r. repeat split; auto.
  - simpl. case_decide as Hrem; cycle 1.
    { assert (rem = 0) as -> by lia.
      exists bw, n, None, []. rewrite !app_nil_r, drop_ge by lia.
      rewrite app_nil_r. repeat split; auto. }
    unfold wf in Hwf.
    (* the state after the optional flush *)
    assert (∃ bw1 (r : option error) new1,
      (if decide (length (buffer bw) - offset bw = 0) then
         let '(b, err) := Flush bw in
         match err with
         | Some e => inl (b, e)
         | None => inr (b, length (buffer b))
         end
       else inr (bw, length (buffer bw) - offset bw)) =
      match r with
      | Some e => inl (bw1, e)
      | None => inr (bw1, length (buffer bw1) - offset bw1)
      end ∧
      buffer bw1 = buffer bw ∧
      (r = None → offset bw1 < length (buffer bw1)) ∧
      offset bw1 ≤ length (buffer bw1) ∧
      received (writer bw1) = received (writer bw) ++ new1 ∧
      Forall (λ s, length s = length (buffer bw)) new1 ∧
      concat new1 ++ pending bw1 = pending bw ∧
      (Forall (λ x, x = None) (faults (writer bw)) →
         r = None ∧ Forall (λ x, x = None) (faults (writer bw1))))
      as (bw1 & r & new1 & -> & Hbuf & Hlt & Hle & Hrec & Hall & Hpend & Hclean).
    { case_decide as Hav.
      - destruct (Flush_spec bw Hwf) as (b & err & -> & Hb & Ho & _ & Hr & Hc).
        exists b, err, [pending bw]. rewrite Hb, Ho.
        assert (offset bw = length (buffer bw)) as Hfull by lia.
        destruct err; (split; [by rewrite ?Nat.sub_0_r|]).
        all: repeat split; auto; try lia; try (apply Hr; lia).
        all: try (constructor; [|done]; unfold pending;
                  rewrite length_take; lia).
        all: try (unfold pending at 2; rewrite Ho; simpl; by rewrite !app_nil_r).
        all: try (intros Hf; by destruct (Hc Hf)).
        all: by destruct (Hc ltac:(assumption)).
      - exists bw, None, []. rewrite !app_nil_r.
        repeat split; auto; lia. }
    destruct r as [e|].
    { exists bw1, (n - rem), (Some e), new1. rewrite Hbuf in *.
      split_and!; auto; try done. unfold wf. by rewrite Hbuf. }
    specialize (Hlt eq_refl).
    set (cs := if decide (length (buffer bw1) - offset bw1 < rem)
               then length (buffer bw1) - offset bw1 else rem).
    assert (0 < cs ∧ cs ≤ rem ∧ offset bw1 + cs ≤ length (buffer bw1))
      as (Hcs0 & Hcsr & Hcsb) by (unfold cs; case_decide; lia).
    destruct (fill_spec (writer bw1) (buffer bw1) (offset bw1) p src cs)
      as [Hlen Htake]; [lia..|].
    match goal with |- context [Write_loop fuel ?b _ _ _ _] => set (bw2 := b) end.
    destruct (IH bw2 p n (rem - cs) (src + cs))
      as (bw' & k & err & new & -> & Hwf' & Hlen' & Hrec' & Hall' & Hok & Hclean');
      [unfold wf; simpl; lia | simpl; lia | lia | lia |].
    simpl in *. exists bw', k, err, (new1 ++ new).
    rewrite Hlen in *. rewrite Hbuf in *.
    split_and!; auto.
    + by rewrite Hrec', Hrec, app_assoc.
    + by apply Forall_app.
    + intros Herr. destruct (Hok Herr) as [-> Hc]. split; [done|].
      rewrite concat_app, <- app_assoc, Hc.
      unfold pending at 1, bw2. simpl. rewrite Hbuf, Htake, <- Hpend.
      unfold pending. rewrite Hbuf, <- !app_assoc. do 2 f_equal.
      rewrite <- (take_drop cs (drop src p)) at 2. by rewrite drop_drop.
    + intros Hf. destruct (Hclean Hf) as [_ Hf1]. by apply Hclean'.
Qed.

(** One unfolding of the loop. *)
Lemma Write_loop_S fuel bw p n rem src :
  Write_loop (S fuel) bw p n rem src =
    if decide (0 < rem) then
      let available := length (buffer bw) - offset bw in
      let flushed :=
        if decide (available = 0) then
          let '(bw1, err) := Flush bw in
          match err with
          | Some e => inl (bw1, e)
          | None => inr (bw1, length (buffer bw1))
          end
        else inr (bw, available) in
      match flushed with
      | inl (bw1, e) => Some (bw1, (n - rem, Some e))
      | inr (bw1, available) =>
          let copySize := if decide (available < rem) then available else rem in
          Write_loop fuel
            {| writer := writer bw1;
               buffer := take (offset bw1) (buffer bw1) ++
                         copy (drop (offset bw1) (buffer bw1))
                              (slice p src (src + copySize));
               offset := offset bw1 + copySize |}
            p n (rem - copySize) (src + copySize)
      end
    else Some (bw, (n, None)).
Proof. reflexivity. Qed.

(** More fuel never changes a result. *)
Lemma Write_loop_fuel_S fuel : ∀ bw p n rem src r,
  Write_loop fuel bw p n rem src = Some r →
  Write_loop (S fuel) bw p n rem src = Some r.
Proof.
  induction fuel as [|fuel IH]; intros bw p n rem src r.
  - simpl. by case_decide.
  - rewrite (Write_loop_S (S fuel)), (Write_loop_S fuel).
    case_decide; [|done]. cbv zeta.
    destruct (if decide (length (buffer bw) - offset bw = 0) then _ else _)
      as [[b e]|[b av]]; [done|].
    apply IH.
Qed.

(** A zero-capacity buffer never gets rid of a byte: the loop of [Write]
    does not end, whatever the bound. *)
Lemma Write_loop_cap0 fuel : ∀ bw p n rem src,
  buffer bw = [] → offset bw = 0 → 0 < rem →
  Write_loop fuel bw p n rem src = None.
Proof.
  induction fuel as [|fuel IH]; intros bw p n rem src Hb Ho Hrem; simpl.
  - by case_decide.
  - case_decide; [|lia]. rewrite Hb, Ho. simpl.
    unfold Flush. rewrite Ho. simpl. rewrite Hb. simpl.
    case_decide; [|lia]. apply IH; simpl; [|lia..].
    rewrite Ho. unfold copy, slice. by replace (src + 0 - src) with 0 by lia.
Qed.

Lemma Write_spec bw p :
  wf bw → 0 < length (buffer bw) →
  ∃ bw' k err new,
    Write bw p = Some (bw', (k, err)) ∧
    wf bw' ∧ length (buffer bw') = length (buffer bw) ∧
    received (writer bw') = received (writer bw) ++ new ∧
    Forall (λ s, length s = length (buffer bw)) new ∧
    (err = None → k = length p ∧ concat new ++ pending bw' = pending bw ++ p) ∧
    (Forall (λ x, x = None) (faults (writer bw)) →
       err = None ∧ Forall (λ x, x = None) (faults (writer bw'))).
Proof.
  intros Hwf Hcap. unfold Write.
  destruct (Write_loop_spec (length p) bw p (length p) (length p) 0)
    as (bw' & k & err & new & Hw & H); [done..|lia|].
  exists bw', k, err, new. by rewrite drop_0 in H.
Qed.

Lemma Write_all_spec ps : ∀ bw,
  wf bw → 0 < length (buffer bw) →
  ∃ bw' rs new,
    Write_all bw ps = Some (bw', rs) ∧
    wf bw' ∧ length (buffer bw') = length (buffer bw) ∧
    received (writer bw') = received (writer bw) ++ new ∧
    Forall (λ s, length s = length (buffer bw)) new ∧
    (all_ok rs → rs = (λ p, (length p, None)) <$> ps ∧
                 concat new ++ pending bw' = pending bw ++ concat ps) ∧
    (Forall (λ x, x = None) (faults (writer bw)) →
       all_ok rs ∧ Forall (λ x, x = None) (faults (writer bw'))).
Proof.
  induction ps as [|p ps IH]; intros bw Hwf Hcap.
  - exists bw, [], []. simpl. rewrite !app_nil_r.
    split_and!; auto. intros Hf. split; [constructor|done].
  - destruct (Write_spec bw p Hwf Hcap)
      as (bw1 & k & err & new1 & Hw & Hwf1 & Hlen1 & Hrec1 & Hall1 & Hok1 & Hcl1).
    destruct (IH bw1 Hwf1 ltac:(lia))
      as (bw2 & rs & new2 & Hws & Hwf2 & Hlen2 & Hrec2 & Hall2 & Hok2 & Hcl2).
    exists bw2, ((k, err) :: rs), (new1 ++ new2).
    simpl. rewrite Hw, Hws. rewrite Hlen1 in *.
    split_and!; auto.
    + by rewrite Hrec2, Hrec1, app_assoc.
    + by apply Forall_app.
    + intros Hok. inversion Hok as [|?? He Hrs]; subst. simpl in He.
      destruct (Hok1 He) as [-> Hc1]. destruct (Hok2 Hrs) as [-> Hc2].
      rewrite He. split; [done|].
      by rewrite concat_app, <- app_assoc, Hc2, app_assoc, Hc1, app_assoc.
    + intros Hf. destruct (Hcl1 Hf) as [-> Hf1]. destruct (Hcl2 Hf1) as [Hrs Hf2].
      split; [by constructor|done].
Qed.

Lemma NewBufferedWriter_wf (w : File) cap :
  wf (NewBufferedWriter w cap) ∧ length (buffer (NewBufferedWriter w cap)) = cap
  ∧ pending (NewBufferedWriter w cap) = [].
Proof. unfold wf, pending. simpl. rewrite length_replicate. split_and!; [lia|done..]. Qed.
End BufferedWriterFacts.

(** C1. Round trip through the coalescing buffer.  Over a buffer of
    capacity [cap > 0] on a fresh device, any sequence of [Write] calls
    completes; and when no call and not the final [Flush] reports an
    error, the slices the device received, concatenated, are the input
    slices concatenated: nothing lost, repeated or reordered, however the
    input was cut into calls.  A device that never fails reports no
    error. *)
Theorem BufferedWriter_roundtrip (cap : nat) (fs : list (option (nat * error)))
    (ps : list (list byte)) :
  0 < cap →
  ∃ bw1 rs bw2 err,
    BufferedWriter.Write_all (BufferedWriter.NewBufferedWriter (newFile fs) cap) ps
      = Some (bw1, rs) ∧
    BufferedWriter.Flush bw1 = (bw2, err) ∧
    (all_ok rs → err = None →
       concat (received (BufferedWriter.writer bw2)) = concat ps) ∧
    (no_faults fs → all_ok rs ∧ err = None).
Proof.
  intros Hcap.
  destruct (NewBufferedWriter_wf (newFile fs) cap) as (Hwf & Hlen & Hpend).
  destruct (Write_all_spec ps _ Hwf ltac:(lia))
    as (bw1 & rs & new & Hw & Hwf1 & Hlen1 & Hrec & Hall & Hok & Hcl).
  destruct (Flush_spec bw1 Hwf1) as (bw2 & err & Hfl & Hb & Ho & Hz & Hnz & Hcl2).
  exists bw1, rs, bw2, err. split_and!; [done..| |].
  - intros Hrs _. destruct (Hok Hrs) as [_ Hc]. rewrite Hpend in Hc. simpl in Hc.
    rewrite <- Hc. destruct (decide (BufferedWriter.offset bw1 = 0)) as [H0|H0].
    + destruct (Hz H0) as [-> _]. rewrite Hrec. simpl.
      unfold BufferedWriter.pending. rewrite H0. simpl. by rewrite app_nil_r.
    + rewrite Hnz, Hrec by lia. simpl. rewrite concat_app. simpl.
      by rewrite app_nil_r.
  - intros Hfs. destruct (Hcl Hfs) as [Hrs Hf1]. split; [done|].
    by destruct (Hcl2 Hf1).
Qed.

Lemma BufferedWriter_roundtrip_witness :
  ∃ bw1 rs bw2 err,
    BufferedWriter.Write_all (BufferedWriter.NewBufferedWriter (newFile []) 2)
      [[x01; x02; x03]; []; [x04; x05]] = Some (bw1, rs) ∧
    BufferedWriter.Flush bw1 = (bw2, err) ∧
    (all_ok rs → err = None →
       concat (received (BufferedWriter.writer bw2))
       = concat [[x01; x02; x03]; []; [x04; x05]]) ∧
    (no_faults [] → all_ok rs ∧ err = None).
Proof. apply (BufferedWriter_roundtrip 2 [] [[x01; x02; x03]; []; [x04; x05]]). lia. Defined.

(** C4. Block sizes.  Over a buffer of capacity [cap > 0] (10 MiB in
    [main]), every slice the device receives during the [Write] calls has
    exactly [cap] bytes, whatever the device answers; the [Flush] that
    follows does nothing at all on an empty buffer, and otherwise hands
    over one more slice, of at least 1 and at most [cap] bytes. *)
Theorem BufferedWriter_block_sizes (cap : nat) (fs : list (option (nat * error)))
    (ps : list (list byte)) :
  0 < cap →
  0 < main_bufSize ∧
  ∃ bw1 rs bw2 err,
    BufferedWriter.Write_all (BufferedWriter.NewBufferedWriter (newFile fs) cap) ps
      = Some (bw1, rs) ∧
    Forall (λ s, length s = cap) (received (BufferedWriter.writer bw1)) ∧
    BufferedWriter.Flush bw1 = (bw2, err) ∧
    (BufferedWriter.offset bw1 = 0 → bw2 = bw1 ∧ err = None) ∧
    (0 < BufferedWriter.offset bw1 →
       ∃ s, received (BufferedWriter.writer bw2)
              = received (BufferedWriter.writer bw1) ++ [s] ∧
            0 < length s ≤ cap).
Proof.
  intros Hcap. split; [unfold main_bufSize; lia|].
  destruct (NewBufferedWriter_wf (newFile fs) cap) as (Hwf & Hlen & Hpend).
  destruct (Write_all_spec ps _ Hwf ltac:(lia))
    as (bw1 & rs & new & Hw & Hwf1 & Hlen1 & Hrec & Hall & Hok & Hcl).
  destruct (Flush_spec bw1 Hwf1) as (bw2 & err & Hfl & Hb & Ho & Hz & Hnz & Hcl2).
  exists bw1, rs, bw2, err. rewrite Hlen in *. split_and!; auto.
  - by rewrite Hrec.
  - intros Hoff. exists (BufferedWriter.pending bw1). split; [by apply Hnz|].
    unfold BufferedWriter.pending, BufferedWriter.wf in *.
    rewrite length_take. lia.
Qed.

Lemma BufferedWriter_block_sizes_witness :
  0 < main_bufSize ∧
  ∃ bw1 rs bw2 err,
    BufferedWriter.Write_all
      (BufferedWriter.NewBufferedWriter (newFile [None; Some (1, Err "EIO")]) 2)
      [[x01; x02; x03]; [x04; x05]; [x06]] = Some (bw1, rs) ∧
    Forall (λ s, length s = 2) (received (BufferedWriter.writer bw1)) ∧
    BufferedWriter.Flush bw1 = (bw2, err) ∧
    (BufferedWriter.offset bw1 = 0 → bw2 = bw1 ∧ err = None) ∧
    (0 < BufferedWriter.offset bw1 →
       ∃ s, received (BufferedWriter.writer bw2)
              = received (BufferedWriter.writer bw1) ++ [s] ∧
            0 < length s ≤ 2).
Proof.
  apply (BufferedWriter_block_sizes 2 [None; Some (1, Err "EIO")]
           [[x01; x02; x03]; [x04; x05]; [x06]]). lia.
Defined.

(** ** The digest stage *)

Section AsyncSHA256WriterFacts.
Import AsyncSHA256Writer.

Variable sha256 : list byte → list byte.

Local Abbreviation digest := (λ m, hex_EncodeToString (sha256 m)).
Local Abbreviation step := (AsyncSHA256Writer.step (W:=File) sha256).
Local Abbreviation run := (AsyncSHA256Writer.run (W:=File) sha256).

Implicit Types (s : sys File) (l : list event) (tr : list action).

Lemma written_ok_snoc l e : written_ok (l ++ [e]) = written_ok l ++ contribution e.
Proof.
  induction l as [|[p n [x|]| |r] l IH]; simpl; rewrite ?IH, ?app_assoc; try done.
  destruct e as [p n [x|]| |r]; simpl; by rewrite ?app_nil_r.
Qed.

Lemma fed_snoc l e :
  fed (l ++ [e]) = if has_close l then fed l else fed l ++ contribution e.
Proof.
  induction l as [|[p n [x|]| |r] l IH]; simpl; rewrite ?IH; try done.
  - destruct e as [p n [x|]| |r]; simpl; by rewrite ?app_nil_r.
  - destruct (has_close l); by rewrite ?app_assoc.
Qed.

Lemma has_close_snoc l e :
  has_close (l ++ [e]) = has_close l || match e with EvClose => true | _ => false end.
Proof. unfold has_close. rewrite existsb_app. simpl. by rewrite orb_false_r. Qed.

Lemma fed_snoc_quiet l e :
  contribution e = [] → fed (l ++ [e]) = fed l.
Proof. intros He. rewrite fed_snoc, He, app_nil_r. by destruct (has_close l). Qed.

(** The private copy made by [Write] is [p[:n]]. *)
Lemma dataCopy_eq (p : list byte) n :
  n ≤ length p → copy (replicate n x00) (slice p 0 n) = slice p 0 n.
Proof.
  intros Hn. unfold copy, slice. rewrite Nat.sub_0_r, drop_0, length_replicate.
  rewrite length_take, Nat.min_l by done.
  rewrite drop_ge by (by rewrite length_replicate).
  rewrite app_nil_r. apply take_ge. rewrite length_take. lia.
Qed.

Lemma File_Write_count f p : (File_Write f p).2.1 ≤ length p.
Proof. unfold File_Write. repeat case_match; simpl; lia. Qed.

Lemma elem_of_snoc {A} (l : list A) (x y : A) : x ∈ l ++ [y] ↔ x ∈ l ∨ x = y.
Proof. rewrite elem_of_app, list_elem_of_singleton. done. Qed.

Lemma Inv_init f : Inv digest (NewAsyncSHA256Writer f).
Proof.
  split; simpl; try done.
  - intros r Hr. by apply elem_of_nil in Hr.
  - intros r Hr. by apply elem_of_nil in Hr.
  - intros _. split; [done|]. intros r Hr. by apply elem_of_nil in Hr.
  - intros _. split; [done|]. by exists [].
Qed.

(** An event without a contribution, other than the closing, leaves the
    invariant alone as long as the struct fields do not move. *)
Lemma Inv_Write s p :
  main s = Idle → Inv digest s → Inv digest (AsyncSHA256Writer.Write s p).
Proof.
  intros Hm [Hc Hr Hs Hw Ho Hd _ Hrun]. unfold AsyncSHA256Writer.Write.
  unfold io_Write, File_Writer.
  pose proof (File_Write_count (writer (asw s)) p) as Hn.
  destruct (File_Write (writer (asw s)) p) as [w' [n err]]. simpl in Hn.
  unfold inflight in Hrun. rewrite Hm in Hrun.
  assert (∀ e, (∀ r, e ≠ EvSum r) → contribution e = [] → e ≠ EvClose →
    ∀ w, Inv digest {| asw := set_writer (asw s) w; hashWorker := hashWorker s;
                       main := Idle; now := now s; log := log s ++ [e] |}) as Hquiet.
  { intros e He1 He2 He3 w. split; simpl.
    - rewrite has_close_snoc, Hc. destruct e; try done; by rewrite orb_false_r.
    - rewrite fed_snoc_quiet by done. apply Hr.
    - rewrite fed_snoc_quiet by done. intros r [Hin|Hin]%elem_of_snoc; [by apply Hs|].
      by destruct (He1 r).
    - done.
    - intros Hcl. destruct (Ho Hcl) as [Hwk Hns]. split; [done|].
      intros r [Hin|Hin]%elem_of_snoc; [by apply (Hns r)|]. by destruct (He1 r).
    - done.
    - done.
    - rewrite fed_snoc_quiet by done. unfold inflight. simpl. done. }
  destruct err as [e|].
  { by apply Hquiet. }
  change (closed (set_writer (asw s) w')) with (closed (asw s)).
  destruct (closed (asw s)) eqn:Hcl; simpl.
  { (* closed: nothing is sent, and the event is past the closing *)
    split; simpl; rewrite ?Hcl.
    - by rewrite has_close_snoc, <- Hc.
    - rewrite fed_snoc, <- Hc. apply Hr.
    - rewrite fed_snoc, <- Hc. intros r [Hin|Hin]%elem_of_snoc; [by apply Hs|done].
    - done.
    - done.
    - done.
    - done.
    - rewrite fed_snoc, <- Hc. unfold inflight. simpl. done. }
  destruct (Ho eq_refl) as [Hwk Hns].
  destruct (Hrun Hwk) as (Hres & xs & Hh & Hfl). rewrite app_nil_r in Hfl.
  destruct (bool_decide (0 < n)) eqn:Hpos; simpl.
  - split; simpl; rewrite ?Hcl.
    + by rewrite has_close_snoc, <- Hc.
    + rewrite Hres. intros r Hin. by apply elem_of_nil in Hin.
    + intros r [Hin|Hin]%elem_of_snoc; [by destruct (Hns r)|done].
    + done.
    + intros _. split; [done|].
      intros r [Hin|Hin]%elem_of_snoc; [by apply (Hns r)|done].
    + done.
    + done.
    + intros _. split; [done|]. exists (xs ++ [slice p 0 n]).
      rewrite fed_snoc, <- Hc. simpl. rewrite concat_app. simpl.
      rewrite app_nil_r, app_assoc, Hh. split; [done|].
      unfold inflight. simpl. rewrite dataCopy_eq by done.
      rewrite Hfl, fmap_app. simpl. by rewrite !app_nil_r.
  - apply bool_decide_eq_false in Hpos. assert (n = 0) as -> by lia.
    split; simpl; rewrite ?Hcl.
    + by rewrite has_close_snoc, <- Hc.
    + rewrite Hres. intros r Hin. by apply elem_of_nil in Hin.
    + intros r [Hin|Hin]%elem_of_snoc; [by destruct (Hns r)|done].
    + done.
    + intros _. split; [done|].
      intros r [Hin|Hin]%elem_of_snoc; [by apply (Hns r)|done].
    + done.
    + done.
    + intros _. split; [done|]. exists xs.
      rewrite fed_snoc, <- Hc. simpl. unfold slice. simpl.
      rewrite app_nil_r. split; [done|].
      unfold inflight. simpl. by rewrite Hfl, !app_nil_r.
Qed.

Lemma Inv_Close s k :
  main s = Idle → Inv digest s → Inv digest (AsyncSHA256Writer.Close s k).
Proof.
  intros Hm [Hc Hr Hs Hw Ho Hd _ Hrun]. unfold AsyncSHA256Writer.Close.
  unfold inflight in Hrun. rewrite Hm in Hrun.
  destruct (closed (asw s)) eqn:Hcl.
  - split; simpl; rewrite ?Hcl; try done.
    + by destruct k.
    + intros Hwk. destruct (Hrun Hwk) as (Hres & xs & Hh & Hfl).
      split; [done|]. exists xs. split; [done|].
      unfold inflight. simpl. by destruct k.
  - destruct (Ho eq_refl) as [Hwk Hns].
    destruct (Hrun Hwk) as (Hres & xs & Hh & Hfl).
    split; simpl; rewrite ?fed_snoc_quiet by done; try done.
    + rewrite has_close_snoc. simpl. by rewrite orb_true_r.
    + intros r [Hin|Hin]%elem_of_snoc; [by apply Hs|done].
    + by destruct k.
    + intros _. split; [done|]. exists xs. split; [done|].
      unfold inflight. simpl. rewrite app_nil_r in Hfl. by rewrite Hfl, !app_nil_r.
Qed.

Lemma Inv_step act s s' : Inv digest s → step act s = Some s' → Inv digest s'.
Proof.
  intros HI Hstep. destruct act; simpl in Hstep.
  - (* AWrite *) destruct (main s) eqn:Hm; try done.
    injection Hstep as <-. by apply Inv_Write.
  - (* AClose *) destruct (main s) eqn:Hm; try done.
    injection Hstep as <-. by apply Inv_Close.
  - (* ASum *) destruct (main s) eqn:Hm; try done.
    injection Hstep as <-. by apply Inv_Close.
  - (* ASend *) destruct (main s) as [|v k| | |] eqn:Hm; try done.
    case_decide; [|done]. injection Hstep as <-.
    destruct HI as [Hc Hr Hs Hw Ho Hd Hsel Hrun].
    unfold inflight in Hrun. rewrite Hm in Hrun.
    split; simpl; try done.
    + rewrite Hm in Hsel. destruct k; simpl; try done. by destruct v.
    + intros Hwk. destruct (Hrun Hwk) as (Hres & xs & Hh & Hfl).
      split; [done|]. exists xs. split; [done|].
      unfold inflight. simpl. rewrite <- Hfl, <- app_assoc.
      by destruct k.
  - (* AWorkerData *)
    destruct (hashWorker s) eqn:Hwk; [|done].
    unfold hashWorker_data in Hstep.
    destruct HI as [Hc Hr Hs Hw Ho Hd Hsel Hrun]. rewrite Hwk in Hw, Ho.
    destruct (Hrun Hwk) as (Hres & xs & Hh & Hfl). unfold inflight in Hfl.
    destruct (dataCh (asw s)) as [|[data|] rest] eqn:Hch; [done| |].
    + (* a chunk *)
      injection Hstep as <-.
      destruct xs as [|x xs]; simpl in Hfl.
      { by destruct (closed (asw s)). }
      injection Hfl as <- Hfl.
      split; simpl; try done.
      intros _. split; [done|]. exists xs. split.
      * rewrite <- Hh. simpl. by rewrite app_assoc.
      * unfold inflight. simpl. done.
    + (* the nil slice *)
      case_decide; [|done]. injection Hstep as <-.
      destruct xs as [|x xs]; simpl in Hfl; [|done].
      destruct (closed (asw s)) eqn:Hcl; [|done].
      simpl in Hh. rewrite app_nil_r in Hh.
      split; simpl; rewrite ?Hcl; try done.
      * rewrite Hres. simpl. intros r ->%list_elem_of_singleton. by rewrite Hh.
      * by rewrite Hw.
  - (* AWorkerDone *)
    destruct (hashWorker s) eqn:Hwk; [|done].
    destruct (doneCh (asw s)) eqn:Hdone; [|done]. injection Hstep as <-.
    destruct HI as [Hc Hr Hs Hw Ho Hd Hsel Hrun]. rewrite Hwk in Hw.
    split; simpl; try done.
    + by rewrite Hw.
    + intros Hcl. rewrite Hd in Hcl; done.
  - (* ARecv *)
    destruct (main s) as [| |dl| |] eqn:Hm; try done.
    destruct (resultCh (asw s)) as [|result rest] eqn:Hres; [done|].
    injection Hstep as <-.
    destruct HI as [Hc Hr Hs Hw Ho Hd Hsel Hrun]. rewrite Hm in Hsel.
    split; simpl; rewrite ?fed_snoc_quiet by done; try done.
    + by rewrite has_close_snoc, orb_false_r.
    + intros r Hin. apply Hr. rewrite Hres. by right.
    + intros r [Hin|Hin]%elem_of_snoc; [by apply Hs|].
      injection Hin as ->. right. apply Hr. rewrite Hres. by left.
    + intros Hcl. by rewrite Hsel in Hcl.
    + intros Hwk. destruct (Hrun Hwk) as [Hres' _]. by rewrite Hres in Hres'.
  - (* ATimeout *)
    destruct (main s) as [| |dl| |] eqn:Hm; try done.
    case_decide; [|done].
    destruct HI as [Hc Hr Hs Hw Ho Hd Hsel Hrun]. rewrite Hm in Hsel.
    unfold inflight in Hrun. rewrite Hm in Hrun.
    destruct (doneCh (asw s)) eqn:Hdone; injection Hstep as <-.
    + by split.
    + by split.
  - (* AWait *)
    destruct (main s) as [| | | |] eqn:Hm; try done.
    case_decide; [|done]. injection Hstep as <-.
    destruct HI as [Hc Hr Hs Hw Ho Hd Hsel Hrun]. rewrite Hm in Hsel.
    unfold inflight in Hrun. rewrite Hm in Hrun.
    split; simpl; rewrite ?fed_snoc_quiet by done; try done.
    + by rewrite has_close_snoc, orb_false_r.
    + intros r [Hin|Hin]%elem_of_snoc; [by apply Hs|].
      injection Hin as ->. by left.
    + intros Hcl. by rewrite Hsel in Hcl.
  - (* ATick *)
    case_decide; [|by destruct (main s)].
    assert (s' = {| asw := asw s; hashWorker := hashWorker s; main := main s;
                    now := (now s + d)%Z; log := log s |}) as ->.
    { destruct (main s); by injection Hstep. }
    destruct HI as [Hc Hr Hs Hw Ho Hd Hsel Hrun]. by split.
Qed.

Lemma run_app tr1 : ∀ s tr2,
  run s (tr1 ++ tr2) = run s tr1 ≫= λ s', run s' tr2.
Proof.
  induction tr1 as [|a tr1 IH]; intros s tr2; simpl; [done|].
  destruct (step a s); simpl; [apply IH|done].
Qed.

Lemma Inv_run tr : ∀ s s', Inv digest s → run s tr = Some s' → Inv digest s'.
Proof.
  induction tr as [|a tr IH]; intros s s' HI; simpl.
  - by intros [= <-].
  - destruct (step a s) as [s1|] eqn:Hs; [|done]. eauto using Inv_step.
Qed.

(** What a step adds to the log. *)
Lemma step_log act s s' :
  step act s = Some s' →
  log s' = log s ∨
  (∃ e, log s' = log s ++ [e] ∧
        ((∃ p n err, act = AWrite p ∧ e = EvWrite p n err) ∨
         (e = EvClose ∧ (act = AClose ∨ act = ASum)) ∨
         (∃ r, e = EvSum r ∧ (act = ARecv ∨ act = AWait)))).
Proof.
  intros Hstep. destruct act; simpl in Hstep.
  - destruct (main s); try done. injection Hstep as <-.
    unfold AsyncSHA256Writer.Write.
    destruct (io_Write _ _) as [w' [n err]].
    right. exists (EvWrite p n err). split; [|left; eauto].
    destruct err; [done|]. by case_match.
  - destruct (main s); try done. injection Hstep as <-.
    unfold AsyncSHA256Writer.Close. case_match; [by left|].
    right. exists EvClose. split; [done|]. right; left; eauto.
  - destruct (main s); try done. injection Hstep as <-.
    unfold AsyncSHA256Writer.Close. case_match; [by left|].
    right. exists EvClose. split; [done|]. right; left; eauto.
  - destruct (main s); try done. case_decide; [|done].
    injection Hstep as <-. by left.
  - destruct (hashWorker s); [|done]. unfold hashWorker_data in Hstep.
    repeat case_match; try done; injection Hstep as <-; by left.
  - destruct (hashWorker s); [|done].
    repeat case_match; try done; injection Hstep as <-; by left.
  - destruct (main s); try done. case_match; [done|].
    injection Hstep as <-. right. eexists. split; [done|]. right; right; eauto.
  - destruct (main s); try done.
    repeat case_match; try done; injection Hstep as <-; by left.
  - destruct (main s); try done. case_decide; [|done].
    injection Hstep as <-. right. eexists. split; [done|]. right; right; eauto.
  - case_decide; [|by destruct (main s)].
    left. destruct (main s); by injection Hstep as <-.
Qed.

(** The flag [closed] moves only in [Close]. *)
Lemma step_closed act s s' :
  step act s = Some s' → act ≠ AClose → act ≠ ASum →
  closed (asw s') = closed (asw s).
Proof.
  intros Hstep H1 H2. destruct act; simpl in Hstep; try done.
  - destruct (main s); try done. injection Hstep as <-.
    unfold AsyncSHA256Writer.Write.
    destruct (io_Write _ _) as [w' [n [e|]]]; [done|]. by case_match.
  - destruct (main s); try done. case_decide; [|done]. by injection Hstep as <-.
  - destruct (hashWorker s); [|done]. unfold hashWorker_data in Hstep.
    repeat case_match; try done; by injection Hstep as <-.
  - destruct (hashWorker s); [|done].
    repeat case_match; try done; by injection Hstep as <-.
  - destruct (main s); try done. case_match; [done|]. by injection Hstep as <-.
  - destruct (main s); try done.
    repeat case_match; try done; by injection Hstep as <-.
  - destruct (main s); try done. case_decide; [|done]. by injection Hstep as <-.
  - case_decide; [|by destruct (main s)].
    destruct (main s); by injection Hstep as <-.
Qed.

Lemma run_quiet tr : ∀ s s',
  (∀ p, AWrite p ∉ tr) → run s tr = Some s' →
  fed (log s') = fed (log s) ∧ written_ok (log s') = written_ok (log s).
Proof.
  induction tr as [|a tr IH]; intros s s' Hnw; simpl.
  - by intros [= <-].
  - destruct (step a s) as [s1|] eqn:Hs; [|done]. intros Hr.
    destruct (IH s1 s') as [-> ->]; [|done|].
    { intros p Hin. apply (Hnw p). by right. }
    destruct (step_log _ _ _ Hs) as [->|(e & -> & He)]; [done|].
    assert (contribution e = []) as Hq.
    { destruct He as [(p & n & err & -> & ->)|[[-> _]|(r & -> & _)]]; try done.
      destruct (Hnw p). by left. }
    by rewrite fed_snoc_quiet, written_ok_snoc, Hq, app_nil_r.
Qed.

Lemma run_open tr : ∀ s s',
  Inv digest s → closed (asw s) = false →
  (∀ a, a ∈ tr → a ≠ AClose ∧ a ≠ ASum) →
  run s tr = Some s' →
  fed (log s) = written_ok (log s) →
  fed (log s') = written_ok (log s') ∧ closed (asw s') = false.
Proof.
  induction tr as [|a tr IH]; intros s s' HI Hcl Hnc; simpl.
  - by intros [= <-].
  - destruct (step a s) as [s1|] eqn:Hs; [|done]. intros Hr Heq.
    destruct (Hnc a) as [Ha1 Ha2]; [by left|].
    apply (IH s1 s'); [by eapply Inv_step| |intros b Hb; apply Hnc; by right|done|].
    + by rewrite (step_closed _ _ _ Hs).
    + destruct (step_log _ _ _ Hs) as [->|(e & -> & He)]; [done|].
      rewrite fed_snoc, written_ok_snoc, <- (inv_closed _ _ HI), Hcl.
      by rewrite Heq.
Qed.

Lemma calls_split tr ps :
  calls tr = (AWrite <$> ps) ++ [ASum] →
  ∃ tr1 tr2, tr = tr1 ++ ASum :: tr2 ∧
    (∀ a, a ∈ tr1 → a ≠ AClose ∧ a ≠ ASum) ∧ (∀ p, AWrite p ∉ tr2).
Proof.
  intros Hc. unfold calls in Hc.
  destruct (last_filter_Some is_call tr ASum) as (tr1 & tr2 & -> & Hno).
  { rewrite Hc. apply last_snoc. }
  exists tr1, tr2. split; [done|].
  rewrite filter_app, filter_cons_True in Hc by done.
  assert (filter is_call tr2 = []) as Hnil.
  { clear Hc. induction Hno as [|x l Hx Hl IH]; [done|].
    by rewrite filter_cons_False. }
  rewrite Hnil in Hc. apply app_inj_tail in Hc as [Hc _].
  split.
  - intros a Ha.
    assert (is_call a → a ∈ filter is_call tr1) as Hin
      by (intros; by apply list_elem_of_filter).
    rewrite Hc in Hin.
    split; intros ->; apply list_elem_of_fmap in Hin as (q & Hq & _); done.
  - intros p Hp. rewrite Forall_forall in Hno. by apply (Hno (AWrite p)).
Qed.


(** With the calls [Write p1; ...; Write pk; Sum()], every write that
    counts was made before the stage closed. *)
Lemma fed_written_ok f tr ps s :
  run (NewAsyncSHA256Writer f) tr = Some s →
  calls tr = (AWrite <$> ps) ++ [ASum] →
  fed (log s) = written_ok (log s).
Proof.
  intros Hrun (tr1 & tr2 & -> & H1 & H2)%calls_split.
  rewrite run_app in Hrun.
  destruct (run (NewAsyncSHA256Writer f) tr1) as [s1|] eqn:Hr1; [|done].
  simpl in Hrun.
  destruct (run_open tr1 _ s1 (Inv_init f) eq_refl H1 Hr1 eq_refl) as [Heq _].
  destruct (run_quiet (ASum :: tr2) s1 s) as [-> ->]; [|done..].
  intros p [Hp|Hp]%elem_of_cons; [done|]. by apply (H2 p).
Qed.

Lemma quiescent_Write s p :
  quiescent s →
  ∃ tr s', run s tr = Some s' ∧ calls tr = [AWrite p] ∧ quiescent s'.
Proof.
  intros (Hm & Hw & Hd & Hr & Hc).
  destruct (main (AsyncSHA256Writer.Write s p)) eqn:Hm'.
  - exists [AWrite p], (AsyncSHA256Writer.Write s p). simpl. rewrite Hm.
    split_and!; try done; revert Hm'; unfold AsyncSHA256Writer.Write;
      destruct (io_Write _ _) as [w' [n [e|]]]; simpl; try done;
      rewrite Hc; simpl; by case_bool_decide.
  - exists [AWrite p; ASend; AWorkerData]. simpl. rewrite Hm.
    revert Hm'; unfold AsyncSHA256Writer.Write;
      destruct (io_Write _ _) as [w' [n [e|]]]; simpl; try done.
    rewrite Hc; simpl. case_bool_decide; simpl; [|done]. intros _.
    rewrite decide_True by (rewrite Hd; unfold dataCh_cap; simpl; lia).
    simpl. rewrite Hw. unfold hashWorker_data. simpl. rewrite Hd. simpl.
    eexists. split; [done|]. by split.
  - revert Hm'. unfold AsyncSHA256Writer.Write.
    destruct (io_Write _ _) as [w' [n [e|]]]; simpl; try done. by case_match.
  - revert Hm'. unfold AsyncSHA256Writer.Write.
    destruct (io_Write _ _) as [w' [n [e|]]]; simpl; try done. by case_match.
  - revert Hm'. unfold AsyncSHA256Writer.Write.
    destruct (io_Write _ _) as [w' [n [e|]]]; simpl; try done. by case_match.
Qed.

Lemma quiescent_Writes ps : ∀ s,
  quiescent s →
  ∃ tr s', run s tr = Some s' ∧ calls tr = AWrite <$> ps ∧ quiescent s'.
Proof.
  induction ps as [|p ps IH]; intros s Hq.
  - by exists [], s.
  - destruct (quiescent_Write s p Hq) as (tr1 & s1 & Hr1 & Hc1 & Hq1).
    destruct (IH s1 Hq1) as (tr2 & s2 & Hr2 & Hc2 & Hq2).
    exists (tr1 ++ tr2), s2. rewrite run_app, Hr1. simpl.
    split_and!; [done| |done]. unfold calls in *.
    by rewrite filter_app, Hc1, Hc2.
Qed.

(** The digest can always be delivered: some schedule of the calls
    [Write p1; ...; Write pk; Sum()] ends with [Sum] returning the digest
    of the bytes written. *)
Lemma digest_delivered (fs : list (option (nat * error))) (ps : list (list byte)) :
  ∃ tr s,
    run (NewAsyncSHA256Writer (newFile fs)) tr = Some s ∧
    calls tr = (AWrite <$> ps) ++ [ASum] ∧
    last (log s) = Some (EvSum (digest (written_ok (log s)))).
Proof.
  destruct (quiescent_Writes ps (NewAsyncSHA256Writer (newFile fs)))
    as (tr1 & s1 & Hr1 & Hc1 & (Hm & Hw & Hd & Hr & Hc)); [done|].
  exists (tr1 ++ [ASum; ASend; AWorkerData; ARecv]).
  assert (∃ s3 r, run s1 [ASum; ASend; AWorkerData] = Some s3 ∧
                  main s3 = Selecting (now s1 + sum_timeout) ∧
                  resultCh (asw s3) = [r]) as (s3 & r & Hr3 & Hm3 & Hres3).
  { simpl. rewrite Hm. unfold AsyncSHA256Writer.Close. rewrite Hc. simpl.
    rewrite decide_True by (rewrite Hd; unfold dataCh_cap; simpl; lia).
    simpl. rewrite Hw. unfold hashWorker_data. simpl. rewrite Hd, Hr. simpl.
    eauto. }
  assert (run (NewAsyncSHA256Writer (newFile fs)) (tr1 ++ [ASum; ASend; AWorkerData])
          = Some s3) as Hrun3 by (by rewrite run_app, Hr1).
  pose proof (Inv_run _ _ _ (Inv_init (newFile fs)) Hrun3) as HI3.
  assert (r = digest (fed (log s3))) as ->.
  { apply (inv_result _ _ HI3). rewrite Hres3. by left. }
  assert (fed (log s3) = written_ok (log s3)) as Hfw.
  { apply (fed_written_ok (newFile fs) _ ps _ Hrun3).
    unfold calls in *. by rewrite filter_app, Hc1. }
  eexists. split_and!.
  - replace (tr1 ++ [ASum; ASend; AWorkerData; ARecv])
      with ((tr1 ++ [ASum; ASend; AWorkerData]) ++ [ARecv])
      by (by rewrite <- app_assoc).
    rewrite run_app, Hrun3. simpl. rewrite Hm3, Hres3. done.
  - unfold calls in *. by rewrite filter_app, Hc1.
  - simpl. rewrite last_snoc, written_ok_snoc. simpl.
    by rewrite app_nil_r, Hfw.
Qed.



End AsyncSHA256WriterFacts.

(** ** The destination check *)

Lemma append_cons (x : ascii) (a b : string) : String x a +:+ b = String x (a +:+ b).
Proof. reflexivity. Qed.

Lemma append_assoc (a b c : string) : (a +:+ b) +:+ c = a +:+ (b +:+ c).
Proof.
  induction a as [|x a IH]; [done|]. rewrite !append_cons. by f_equal.
Qed.

Lemma HasPrefix_spec s p : HasPrefix s p = true ↔ ∃ rest, s = p +:+ rest.
Proof.
  revert s. induction p as [|c p IH]; intros s; simpl.
  - split; [by exists s|done].
  - destruct s as [|d s].
    + split; [done|]. by intros [rest Hr].
    + rewrite andb_true_iff, bool_decide_eq_true, IH. split.
      * intros [-> [rest ->]]. by exists rest.
      * intros [rest Hr]. rewrite append_cons in Hr. injection Hr as -> ->. eauto.
Qed.

Lemma HasPrefix_app_l s p q : HasPrefix s (p +:+ q) = true → HasPrefix s p = true.
Proof.
  rewrite !HasPrefix_spec. intros [rest ->]. exists (q +:+ rest).
  apply append_assoc.
Qed.

Lemma inside_HasPrefix fp p dir : inside fp p dir ↔ HasPrefix p (dir_prefix fp dir) = true.
Proof. unfold inside. by rewrite HasPrefix_spec. Qed.

Lemma inside_plain fp p dir : inside fp p dir → HasPrefix p dir = true.
Proof.
  rewrite inside_HasPrefix. unfold dir_prefix. case_match; [done|].
  apply HasPrefix_app_l.
Qed.

Lemma inside_digest fp env p dir :
  inside fp p dir → HasPrefix p (Digest.add_separator fp env dir) = true.
Proof.
  intros Hin. unfold Digest.add_separator.
  destruct (os_Stat env dir) as [i|]; [|by eapply inside_plain].
  destruct (IsDir i && negb (HasSuffix dir (PathSeparator fp))) eqn:Hd;
    [|by eapply inside_plain].
  apply andb_true_iff in Hd as [_ Hs%negb_true_iff].
  apply inside_HasPrefix in Hin. unfold dir_prefix in Hin. by rewrite Hs in Hin.
Qed.

Lemma Plain_checkDest_hit fp destFile absDest sources source absSource :
  source ∈ sources → Abs fp source = inl absSource →
  HasPrefix absDest absSource = true →
  ∃ f, Plain.checkDest fp destFile absDest sources = Some f ∧
       is_config_error f = true.
Proof.
  intros Hin Ha Hp. induction sources as [|x xs IH]; [by apply elem_of_nil in Hin|].
  simpl. destruct (Abs fp x) as [a|e] eqn:Hx; [|eauto].
  destruct (HasPrefix absDest a) eqn:Hpa; [eauto|].
  apply elem_of_cons in Hin as [->|Hin]; [|by apply IH].
  rewrite Ha in Hx. injection Hx as <-. by rewrite Hp in Hpa.
Qed.

Lemma Digest_checkDest_hit fp env destFile absDest sources source absSource :
  source ∈ sources → Abs fp source = inl absSource →
  HasPrefix absDest (Digest.add_separator fp env absSource) = true →
  ∃ f, Digest.checkDest fp env destFile absDest sources = Some f ∧
       is_config_error f = true.
Proof.
  intros Hin Ha Hp. induction sources as [|x xs IH]; [by apply elem_of_nil in Hin|].
  simpl. destruct (Abs fp x) as [a|e] eqn:Hx; [|eauto].
  destruct (HasPrefix absDest (Digest.add_separator fp env a)) eqn:Hpa; [eauto|].
  apply elem_of_cons in Hin as [->|Hin]; [|by apply IH].
  rewrite Ha in Hx. injection Hx as <-. by rewrite Hp in Hpa.
Qed.

(** C7. A destination inside a source.  When the absolute destination
    path lies inside the absolute path of one of the sources, [main] (in
    either variant) ends in a fatal configuration error, with an empty
    trace: the destination file has not been created, nothing has been
    written. *)
Theorem destination_inside_source_is_fatal (fp : Filepath) (env : Env)
    (sources destLines : list string) (destFile absDest source absSource sum : string) :
  src_txt env = inl sources →
  dst_txt env = inl (destFile :: destLines) →
  Abs fp destFile = inl absDest →
  source ∈ sources →
  Abs fp source = inl absSource →
  inside fp absDest absSource →
  (∃ f, Plain.main fp env = (world0 env, Fatal f) ∧ is_config_error f = true) ∧
  (∃ f, Digest.main fp env sum = (world0 env, Fatal f) ∧ is_config_error f = true) ∧
  trace (world0 env) = [].
Proof.
  intros Hs Hd Ha Hin Hsa Hins.
  assert (sources ≠ []) as Hne by (intros ->; by apply elem_of_nil in Hin).
  split_and!; [| |done].
  - destruct (Plain_checkDest_hit fp destFile absDest sources source absSource)
      as (f & Hf & Hc); [done..|by eapply inside_plain|].
    exists f. unfold Plain.main. rewrite Hs, Hd, Ha, Hf.
    by destruct sources.
  - destruct (Digest_checkDest_hit fp env destFile absDest sources source absSource)
      as (f & Hf & Hc); [done..|by eapply inside_digest|].
    exists f. unfold Digest.main. rewrite Hs, Hd, Ha, Hf.
    by destruct sources.
Qed.

Lemma destination_inside_source_is_fatal_witness :
  let env := {| src_txt := inl ["/src"]; dst_txt := inl ["/src/out/a.zip"];
                os_Stat := λ _, inl {| IsDir := true; Size := 0 |};
                walk := λ _, []; create_err := None; zip_script := [];
                noSha256 := false; writeFile_err := None |} in
  inside Lite.unix "/src/out/a.zip" "/src" ∧
  (∃ f, Plain.main Lite.unix env = (world0 env, Fatal f) ∧ is_config_error f = true) ∧
  (∃ f, Digest.main Lite.unix env "" = (world0 env, Fatal f) ∧ is_config_error f = true) ∧
  trace (world0 env) = [].
Proof.
  intros env.
  assert (inside Lite.unix "/src/out/a.zip" "/src") as Hin
    by (exists "out/a.zip"; reflexivity).
  split; [exact Hin|].
  apply (destination_inside_source_is_fatal Lite.unix env ["/src"] []
           "/src/out/a.zip" "/src/out/a.zip" "/src" "/src" "");
    [reflexivity|reflexivity|reflexivity|by left|reflexivity|exact Hin].
Defined.

Lemma Plain_checkDest_spec fp destFile absDest sources :
  Forall (λ s, ∃ a, Abs fp s = inl a) sources →
  (∀ f, Plain.checkDest fp destFile absDest sources = Some f →
        ∃ source, f = FatalDestInSource destFile source) ∧
  (is_Some (Plain.checkDest fp destFile absDest sources) ↔
   ∃ source a, source ∈ sources ∧ Abs fp source = inl a ∧
               HasPrefix absDest a = true).
Proof.
  induction 1 as [|x xs [a Ha] Hxs [IH1 IH2]]; simpl.
  - split; [done|]. split; [by intros [? ?]|].
    intros (s & a & Hin & _). by apply elem_of_nil in Hin.
  - rewrite Ha. destruct (HasPrefix absDest a) eqn:Hp.
    + split; [intros f [= <-]; eauto|]. split; [|done].
      intros _. exists x, a. split_and!; [by left|done..].
    + split; [done|]. rewrite IH2. split.
      * intros (s & b & Hin & Hb & Hpb). exists s, b. split_and!; [by right|done..].
      * intros (s & b & [->|Hin]%elem_of_cons & Hb & Hpb); [|eauto].
        rewrite Ha in Hb. injection Hb as <-. by rewrite Hp in Hpb.
Qed.

Lemma Digest_checkDest_spec fp env destFile absDest sources :
  Forall (λ s, ∃ a, Abs fp s = inl a) sources →
  (∀ f, Digest.checkDest fp env destFile absDest sources = Some f →
        ∃ source, f = FatalDestInSource destFile source) ∧
  (is_Some (Digest.checkDest fp env destFile absDest sources) ↔
   ∃ source a, source ∈ sources ∧ Abs fp source = inl a ∧
               HasPrefix absDest (Digest.add_separator fp env a) = true).
Proof.
  induction 1 as [|x xs [a Ha] Hxs [IH1 IH2]]; simpl.
  - split; [done|]. split; [by intros [? ?]|].
    intros (s & a & Hin & _). by apply elem_of_nil in Hin.
  - rewrite Ha. destruct (HasPrefix absDest (Digest.add_separator fp env a)) eqn:Hp.
    + split; [intros f [= <-]; eauto|]. split; [|done].
      intros _. exists x, a. split_and!; [by left|done..].
    + split; [done|]. rewrite IH2. split.
      * intros (s & b & Hin & Hb & Hpb). exists s, b. split_and!; [by right|done..].
      * intros (s & b & [->|Hin]%elem_of_cons & Hb & Hpb); [|eauto].
        rewrite Ha in Hb. injection Hb as <-. by rewrite Hp in Hpb.
Qed.

(** C10. What the destination check tests.  With the absolute paths of
    the sources at hand, the check stops the program, with the
    destination-inside-source error, exactly when the absolute
    destination has the absolute path of some source as a string prefix;
    in the SHA-256 variant a source that [os.Stat] shows as a directory
    is given a trailing separator first.  So the plain variant rejects
    source [/data] with destination [/database/out.zip], which is not
    inside it; the SHA-256 variant rejects them too unless [/data] is
    seen to be a directory. *)
Theorem destination_check_is_string_prefix (fp : Filepath) (env : Env)
    (destFile absDest : string) (sources : list string) :
  Forall (λ s, ∃ a, Abs fp s = inl a) sources →
  ((∀ f, Plain.checkDest fp destFile absDest sources = Some f →
         ∃ source, f = FatalDestInSource destFile source) ∧
   (is_Some (Plain.checkDest fp destFile absDest sources) ↔
    ∃ source a, source ∈ sources ∧ Abs fp source = inl a ∧
                HasPrefix absDest a = true)) ∧
  ((∀ f, Digest.checkDest fp env destFile absDest sources = Some f →
         ∃ source, f = FatalDestInSource destFile source) ∧
   (is_Some (Digest.checkDest fp env destFile absDest sources) ↔
    ∃ source a, source ∈ sources ∧ Abs fp source = inl a ∧
                HasPrefix absDest (Digest.add_separator fp env a) = true)) ∧
  (let e (stat : FileInfo + error) :=
     {| src_txt := inl ["/data"]; dst_txt := inl ["/database/out.zip"];
        os_Stat := λ _, stat; walk := λ _, []; create_err := None;
        zip_script := []; noSha256 := false; writeFile_err := None |} in
   let fatal := Fatal (FatalDestInSource "/database/out.zip" "/data") in
   ¬ inside Lite.unix "/database/out.zip" "/data" ∧
   (∀ stat, Plain.main Lite.unix (e stat) = (world0 (e stat), fatal)) ∧
   (∀ sum, Digest.main Lite.unix (e (inr (Err "ENOENT"))) sum
           = (world0 (e (inr (Err "ENOENT"))), fatal)) ∧
   (∀ sum, (Digest.main Lite.unix (e (inl {| IsDir := true; Size := 0 |})) sum).2
           = Returned)).
Proof.
  intros Habs.
  split; [by apply Plain_checkDest_spec|].
  split; [by apply Digest_checkDest_spec|].
  intros e fatal. split_and!.
  - intros Hin%inside_HasPrefix. by vm_compute in Hin.
  - intros stat. reflexivity.
  - intros sum. reflexivity.
  - intros sum. reflexivity.
Qed.

Lemma destination_check_is_string_prefix_witness :
  let env := {| src_txt := inl ["/data"; "/home/u"]; dst_txt := inl ["/home/user.zip"];
                os_Stat := λ _, inl {| IsDir := true; Size := 0 |};
                walk := λ _, []; create_err := None; zip_script := [];
                noSha256 := false; writeFile_err := None |} in
  Forall (λ s, ∃ a, Abs Lite.unix s = inl a) ["/data"; "/home/u"] ∧
  is_Some (Plain.checkDest Lite.unix "/home/user.zip" "/home/user.zip" ["/data"; "/home/u"]) ∧
  ¬ is_Some (Digest.checkDest Lite.unix env "/home/user.zip" "/home/user.zip"
               ["/data"; "/home/u"]).
Proof.
  intros env.
  assert (Forall (λ s, ∃ a, Abs Lite.unix s = inl a) ["/data"; "/home/u"]) as Habs
    by (repeat constructor; eexists; reflexivity).
  destruct (destination_check_is_string_prefix Lite.unix env
              "/home/user.zip" "/home/user.zip" ["/data"; "/home/u"] Habs)
    as ([_ Hp] & [_ Hd] & _).
  split_and!; [exact Habs| |].
  - apply Hp. exists "/home/u", "/home/u". split_and!; [|reflexivity..].
    right. by left.
  - rewrite Hd. intros (s & a & Hin & Ha & Hpre).
    apply elem_of_cons in Hin as [->|Hin].
    + injection Ha as <-. by vm_compute in Hpre.
    + apply list_elem_of_singleton in Hin as ->.
      injection Ha as <-. by vm_compute in Hpre.
Defined.

(** ** The walk: rules for [wp] *)

Section WpRules.
Context {A B : Type}.
Implicit Types (w : world).

Lemma wp_bind (m : M A) (k : A → M B) (Q : world → B + option error → Prop) w :
  wp (m ≫= k) Q w
  = wp m (λ w' r, match r with
                  | inl a => wp (k a) Q w'
                  | inr e => Q w' (inr e)
                  end) w.
Proof.
  unfold wp, mbind, M_bind. by destruct (m w) as [w1 [a|e]].
Qed.

Lemma wp_mret (a : A) (Q : world → A + option error → Prop) w :
  wp (mret a) Q w = Q w (inl a).
Proof. reflexivity. Qed.

Lemma wp_return_ (r : option error) (Q : world → A + option error → Prop) w :
  wp (return_ r) Q w = Q w (inr r).
Proof. reflexivity. Qed.

Lemma wp_mono (m : M A) (Q Q' : world → A + option error → Prop) w :
  (∀ w' r, Q w' r → Q' w' r) → wp m Q w → wp m Q' w.
Proof. unfold wp. eauto. Qed.
End WpRules.

Lemma wp_volume_created d (Q : world → bool + option error → Prop) w :
  wp (Digest.volume_created d) Q w
  = Q w (inl (default false (createdVolumes w !! d))).
Proof. reflexivity. Qed.

Lemma wp_mark_volume d (Q : world → () + option error → Prop) w :
  wp (Digest.mark_volume d) Q w = Q (Digest.set_created w d) (inl ()).
Proof. reflexivity. Qed.

Lemma wp_emit e (Q : world → () + option error → Prop) w :
  wp (emit e) Q w = Q (add_event w e) (inl ()).
Proof. reflexivity. Qed.

Lemma wp_WaitIfPaused (Q : world → () + option error → Prop) w :
  wp WaitIfPaused Q w = Q (add_event w EvWaitIfPaused) (inl ()).
Proof. reflexivity. Qed.

Lemma wp_log_Printf m (Q : world → () + option error → Prop) w :
  wp (log_Printf m) Q w = Q (add_event w (EvLog m)) (inl ()).
Proof. reflexivity. Qed.

Lemma wp_CreateHeader k h (Q : world → option error + option error → Prop) w :
  wp (CreateHeader k h) Q w
  = Q (add_event (pop w) (EvCreateHeader k h (next w))) (inl (next w)).
Proof. reflexivity. Qed.

Lemma wp_entry_Write d (Q : world → option error + option error → Prop) w :
  wp (entry_Write d) Q w
  = Q (add_event (pop w) (EvWrite d (next w))) (inl (next w)).
Proof. reflexivity. Qed.

Ltac wp_step :=
  first [ rewrite wp_bind | rewrite wp_emit | rewrite wp_WaitIfPaused
        | rewrite wp_log_Printf | rewrite wp_CreateHeader | rewrite wp_entry_Write
        | rewrite wp_volume_created | rewrite wp_mark_volume
        | rewrite wp_mret | rewrite wp_return_ ].

Lemma clean_app l1 l2 : clean (l1 ++ l2) ↔ clean l1 ∧ clean l2.
Proof. apply Forall_app. Qed.

Lemma fail_fast_clean tr r : clean tr → fail_fast tr r.
Proof.
  induction 1 as [|ev tr Hev Htr IH]; simpl; [done|]. by rewrite Hev.
Qed.

Lemma fail_fast_app tr suf r : clean tr → fail_fast suf r → fail_fast (tr ++ suf) r.
Proof.
  induction 1 as [|ev tr Hev Htr IH]; simpl; [done|]. rewrite Hev. auto.
Qed.

Lemma fail_fast_None tr : fail_fast tr None → clean tr.
Proof.
  induction tr as [|ev tr IH]; simpl; [constructor|].
  destruct (copy_error ev) eqn:He.
  - intros [[_ ?]|[(? & _ & ?)|(? & ? & _ & ?)]]; done.
  - intros H. constructor; [done|by apply IH].
Qed.

Ltac norm_trace :=
  cbn [trace add_event pop Digest.set_created createdVolumes];
  rewrite <- ?app_assoc; cbn [app].

Lemma Plain_copyLoop_fail_fast path rs : ∀ w,
  clean (trace w) →
  wp (Plain.copyLoop path rs) (λ w' r, fail_fast (trace w') (res_err r)) w.
Proof.
  induction rs as [|[chunk err] rs IH]; intros w Hw; simpl.
  - repeat wp_step. norm_trace. apply fail_fast_clean.
    apply clean_app. split; [done|]. by repeat constructor.
  - repeat wp_step.
    destruct err as [[|m]|]; case_decide; repeat wp_step;
      try (destruct (next _) as [e2|] eqn:Hn; repeat wp_step);
      try (apply IH); norm_trace;
      try (apply fail_fast_app; [done|]); simpl; eauto 6.
    all: try (apply clean_app; split; [done|]; by repeat constructor).
Qed.

Ltac solve_clean :=
  norm_trace;
  first [ assumption
        | apply clean_app; split; [assumption|]; by repeat constructor ].

Lemma Plain_walkFn_fail_fast fp basePath baseDir it w :
  clean (trace w) →
  wp (Plain.walkFn fp basePath baseDir it)
     (λ w' r, fail_fast (trace w') (res_err r)) w.
Proof.
  intros Hw. unfold Plain.walkFn. repeat wp_step.
  destruct (walk_err it); repeat wp_step; [apply fail_fast_clean; solve_clean|].
  destruct (header_err it); repeat wp_step; [apply fail_fast_clean; solve_clean|].
  destruct (Rel fp baseDir (path it)); repeat wp_step;
    [|apply fail_fast_clean; solve_clean].
  destruct (next _); repeat wp_step; [apply fail_fast_clean; solve_clean|].
  destruct (negb (IsDir (info it))); repeat wp_step;
    [|apply fail_fast_clean; solve_clean].
  destruct (open_err it); repeat wp_step; [apply fail_fast_clean; solve_clean|].
  apply Plain_copyLoop_fail_fast. solve_clean.
Qed.

Lemma Walk_fail_fast fn items :
  (∀ it w, clean (trace w) →
           wp (fn it) (λ w' r, fail_fast (trace w') (res_err r)) w) →
  ∀ w, clean (trace w) →
       fail_fast (trace (Walk fn items w).1) (Walk fn items w).2.
Proof.
  intros Hfn. induction items as [|it items IH]; intros w Hw; simpl.
  - by apply fail_fast_clean.
  - specialize (Hfn it w Hw). unfold wp in Hfn.
    destruct (fn it w) as [w' [[]|[e|]]]; simpl in *; [|done|];
      apply IH; by apply fail_fast_None.
Qed.

Lemma Plain_scan_trace env sources : ∀ w,
  trace (Plain.scan env sources w).1 = trace w.
Proof.
  assert (∀ items w, trace (Walk Plain.scanFn items w).1 = trace w) as Hwalk.
  { induction items as [|it items IH]; intros w; simpl; [done|].
    unfold Plain.scanFn at 1. destruct (walk_err it); simpl; [done|apply IH]. }
  induction sources as [|x xs IH]; intros w; simpl; [done|].
  specialize (Hwalk (walk env x) w).
  destruct (Walk Plain.scanFn (walk env x) w) as [w' [e|]]; simpl in *; [done|].
  by rewrite IH.
Qed.

Lemma Plain_addAll_fail_fast fp env sources : ∀ w,
  clean (trace w) →
  fail_fast (trace (Plain.addAll fp env sources w).1)
            (addFiles_error (from_option Fatal Returned (Plain.addAll fp env sources w).2)).
Proof.
  induction sources as [|x xs IH]; intros w Hw; simpl.
  - by apply fail_fast_clean.
  - unfold Plain.addFiles.
    destruct (os_Stat env x) as [i|e]; simpl; [|by apply fail_fast_clean].
    pose proof (Walk_fail_fast _ (walk env x)
      (Plain_walkFn_fail_fast fp x (if IsDir i then x else Dir fp x)) w Hw) as Hff.
    destruct (Walk _ _ w) as [w' [e|]]; simpl in *; [done|].
    apply IH. by apply fail_fast_None.
Qed.

Lemma Plain_main_fail_fast fp env :
  fail_fast (trace (Plain.main fp env).1) (addFiles_error (Plain.main fp env).2).
Proof.
  unfold Plain.main.
  destruct (src_txt env) as [[|s ss]|]; try done.
  destruct (dst_txt env) as [[|d ds]|]; try done.
  destruct (Abs fp d); try done.
  destruct (Plain.checkDest _ _ _ _); try done.
  pose proof (Plain_scan_trace env (s :: ss) (world0 env)) as Hscan.
  destruct (Plain.scan env (s :: ss) (world0 env)) as [w1 [f|]]; simpl in Hscan.
  { simpl. rewrite Hscan. done. }
  destruct (create_err env); [simpl; by rewrite Hscan|].
  pose proof (Plain_addAll_fail_fast fp env (s :: ss)
                (Plain.emit_all [EvCreate d] w1)) as Hff.
  destruct (Plain.addAll fp env (s :: ss) _) as [w2 [f|]]; simpl in *.
  - apply Hff. rewrite Hscan. by repeat constructor.
  - apply fail_fast_clean. rewrite <- app_assoc. apply clean_app. split.
    + apply fail_fast_None, Hff. rewrite Hscan. by repeat constructor.
    + by repeat constructor.
Qed.

Lemma fail_fast_split tr r : ∀ l ev l2,
  fail_fast tr r → tr = l ++ ev :: l2 → is_Some (copy_error ev) →
  (∀ p, EvVisit p ∉ l2) ∧ is_Some r ∧ length l2 ≤ 1.
Proof.
  intros l. revert tr. induction l as [|x l IH]; intros tr ev l2 Hff -> [e He]; simpl in Hff.
  - rewrite He in Hff.
    destruct Hff as [[-> ->]|[(d & -> & ->)|(d & e2 & -> & ->)]];
      (split_and!; [|done|simpl; lia]); intros p Hp; set_solver.
  - destruct (copy_error x) as [ex|] eqn:Hx; [|by eapply IH].
    destruct Hff as [[Hl _]|[(d & Hl & _)|(d & e2 & Hl & ->)]].
    + by destruct l.
    + destruct l as [|? [|]]; try done. injection Hl as -> ->. done.
    + destruct l as [|? [|]]; try done. injection Hl as -> ->.
      split_and!; [|done|simpl; lia]. intros p Hp. set_solver.
Qed.

Lemma Digest_copyLoop_nil path rs : ∀ w,
  wp (Digest.copyLoop path rs) (λ _ r, res_err r = None) w.
Proof.
  induction rs as [|[chunk err] rs IH]; intros w; simpl.
  - by repeat wp_step.
  - repeat wp_step.
    destruct err as [[|m]|]; case_decide; repeat wp_step;
      try (destruct (next _) as [e2|] eqn:Hn; repeat wp_step);
      try (apply IH); done.
Qed.

Lemma next_add_event w e : next (add_event w e) = next w.
Proof. reflexivity. Qed.
Lemma next_set_created w d : next (Digest.set_created w d) = next w.
Proof. reflexivity. Qed.
Lemma pop_add_event w e : pop (add_event w e) = add_event (pop w) e.
Proof. reflexivity. Qed.
Lemma pop_set_created w d : pop (Digest.set_created w d) = Digest.set_created (pop w) d.
Proof. reflexivity. Qed.

Ltac norm_next :=
  repeat first [ rewrite next_add_event | rewrite next_set_created
               | rewrite pop_add_event | rewrite pop_set_created ].

Ltac wp_steps := repeat wp_step; norm_next.

(** The case analysis of the walk function of the SHA-256 variant, down
    to the copy loop. *)
Ltac digest_walk_cases w :=
  unfold Digest.walkFn; wp_steps;
  destruct (walk_err _) eqn:Hwalk; wp_steps; [|
  destruct (header_err _) eqn:Hhdr; wp_steps; [|
  destruct (Abs _ (path _)) as [absPath|] eqn:Habs; wp_steps; [
  destruct (negb (bool_decide (Digest.driveLetter _ _ = ""))
            && negb (default false (createdVolumes _ !! _))) eqn:Hvol;
    wp_steps;
    [ destruct (next w) eqn:Hnextv; wp_steps |];
    (destruct (bool_decide (Digest.zipPath _ _ = "")
               || bool_decide (Digest.zipPath _ _ = "."))
       eqn:Hskip; wp_steps; [|
     match goal with
     | |- context [next ?x] => destruct (next x) eqn:Hnext
     end; wp_steps; [|
     destruct (negb (IsDir (info _))) eqn:Hdir; wp_steps; [
     destruct (open_err _) eqn:Hopen; wp_steps |]]]) |]]].

Lemma Digest_walkFn_nil fp it w :
  wp (Digest.walkFn fp it) (λ _ r, res_err r = None) w.
Proof.
  digest_walk_cases w; try done; apply Digest_copyLoop_nil.
Qed.

Lemma Digest_Walk_nil fp items : ∀ w, (Walk (Digest.walkFn fp) items w).2 = None.
Proof.
  induction items as [|it items IH]; intros w; simpl; [done|].
  pose proof (Digest_walkFn_nil fp it w) as Hnil. unfold wp in Hnil.
  destruct (Digest.walkFn fp it w) as [w' [[]|[e|]]]; simpl in *; done.
Qed.

Lemma Digest_addAll_nil fp env sources : ∀ w, (Digest.addAll fp env sources w).2 = None.
Proof.
  induction sources as [|x xs IH]; intros w; simpl; [done|].
  unfold Digest.addFiles.
  pose proof (Digest_Walk_nil fp (walk env x) w) as Hnil.
  destruct (Walk _ _ w) as [w' [e|]]; simpl in *; [done|apply IH].
Qed.

Lemma Digest_main_exit fp env sum source e :
  (Digest.main fp env sum).2 ≠ Fatal (FatalAddFiles source e).
Proof.
  unfold Digest.main.
  destruct (src_txt env) as [[|s ss]|]; try done.
  destruct (dst_txt env) as [[|d ds]|]; try done.
  destruct (Abs fp d) as [absDest|]; try done.
  destruct (Digest.checkDest _ _ _ _ _) as [f|] eqn:Hf.
  { simpl. intros [= ->].
    assert (∀ srcs, Digest.checkDest fp env d absDest srcs
                    ≠ Some (FatalAddFiles source e)) as Hno.
    { induction srcs as [|x xs IH]; simpl; [done|]. by repeat case_match. }
    by destruct (Hno (s :: ss)). }
  destruct (create_err env); [done|].
  pose proof (Digest_addAll_nil fp env (s :: ss)
    (Plain.emit_all [EvCreate d] (Digest.scan env (s :: ss) (world0 env)))) as Hn.
  destruct (Digest.addAll fp env (s :: ss) _) as [w2 [f|]]; simpl in *; done.
Qed.

(** ** Names, headers and volume roots *)

Lemma emitted_wp {A} (m : M A) (P : list event → Prop) w :
  wp m (λ w' _, ∃ evs, trace w' = trace w ++ evs ∧ P evs) w → P (emitted m w).
Proof.
  unfold wp, emitted. intros (evs & -> & HP). by rewrite drop_app_length.
Qed.

Ltac solve_emitted :=
  eexists; split; [norm_trace; reflexivity|].

Lemma Digest_skip fp it w :
  (∀ absPath, Abs fp (path it) = inl absPath →
     Digest.zipPath fp absPath = "" ∨ Digest.zipPath fp absPath = ".") →
  skips_own_entry (emitted (Digest.walkFn fp it) w) ∧
  ((∀ absPath, Abs fp (path it) = inl absPath → Digest.driveLetter fp absPath = "") →
   skips_entry (emitted (Digest.walkFn fp it) w)).
Proof.
  intros Hz. split; [|intros Hd]; apply emitted_wp.
  - digest_walk_cases w.
    all: try (exfalso; apply orb_false_iff in Hskip as [H1 H2];
              apply bool_decide_eq_false in H1, H2; by destruct (Hz _ eq_refl)).
    all: solve_emitted; by repeat constructor.
  - digest_walk_cases w.
    all: try (exfalso; apply orb_false_iff in Hskip as [H1 H2];
              apply bool_decide_eq_false in H1, H2; by destruct (Hz _ eq_refl)).
    all: try (exfalso; rewrite (Hd _ eq_refl) in Hvol; done).
    all: solve_emitted; by repeat constructor.
Qed.

Lemma Plain_root_header fp basePath baseDir it w rel :
  walk_err it = None → header_err it = None → IsDir (info it) = true →
  Rel fp baseDir (path it) = inl rel →
  EvCreateHeader HEntry {| Name := ToSlash fp rel +:+ "/"; Method := zip_Store |} (next w)
    ∈ emitted (Plain.walkFn fp basePath baseDir it) w.
Proof.
  intros Hw Hh Hd Hr.
  apply (emitted_wp _ (λ evs, _ ∈ evs)).
  unfold Plain.walkFn, Plain.rootFile. rewrite Hw, Hh, Hr, Hd. simpl.
  wp_steps. destruct (next w); wp_steps; solve_emitted; set_solver.
Qed.

Lemma quiet_step_refl w : quiet_step w w.
Proof. exists []. by rewrite app_nil_r. Qed.

Lemma quiet_step_trans w1 w2 w3 : quiet_step w1 w2 → quiet_step w2 w3 → quiet_step w1 w3.
Proof.
  intros (e1 & H1 & F1 & C1) (e2 & H2 & F2 & C2). exists (e1 ++ e2).
  split_and!; [by rewrite H2, H1, app_assoc|by apply Forall_app|congruence].
Qed.

Ltac solve_quiet :=
  eexists; split_and!; [norm_trace; reflexivity|by repeat constructor|done].

Lemma Digest_copyLoop_quiet path rs : ∀ w,
  wp (Digest.copyLoop path rs) (λ w' _, quiet_step w w') w.
Proof.
  induction rs as [|[chunk err] rs IH]; intros w; simpl.
  - wp_steps. solve_quiet.
  - wp_steps.
    destruct err as [[|m]|]; case_decide; wp_steps;
      try (destruct (next w) as [e2|] eqn:Hn; wp_steps);
      try (eapply wp_mono; [|apply IH]; cbv beta; intros w' _ Hq;
           eapply quiet_step_trans; [|exact Hq]);
      solve_quiet.
Qed.

Lemma Plain_copyLoop_quiet path rs : ∀ w,
  wp (Plain.copyLoop path rs) (λ w' _, quiet_step w w') w.
Proof.
  induction rs as [|[chunk err] rs IH]; intros w; simpl.
  - wp_steps. solve_quiet.
  - wp_steps.
    destruct err as [[|m]|]; case_decide; wp_steps;
      try (destruct (next w) as [e2|] eqn:Hn; wp_steps);
      try (eapply wp_mono; [|apply IH]; cbv beta; intros w' _ Hq;
           eapply quiet_step_trans; [|exact Hq]);
      solve_quiet.
Qed.

Lemma volume_headers_app l1 l2 :
  volume_headers (l1 ++ l2) = volume_headers l1 ++ volume_headers l2.
Proof. apply omap_app. Qed.

Lemma roots_app fp l1 l2 : roots fp (l1 ++ l2) = roots fp l1 ++ roots fp l2.
Proof. apply omap_app. Qed.

Lemma volume_headers_copy evs : Forall is_copy_event evs → volume_headers evs = [].
Proof. induction 1 as [|[] ? ? ? IH]; simpl in *; done. Qed.

Lemma append_inj_r (a b c : string) : a +:+ c = b +:+ c → a = b.
Proof.
  intros H.
  assert (∀ s, String.length (s +:+ c) = String.length s + String.length c) as Hlen.
  { induction s as [|x s IH]; [done|]. rewrite append_cons. simpl. by rewrite IH. }
  revert b H. induction a as [|x a IH]; intros [|y b] H.
  - done.
  - apply (f_equal String.length) in H. rewrite !Hlen in H. simpl in H. lia.
  - apply (f_equal String.length) in H. rewrite !Hlen in H. simpl in H. lia.
  - rewrite !append_cons in H. injection H as -> H. f_equal. by apply IH.
Qed.

(** Extending a world without a volume header. *)
Lemma vol_inv_quiet fp w w' suf :
  vol_inv fp w → trace w' = trace w ++ suf → volume_headers suf = [] →
  (∀ d, created w d = true → created w' d = true) →
  vol_inv fp w'.
Proof.
  intros [Hnd Hn] Htr Hvh Hcr. unfold vol_inv.
  rewrite Htr, volume_headers_app, Hvh, app_nil_r. split; [done|].
  intros n Hin. destruct (Hn n Hin) as (d & -> & Hc & Hr).
  exists d. split_and!; [done|by apply Hcr|]. rewrite roots_app. set_solver.
Qed.

(** Extending a world with the header of a volume not yet marked. *)
Lemma vol_inv_new fp w w' suf d :
  vol_inv fp w → trace w' = trace w ++ suf → volume_headers suf = [d +:+ "/"] →
  created w d = false → d ∈ roots fp suf →
  createdVolumes w' = <[d:=true]> (createdVolumes w) →
  vol_inv fp w'.
Proof.
  intros [Hnd Hn] Htr Hvh Hnew Hroot Hcv. unfold vol_inv.
  rewrite Htr, volume_headers_app, Hvh.
  assert (∀ d', created w d' = true → created w' d' = true) as Hmono.
  { intros d' Hd'. unfold created in *. rewrite Hcv.
    destruct (decide (d = d')) as [->|Hne]; [by rewrite lookup_insert_eq|].
    by rewrite lookup_insert_ne. }
  split.
  - apply NoDup_app. split_and!; [done| |apply NoDup_singleton].
    intros n Hin ->%list_elem_of_singleton.
    destruct (Hn _ Hin) as (d' & Heq & Hc & _).
    apply append_inj_r in Heq as ->. by rewrite Hnew in Hc.
  - intros n [Hin| ->%list_elem_of_singleton]%elem_of_app.
    + destruct (Hn n Hin) as (d' & -> & Hc & Hr).
      exists d'. split_and!; [done|by apply Hmono|]. rewrite roots_app. set_solver.
    + exists d. split_and!; [done| |rewrite roots_app; set_solver].
      unfold created. by rewrite Hcv, lookup_insert_eq.
Qed.

Lemma vol_inv_quiet_step fp w w' : vol_inv fp w → quiet_step w w' → vol_inv fp w'.
Proof.
  intros HI (evs & Htr & Hev & Hcv).
  eapply vol_inv_quiet; [done..|by apply volume_headers_copy|].
  intros d. unfold created. by rewrite Hcv.
Qed.

Lemma root_visited fp p absPath rest :
  Abs fp p = inl absPath → Digest.driveLetter fp absPath ≠ "" →
  Digest.driveLetter fp absPath ∈ roots fp (EvVisit p :: rest).
Proof.
  intros Ha Hd. unfold roots. cbn [omap list_omap]. rewrite Ha. cbv zeta.
  rewrite bool_decide_eq_false_2 by done. by left.
Qed.

Lemma Digest_walkFn_vol_inv fp it w :
  vol_inv fp w → wp (Digest.walkFn fp it) (λ w' _, vol_inv fp w') w.
Proof.
  intros HI. digest_walk_cases w.
  all: try (eapply wp_mono; [|apply Digest_copyLoop_quiet]; cbv beta;
            intros w' _ Hq; eapply vol_inv_quiet_step; [|exact Hq]).
  all: try (apply andb_true_iff in Hvol as [Hd%negb_true_iff Hc%negb_true_iff];
            apply bool_decide_eq_false in Hd;
            eapply (vol_inv_new fp w _ _ (Digest.driveLetter fp absPath));
              [exact HI|norm_trace; reflexivity|reflexivity|exact Hc
              |by eapply root_visited|reflexivity]).
  all: eapply vol_inv_quiet; [exact HI|norm_trace; reflexivity|reflexivity|done].
Qed.

Lemma Walk_inv (I : world → Prop) fn items :
  (∀ it w, I w → wp (fn it) (λ w' _, I w') w) →
  ∀ w, I w → I (Walk fn items w).1.
Proof.
  intros Hfn. induction items as [|it items IH]; intros w Hw; simpl; [done|].
  specialize (Hfn it w Hw). unfold wp in Hfn.
  destruct (fn it w) as [w' [[]|[e|]]]; simpl in *; auto.
Qed.

Lemma Digest_addAll_vol_inv fp env sources : ∀ w,
  vol_inv fp w → vol_inv fp (Digest.addAll fp env sources w).1.
Proof.
  induction sources as [|x xs IH]; intros w Hw; simpl; [done|].
  unfold Digest.addFiles.
  pose proof (Walk_inv (vol_inv fp) _ (walk env x) (Digest_walkFn_vol_inv fp) w Hw) as H.
  destruct (Walk _ _ w) as [w' [e|]]; simpl in *; auto.
Qed.

Lemma emit_all_vol_inv fp evs w :
  vol_inv fp w → volume_headers evs = [] → vol_inv fp (Plain.emit_all evs w).
Proof. intros HI Hv. by eapply vol_inv_quiet. Qed.

Lemma Digest_scan_vol_inv fp env sources : ∀ w,
  vol_inv fp w → vol_inv fp (Digest.scan env sources w).
Proof.
  assert (∀ it w, vol_inv fp w → wp (Digest.scanFn it) (λ w' _, vol_inv fp w') w) as Hfn.
  { intros it w HI. unfold Digest.scanFn. destruct (walk_err it); wp_steps; [|done].
    eapply vol_inv_quiet; [exact HI|norm_trace; reflexivity|reflexivity|done]. }
  induction sources as [|x xs IH]; intros w Hw; simpl; [done|].
  pose proof (Walk_inv (vol_inv fp) _ (walk env x) Hfn w Hw) as H.
  destruct (Walk _ _ w) as [w' [e|]]; simpl in *; apply IH; [|done].
  by apply emit_all_vol_inv.
Qed.

Lemma Digest_main_vol_inv fp env sum : vol_inv fp (Digest.main fp env sum).1.
Proof.
  assert (vol_inv fp (world0 env)) as H0.
  { split; [constructor|]. intros n Hn. by apply elem_of_nil in Hn. }
  unfold Digest.main.
  destruct (src_txt env) as [[|s ss]|]; try done.
  destruct (dst_txt env) as [[|d ds]|]; try done.
  destruct (Abs fp d) as [absDest|]; try done.
  destruct (Digest.checkDest _ _ _ _ _); try done.
  pose proof (Digest_scan_vol_inv fp env (s :: ss) _ H0) as H1.
  destruct (create_err env); [done|].
  pose proof (Digest_addAll_vol_inv fp env (s :: ss) _
                (emit_all_vol_inv fp [EvCreate d] _ H1 eq_refl)) as H2.
  destruct (Digest.addAll fp env (s :: ss) _) as [w2 [f|]]; simpl in *; [done|].
  repeat apply emit_all_vol_inv; try done.
  unfold Digest.report. by repeat case_match.
Qed.

Lemma vol_step_quiet w W w' vh cv :
  vol_step w W vh cv → quiet_step W w' → vol_step w w' vh cv.
Proof.
  intros (e1 & H1 & V1 & C1) (e2 & H2 & F2 & C2). exists (e1 ++ e2).
  split_and!; [by rewrite H2, H1, app_assoc| |congruence].
  by rewrite volume_headers_app, V1, (volume_headers_copy e2), app_nil_r.
Qed.

Lemma Digest_walkFn_vol_step fp it w absPath :
  walk_err it = None → header_err it = None → Abs fp (path it) = inl absPath →
  Digest.driveLetter fp absPath ≠ "" →
  let d := Digest.driveLetter fp absPath in
  wp (Digest.walkFn fp it)
     (λ w' _, vol_step w w'
                (if created w d then [] else [d +:+ "/"])
                (if created w d then createdVolumes w
                 else <[d:=true]> (createdVolumes w))) w.
Proof.
  intros Hw Hh Ha Hd d. unfold Digest.walkFn. rewrite Hw, Hh, Ha. wp_steps.
  fold d. rewrite (bool_decide_eq_false_2 (d = "")) by done.
  change (default false (createdVolumes
            (add_event (add_event w (EvVisit (path it))) EvWaitIfPaused) !! d))
    with (created w d).
  destruct (created w d) eqn:Hc; cbn [negb andb]; wp_steps.
  - destruct (bool_decide _ || bool_decide _); wp_steps;
      [|destruct (next w); wp_steps;
        [|destruct (negb (IsDir (info it))); wp_steps;
          [destruct (open_err it); wp_steps|]]].
    all: try (eapply wp_mono; [|apply Digest_copyLoop_quiet]; cbv beta;
              intros w' _ Hq; eapply vol_step_quiet; [|exact Hq]).
    all: eexists; split_and!; [norm_trace; reflexivity|reflexivity|reflexivity].
  - destruct (next w); wp_steps;
      (destruct (bool_decide _ || bool_decide _); wp_steps;
        [|destruct (next (pop w)); wp_steps;
          [|destruct (negb (IsDir (info it))); wp_steps;
            [destruct (open_err it); wp_steps|]]]).
    all: try (eapply wp_mono; [|apply Digest_copyLoop_quiet]; cbv beta;
              intros w' _ Hq; eapply vol_step_quiet; [|exact Hq]).
    all: eexists; split_and!; [norm_trace; reflexivity|reflexivity|reflexivity].
Qed.

Lemma Digest_first_encounter fp it w absPath :
  walk_err it = None → header_err it = None → Abs fp (path it) = inl absPath →
  Digest.driveLetter fp absPath ≠ "" →
  let d := Digest.driveLetter fp absPath in
  volume_headers (emitted (Digest.walkFn fp it) w)
    = (if created w d then [] else [d +:+ "/"]) ∧
  created (Digest.walkFn fp it w).1 d = true.
Proof.
  intros Hw Hh Ha Hd d.
  pose proof (Digest_walkFn_vol_step fp it w absPath Hw Hh Ha Hd) as H.
  unfold wp in H. fold d in H. destruct H as (evs & Htr & Hvh & Hcv).
  unfold emitted. rewrite Htr, drop_app_length. split; [done|].
  unfold created in *. rewrite Hcv.
  destruct (default false (createdVolumes w !! d)) eqn:Hc; [done|].
  by rewrite lookup_insert_eq.
Qed.

(** The plain variant never tries a volume header. *)
Lemma Plain_walkFn_no_volume fp basePath baseDir it w :
  wp (Plain.walkFn fp basePath baseDir it)
     (λ w' _, volume_headers (trace w') = volume_headers (trace w)) w.
Proof.
  assert (∀ W w', quiet_step W w' → volume_headers (trace W) = volume_headers (trace w) →
                  volume_headers (trace w') = volume_headers (trace w)) as Hq.
  { intros W w' (evs & -> & Hev & _) <-.
    by rewrite volume_headers_app, (volume_headers_copy evs), app_nil_r. }
  unfold Plain.walkFn. wp_steps.
  destruct (walk_err it); wp_steps;
    [|destruct (header_err it); wp_steps;
      [|destruct (Rel fp baseDir (path it)); wp_steps;
        [destruct (next w); wp_steps;
          [|destruct (negb (IsDir (info it))); wp_steps;
            [destruct (open_err it); wp_steps|]]|]]].
  all: try (eapply wp_mono; [|apply Plain_copyLoop_quiet]; cbv beta;
            intros w' _ Hq'; eapply Hq; [exact Hq'|]).
  all: norm_trace; rewrite volume_headers_app; simpl; by rewrite app_nil_r.
Qed.

Lemma Plain_main_no_volume fp env : volume_headers (trace (Plain.main fp env).1) = [].
Proof.
  assert (∀ sources w, volume_headers (trace (Plain.addAll fp env sources w).1)
                       = volume_headers (trace w)) as Hall.
  { induction sources as [|x xs IH]; intros w; simpl; [done|].
    unfold Plain.addFiles. destruct (os_Stat env x) as [i|]; [|done].
    pose proof (Walk_inv (λ w', volume_headers (trace w') = volume_headers (trace w))
                  (Plain.walkFn fp x (if IsDir i then x else Dir fp x)) (walk env x)) as H.
    specialize (H (λ it w0 H0, wp_mono _ _ _ _ (λ w' _ Hw', eq_trans Hw' H0)
                                 (Plain_walkFn_no_volume fp _ _ it w0)) w eq_refl).
    destruct (Walk _ _ w) as [w' [e|]]; simpl in *; [done|]. by rewrite IH. }
  unfold Plain.main.
  destruct (src_txt env) as [[|s ss]|]; try done.
  destruct (dst_txt env) as [[|d ds]|]; try done.
  destruct (Abs fp d); try done.
  destruct (Plain.checkDest _ _ _ _); try done.
  pose proof (Plain_scan_trace env (s :: ss) (world0 env)) as Hscan.
  destruct (Plain.scan env (s :: ss) (world0 env)) as [w1 [f|]]; simpl in Hscan.
  { simpl. by rewrite Hscan. }
  destruct (create_err env); [simpl; by rewrite Hscan|].
  specialize (Hall (s :: ss) (Plain.emit_all [EvCreate d] w1)).
  destruct (Plain.addAll fp env (s :: ss) _) as [w2 [f|]]; simpl in *.
  - rewrite Hall, volume_headers_app, Hscan. done.
  - rewrite <- app_assoc, volume_headers_app, Hall, volume_headers_app, Hscan. done.
Qed.


(** C8. Skipped names.  In the SHA-256 variant a path whose archive name
    comes out empty or as "." gets no header of its own and no payload;
    when it has no drive letter either, which is the only way
    [filepath.Join] gives such a name, its call of the walk function
    writes nothing at all.  The plain variant has no such check: a
    directory, the traversal root included, always gets the header of
    its relative name followed by "/". *)
Theorem skip_policy (fp : Filepath) (it : WalkItem) (w : world)
    (basePath baseDir rel : string) :
  ((∀ absPath, Abs fp (path it) = inl absPath →
      Digest.zipPath fp absPath = "" ∨ Digest.zipPath fp absPath = ".") →
   skips_own_entry (emitted (Digest.walkFn fp it) w) ∧
   ((∀ absPath, Abs fp (path it) = inl absPath → Digest.driveLetter fp absPath = "") →
    skips_entry (emitted (Digest.walkFn fp it) w))) ∧
  (walk_err it = None → header_err it = None → IsDir (info it) = true →
   Rel fp baseDir (path it) = inl rel →
   EvCreateHeader HEntry {| Name := ToSlash fp rel +:+ "/"; Method := zip_Store |} (next w)
     ∈ emitted (Plain.walkFn fp basePath baseDir it) w).
Proof.
  split; [apply Digest_skip|apply Plain_root_header].
Qed.

Lemma skip_policy_witness :
  let w := world0 Examples.one_file in
  (∀ absPath, Abs Lite.unix "/" = inl absPath →
     Digest.zipPath Lite.unix absPath = "" ∨ Digest.zipPath Lite.unix absPath = ".") ∧
  (∀ absPath, Abs Lite.unix "/" = inl absPath → Digest.driveLetter Lite.unix absPath = "") ∧
  skips_entry (emitted (Digest.walkFn Lite.unix (Examples.dir "/")) w) ∧
  EvCreateHeader HEntry {| Name := "./"; Method := zip_Store |} None
    ∈ emitted (Plain.walkFn Lite.unix "/src" "/src" (Examples.dir "/src")) w.
Proof.
  intros w.
  assert (∀ absPath, Abs Lite.unix "/" = inl absPath →
     Digest.zipPath Lite.unix absPath = "" ∨ Digest.zipPath Lite.unix absPath = ".")
    as Hz by (intros ? [= <-]; by left).
  assert (∀ absPath, Abs Lite.unix "/" = inl absPath →
     Digest.driveLetter Lite.unix absPath = "") as Hd by (by intros ? [= <-]).
  destruct (skip_policy Lite.unix (Examples.dir "/") w "/" "/" ".") as [Hs _].
  destruct (skip_policy Lite.unix (Examples.dir "/src") w "/src" "/src" ".") as [_ Hp].
  split_and!; [exact Hz|exact Hd|by apply Hs|by apply Hp].
Defined.

Lemma skip_policy_counterexample :
  ¬ Plain_skips_root Lite.unix "/src" "/src" (Examples.dir "/src")
      (world0 Examples.one_file).
Proof.
  intros H. specialize (H "." eq_refl (or_intror eq_refl)).
  unfold skips_entry in H. rewrite Forall_forall in H.
  apply (H (EvCreateHeader HEntry {| Name := "./"; Method := zip_Store |} None)).
  vm_compute. repeat constructor.
Qed.

(** ** Pausing

    Every [file.Read] of either variant comes right after a
    [WaitIfPaused], so a producer that finds the flag set at a gate stays
    there; what it may still do after the flag is set is what separates it
    from its next gate. *)

(** A well-gated trace stays so when events that are no reads follow. *)
Lemma gated_after_block b T suf :
  gated_after b T → (∀ b', gated_after b' suf) → gated_after b (T ++ suf).
Proof.
  revert b. induction T as [|e T IH]; intros b; simpl; [auto|].
  intros [He HT] Hs. split; auto.
Qed.

(** Closes the goal that the events added by a step keep the trace gated. *)
Ltac solve_gated :=
  norm_trace; apply gated_after_block; [assumption|];
  intros ?; cbn [gated_after is_read is_gate]; by repeat split.

Lemma Plain_copyLoop_gated path rs : ∀ w,
  gated (trace w) → wp (Plain.copyLoop path rs) (λ w' _, gated (trace w')) w.
Proof.
  unfold gated.
  induction rs as [|[chunk err] rs IH]; intros w Hw; simpl.
  - wp_steps. solve_gated.
  - wp_steps.
    destruct err as [[|m]|]; case_decide; wp_steps;
      try (destruct (next w) as [e2|] eqn:Hn; wp_steps);
      try apply IH; solve_gated.
Qed.

Lemma Digest_copyLoop_gated path rs : ∀ w,
  gated (trace w) → wp (Digest.copyLoop path rs) (λ w' _, gated (trace w')) w.
Proof.
  unfold gated.
  induction rs as [|[chunk err] rs IH]; intros w Hw; simpl.
  - wp_steps. solve_gated.
  - wp_steps.
    destruct err as [[|m]|]; case_decide; wp_steps;
      try (destruct (next w) as [e2|] eqn:Hn; wp_steps);
      try apply IH; solve_gated.
Qed.

Lemma Plain_walkFn_gated fp basePath baseDir it w :
  gated (trace w) →
  wp (Plain.walkFn fp basePath baseDir it) (λ w' _, gated (trace w')) w.
Proof.
  intros Hw. unfold Plain.walkFn. wp_steps.
  destruct (walk_err it); wp_steps;
    [|destruct (header_err it); wp_steps;
      [|destruct (Rel fp baseDir (path it)); wp_steps;
        [destruct (next w); wp_steps;
          [|destruct (negb (IsDir (info it))); wp_steps;
            [destruct (open_err it); wp_steps|]]|]]].
  all: try apply Plain_copyLoop_gated.
  all: unfold gated in *; solve_gated.
Qed.

Lemma Digest_walkFn_gated fp it w :
  gated (trace w) → wp (Digest.walkFn fp it) (λ w' _, gated (trace w')) w.
Proof.
  intros HI. digest_walk_cases w.
  all: try apply Digest_copyLoop_gated.
  all: unfold gated in *; solve_gated.
Qed.

Lemma emit_all_gated evs w :
  gated (trace w) → (∀ b, gated_after b evs) → gated (trace (Plain.emit_all evs w)).
Proof. intros Hw He. by apply gated_after_block. Qed.

Lemma Plain_main_gated fp env : gated (trace (Plain.main fp env).1).
Proof.
  assert (∀ sources w, gated (trace w) → gated (trace (Plain.addAll fp env sources w).1))
    as Hall.
  { induction sources as [|x xs IH]; intros w Hw; simpl; [done|].
    unfold Plain.addFiles. destruct (os_Stat env x) as [i|]; [|done].
    pose proof (Walk_inv (λ w, gated (trace w)) _ (walk env x)
                  (Plain_walkFn_gated fp x (if IsDir i then x else Dir fp x)) w Hw) as H.
    destruct (Walk _ _ w) as [w' [e|]]; simpl in *; auto. }
  unfold Plain.main.
  destruct (src_txt env) as [[|s ss]|]; try done.
  destruct (dst_txt env) as [[|d ds]|]; try done.
  destruct (Abs fp d); try done.
  destruct (Plain.checkDest _ _ _ _); try done.
  pose proof (Plain_scan_trace env (s :: ss) (world0 env)) as Hscan.
  destruct (Plain.scan env (s :: ss) (world0 env)) as [w1 [f|]]; simpl in Hscan.
  { simpl. by rewrite Hscan. }
  destruct (create_err env); [simpl; by rewrite Hscan|].
  assert (gated (trace (Plain.emit_all [EvCreate d] w1))) as H1.
  { apply emit_all_gated; [by rewrite Hscan|]. intros b. by repeat split. }
  specialize (Hall (s :: ss) _ H1).
  destruct (Plain.addAll fp env (s :: ss) _) as [w2 [f|]]; simpl in *; [done|].
  rewrite <- app_assoc. apply gated_after_block; [done|].
  intros b. by repeat split.
Qed.

Lemma Digest_main_gated fp env sum : gated (trace (Digest.main fp env sum).1).
Proof.
  assert (∀ sources w, gated (trace w) → gated (trace (Digest.addAll fp env sources w).1))
    as Hall.
  { induction sources as [|x xs IH]; intros w Hw; simpl; [done|].
    unfold Digest.addFiles.
    pose proof (Walk_inv (λ w, gated (trace w)) _ (walk env x)
                  (Digest_walkFn_gated fp) w Hw) as H.
    destruct (Walk _ _ w) as [w' [e|]]; simpl in *; auto. }
  assert (∀ sources w, gated (trace w) → gated (trace (Digest.scan env sources w)))
    as Hscan.
  { assert (∀ it w, gated (trace w) →
                    wp (Digest.scanFn it) (λ w' _, gated (trace w')) w) as Hfn.
    { intros it w HI. unfold Digest.scanFn. destruct (walk_err it); wp_steps; [|done].
      unfold gated in *. solve_gated. }
    induction sources as [|x xs IH]; intros w Hw; simpl; [done|].
    pose proof (Walk_inv (λ w, gated (trace w)) _ (walk env x) Hfn w Hw) as H.
    destruct (Walk _ _ w) as [w' [e|]]; simpl in *; apply IH; [|done].
    apply emit_all_gated; [done|]. intros b. by repeat split. }
  unfold Digest.main.
  destruct (src_txt env) as [[|s ss]|]; try done.
  destruct (dst_txt env) as [[|d ds]|]; try done.
  destruct (Abs fp d) as [absDest|]; try done.
  destruct (Digest.checkDest _ _ _ _ _); try done.
  pose proof (Hscan (s :: ss) (world0 env) I) as H1.
  destruct (create_err env); [done|].
  assert (gated (trace (Plain.emit_all [EvCreate d]
                          (Digest.scan env (s :: ss) (world0 env))))) as H2.
  { apply emit_all_gated; [done|]. intros b. by repeat split. }
  specialize (Hall (s :: ss) _ H2).
  destruct (Digest.addAll fp env (s :: ss) _) as [w2 [f|]]; simpl in *; [done|].
  unfold gated in *.
  repeat (apply gated_after_block; [|intros b; unfold Digest.report;
                                     repeat case_match; by repeat split]).
  done.
Qed.

(** The interleavings of the keyboard goroutine with the producer. *)
Section PausingFacts.
Import Pausing.

Lemma paused_blocks s rest :
  todo s = EvWaitIfPaused :: rest →
  PauseController.IsPaused (pc s) = true →
  step Produce s = None.
Proof.
  intros Ht Hp. unfold step. rewrite Ht.
  unfold PauseController.WaitIfPaused_returns, PauseController.IsPaused in *.
  by rewrite Hp.
Qed.

(** While the flag is set and nobody toggles it, the producer passes no
    gate. *)
Lemma run_paused acts : ∀ s1 s2,
  PauseController.IsPaused (pc s1) = true →
  Toggle ∉ acts →
  run s1 acts = Some s2 →
  pc s2 = pc s1 ∧
  ∃ evs, done s2 = done s1 ++ evs ∧ todo s1 = evs ++ todo s2 ∧
         Forall (λ e, is_gate e = false) evs.
Proof.
  induction acts as [|a acts IH]; intros s1 s2 Hp Hnt; simpl.
  - intros [= <-]. split; [done|]. exists []. by rewrite app_nil_r.
  - destruct a; [set_solver|].
    unfold step. destruct (todo s1) as [|e rest] eqn:Ht; [done|].
    destruct (bool_decide (e = EvWaitIfPaused)
              && negb (PauseController.WaitIfPaused_returns (pc s1))) eqn:Hb; [done|].
    intros Hr. apply IH in Hr as (Hpc & evs & Hd & Htd & Hg); [|done|set_solver].
    simpl in *. split; [done|]. exists (e :: evs).
    split_and!; [by rewrite Hd, <- app_assoc|by rewrite Htd|].
    constructor; [|done].
    unfold PauseController.WaitIfPaused_returns, PauseController.IsPaused in *.
    rewrite Hp in Hb. simpl in Hb. rewrite andb_true_r in Hb.
    apply bool_decide_eq_false in Hb. by destruct e.
Qed.

(** What is done and what is left make up the trace. *)
Lemma run_conserves acts : ∀ s s',
  run s acts = Some s' → done s' ++ todo s' = done s ++ todo s.
Proof.
  induction acts as [|a acts IH]; intros s s'; simpl.
  - by intros [= <-].
  - destruct a; simpl.
    + intros Hr. by apply IH in Hr.
    + destruct (todo s) as [|e rest] eqn:Ht; [done|].
      destruct (bool_decide (e = EvWaitIfPaused) && _); [done|].
      intros Hr. apply IH in Hr. simpl in Hr.
      by rewrite Hr, <- app_assoc.
Qed.

Lemma gated_after_app b l1 l2 :
  gated_after b (l1 ++ l2) → ∃ b', gated_after b' l2.
Proof.
  revert b. induction l1 as [|e l1 IH]; intros b; simpl; [eauto|].
  intros [_ H]. eauto.
Qed.

Lemma gated_no_reads l post :
  gated_after false (l ++ post) → Forall (λ e, is_gate e = false) l →
  filter is_read l = [].
Proof.
  induction l as [|e l IH]; simpl; [done|].
  intros [He Hl] Hg. inversion Hg as [|?? Hge Hgl]; subst.
  rewrite Hge in Hl. rewrite filter_cons_False; [by apply IH|].
  intros Hr. by apply He.
Qed.

(** A stretch of a gated trace without a gate holds at most one read, its
    first event. *)
Lemma gated_segment b pre evs post :
  gated_after b (pre ++ evs ++ post) → Forall (λ e, is_gate e = false) evs →
  length (filter is_read evs) ≤ 1.
Proof.
  intros [b' Hg]%gated_after_app Hng. destruct evs as [|e evs]; [simpl; lia|].
  simpl in Hg. destruct Hg as [_ Hg].
  inversion Hng as [|?? Hge Hgl]; subst. rewrite Hge in Hg.
  pose proof (gated_no_reads _ _ Hg Hgl) as Hnil.
  rewrite filter_cons, Hnil. case_decide; simpl; lia.
Qed.

Lemma gated_pause_bound tr : gated tr → pause_bound tr.
Proof.
  intros Hg acts1 s1 acts2 s2 Hr1 Hp Hnt Hr2.
  destruct (run_paused acts2 s1 s2 Hp Hnt Hr2) as (Hpc & evs & Hd & Htd & Hng).
  split; [done|]. exists evs. split_and!; [done..|].
  apply run_conserves in Hr1. simpl in Hr1. rewrite Htd in Hr1.
  unfold gated in Hg. rewrite <- Hr1 in Hg. by eapply gated_segment.
Qed.
End PausingFacts.

(** ** BufferedWriter: coalescing, errors and the zero capacity *)

Section BufferedWriterMore.
Import BufferedWriter.

Implicit Types (bw : BufferedWriter.t File) (p : list byte).

Lemma Write_loop_done fuel bw p n src :
  Write_loop fuel bw p n 0 src = Some (bw, (n, None)).
Proof. by destruct fuel. Qed.

(** A successful pass through the loop never leaves an empty buffer
    behind when it had bytes to take in. *)
Lemma Write_loop_keeps fuel : ∀ bw p n rem src bw' k,
  Write_loop fuel bw p n rem src = Some (bw', (k, None)) →
  0 < rem ∨ 0 < offset bw → 0 < offset bw'.
Proof.
  induction fuel as [|fuel IH]; intros bw p n rem src bw' k.
  - simpl. case_decide; [done|]. intros [= <- <-]. lia.
  - rewrite Write_loop_S. case_decide as Hrem; [|intros [= <- <-]; lia].
    cbv zeta. intros Hw _.
    destruct (if decide (length (buffer bw) - offset bw = 0) then _ else _)
      as [[b e]|[b av]] eqn:Hfl; [done|].
    eapply IH; [exact Hw|]. simpl. case_decide; lia.
Qed.

(** The loop on its way to an error: the count returned is how far it
    got in [p], and everything it took before was handed on. *)
Lemma Write_loop_err fuel : ∀ bw p n rem src bw' k e,
  wf bw → src + rem = length p → n = length p →
  Write_loop fuel bw p n rem src = Some (bw', (k, Some e)) →
  src ≤ k < length p ∧ offset bw' = 0 ∧ length (buffer bw') = length (buffer bw) ∧
  ∃ new, received (writer bw') = received (writer bw) ++ new ∧
         concat new = pending bw ++ slice p src k.
Proof.
  induction fuel as [|fuel IH]; intros bw p n rem src bw' k e Hwf Hsrc Hn.
  - simpl. by case_decide.
  - rewrite Write_loop_S. case_decide as Hrem; [|done]. cbv zeta.
    destruct (Flush_spec bw Hwf) as (b & err & Hfl & Hb & Ho & Hz & Hnz & _).
    unfold wf in Hwf.
    case_decide as Hav.
    + rewrite Hfl. destruct err as [e'|].
      * intros [= <- <- <-]. split; [lia|]. split_and!; [done|by rewrite Hb|].
        destruct (decide (offset bw = 0)) as [H0|H0].
        { by destruct (Hz H0). }
        exists [pending bw]. split; [apply Hnz; lia|].
        simpl. unfold slice. replace (n - rem - src) with 0 by lia.
        by rewrite take_0, !app_nil_r.
      * set (cs := if decide (length (buffer b) < rem) then length (buffer b) else rem).
        assert (cs ≤ rem ∧ cs ≤ length (buffer b)) as [Hcr Hcb]
          by (unfold cs; case_decide; lia).
        intros Hw.
        destruct (fill_spec (writer b) (buffer b) (offset b) p src cs)
          as [Hlen Htake]; [lia..|].
        apply IH in Hw as (Hk & Ho' & Hlen' & new & Hrec & Hc);
          [|unfold wf; simpl in *; lia|lia|done].
        simpl in *. split; [lia|]. split_and!; [done|rewrite <- Hb; lia|].
        assert (∃ new1, received (writer b) = received (writer bw) ++ new1 ∧
                        concat new1 = pending bw) as (new1 & Hrec1 & Hc1).
        { destruct (decide (offset bw = 0)) as [H0|H0].
          - destruct (Hz H0) as [-> _]. exists []. rewrite app_nil_r.
            split; [done|]. unfold pending. by rewrite H0.
          - exists [pending bw]. split; [apply Hnz; lia|]. simpl. by rewrite app_nil_r. }
        exists (new1 ++ new). split; [by rewrite Hrec, Hrec1, app_assoc|].
        rewrite concat_app, Hc, Hc1. unfold pending at 2. simpl.
        rewrite Htake, Ho. simpl. f_equal. unfold slice.
        replace (k - src) with (cs + (k - (src + cs))) by lia.
        by rewrite <- take_take_drop, drop_drop.
    + set (cs := if decide (length (buffer bw) - offset bw < rem)
                 then length (buffer bw) - offset bw else rem).
      assert (cs ≤ rem ∧ offset bw + cs ≤ length (buffer bw)) as [Hcr Hcb]
        by (unfold cs; case_decide; lia).
      intros Hw.
      destruct (fill_spec (writer bw) (buffer bw) (offset bw) p src cs)
        as [Hlen Htake]; [lia..|].
      apply IH in Hw as (Hk & Ho' & Hlen' & new & Hrec & Hc);
        [|unfold wf; simpl in *; lia|lia|done].
      simpl in *. split; [lia|]. split_and!; [done|lia|].
      exists new. split; [done|]. rewrite Hc. unfold pending at 1. simpl.
      rewrite Htake. unfold pending. rewrite <- app_assoc. f_equal. unfold slice.
      replace (k - src) with (cs + (k - (src + cs))) by lia.
      by rewrite <- take_take_drop, drop_drop.
Qed.

Lemma length_concat_uniform {A} (c : nat) (ls : list (list A)) :
  Forall (λ s, length s = c) ls → length (concat ls) = length ls * c.
Proof.
  induction 1 as [|s ls Hs _ IH]; simpl; [done|]. rewrite length_app, IH. lia.
Qed.
End BufferedWriterMore.

(** X1. Coalescing.  A [Write] that fits into what is left of the buffer
    returns [(len(p), nil)] without a call to the underlying writer: the
    bytes are appended to the pending data and nothing else changes. *)
Theorem BufferedWriter_Write_within_capacity (bw : BufferedWriter.t File)
    (p : list byte) :
  BufferedWriter.offset bw + length p ≤ length (BufferedWriter.buffer bw) →
  ∃ bw', BufferedWriter.Write bw p = Some (bw', (length p, None)) ∧
    BufferedWriter.writer bw' = BufferedWriter.writer bw ∧
    length (BufferedWriter.buffer bw') = length (BufferedWriter.buffer bw) ∧
    BufferedWriter.pending bw' = BufferedWriter.pending bw ++ p.
Proof.
  intros Hfit. unfold BufferedWriter.Write.
  destruct p as [|x p].
  { exists bw. simpl. by rewrite app_nil_r. }
  remember (x :: p) as q eqn:Hq.
  assert (0 < length q) as Hlen0 by (subst q; simpl; lia).
  destruct (length q) as [|m] eqn:Hm; [lia|]. rewrite Write_loop_S.
  case_decide; [|lia]. cbv zeta.
  case_decide; [lia|]. case_decide; [lia|].
  rewrite Nat.sub_diag, Write_loop_done. eexists. split; [done|]. simpl.
  rewrite <- Hm in *.
  destruct (fill_spec (BufferedWriter.writer bw) (BufferedWriter.buffer bw)
              (BufferedWriter.offset bw) q 0 (length q))
    as [Hlen Htake]; [lia..|].
  change (0 + length q) with (length q) in *.
  split_and!; [done|exact Hlen|].
  unfold BufferedWriter.pending at 1.
  cbn [BufferedWriter.buffer BufferedWriter.offset].
  by rewrite Htake, drop_0, firstn_all.
Qed.

Lemma BufferedWriter_Write_within_capacity_witness :
  ∃ bw', BufferedWriter.Write
           (BufferedWriter.NewBufferedWriter (newFile [Some (0, Err "EIO")]) 4)
           [x01; x02; x03] = Some (bw', (3, None)) ∧
    BufferedWriter.writer bw' = newFile [Some (0, Err "EIO")] ∧
    length (BufferedWriter.buffer bw') = 4 ∧
    BufferedWriter.pending bw' = [x01; x02; x03].
Proof.
  apply (BufferedWriter_Write_within_capacity
           (BufferedWriter.NewBufferedWriter (newFile [Some (0, Err "EIO")]) 4)
           [x01; x02; x03]).
  simpl. lia.
Defined.

(** X2. The flush is lazy.  A [Write] of a non-empty [p] that returns
    without error leaves at least one byte in the buffer (a buffer that
    got full is handed on only by the next [Write] or by [Flush]), and
    has called the underlying writer [(offset + len(p) - 1) / cap]
    times. *)
Theorem BufferedWriter_Write_lazy_flush (bw bw' : BufferedWriter.t File)
    (p : list byte) (k : nat) :
  BufferedWriter.wf bw → 0 < length (BufferedWriter.buffer bw) → p ≠ [] →
  BufferedWriter.Write bw p = Some (bw', (k, None)) →
  0 < BufferedWriter.offset bw' ≤ length (BufferedWriter.buffer bw) ∧
  ∃ new,
    received (BufferedWriter.writer bw') = received (BufferedWriter.writer bw) ++ new ∧
    length new = (BufferedWriter.offset bw + length p - 1)
                   / length (BufferedWriter.buffer bw) ∧
    BufferedWriter.offset bw' + length new * length (BufferedWriter.buffer bw)
      = BufferedWriter.offset bw + length p.
Proof.
  intros Hwf Hcap Hp Hw.
  destruct (Write_spec bw p Hwf Hcap)
    as (bw1 & k1 & err & new & Hw1 & Hwf1 & Hlen & Hrec & Hall & Hok & _).
  rewrite Hw in Hw1. injection Hw1 as <- <- <-.
  destruct (Hok eq_refl) as [_ Hc].
  assert (0 < BufferedWriter.offset bw') as Hpos.
  { eapply Write_loop_keeps; [exact Hw|]. left. destruct p; [done|simpl; lia]. }
  unfold BufferedWriter.wf in *. split; [lia|]. exists new. split; [done|].
  apply (f_equal length) in Hc. rewrite !length_app in Hc.
  rewrite (length_concat_uniform _ _ Hall) in Hc.
  unfold BufferedWriter.pending in Hc. rewrite !length_take in Hc.
  split; [|lia].
  apply (Nat.div_unique _ _ _ (BufferedWriter.offset bw' - 1)); lia.
Qed.

Lemma BufferedWriter_Write_lazy_flush_witness :
  ∃ bw',
    BufferedWriter.Write (BufferedWriter.NewBufferedWriter (newFile []) 2)
      [x01; x02; x03; x04] = Some (bw', (4, None)) ∧
    0 < BufferedWriter.offset bw' ≤ 2 ∧
    ∃ new, received (BufferedWriter.writer bw') = [] ++ new ∧
           length new = (0 + 4 - 1) / 2 ∧
           BufferedWriter.offset bw' + length new * 2 = 0 + 4.
Proof.
  eexists. split; [reflexivity|].
  eapply (BufferedWriter_Write_lazy_flush
            (BufferedWriter.NewBufferedWriter (newFile []) 2) _ [x01; x02; x03; x04] 4);
    [unfold BufferedWriter.wf; simpl; lia|simpl; lia|done|reflexivity].
Defined.

(** X3. A failed [Write].  When [Write] returns [(k, err)] with an error,
    [k] is less than [len(p)], the buffer is empty, and what the
    underlying writer was offered during the call is the data that was
    pending followed by [p[:k]]: the count tells exactly how much of [p]
    was handed on. *)
Theorem BufferedWriter_Write_error (bw bw' : BufferedWriter.t File)
    (p : list byte) (k : nat) (e : error) :
  BufferedWriter.wf bw →
  BufferedWriter.Write bw p = Some (bw', (k, Some e)) →
  k < length p ∧ BufferedWriter.pending bw' = [] ∧
  ∃ new,
    received (BufferedWriter.writer bw') = received (BufferedWriter.writer bw) ++ new ∧
    concat new = BufferedWriter.pending bw ++ take k p.
Proof.
  intros Hwf Hw.
  apply Write_loop_err in Hw as (Hk & Ho & _ & new & Hrec & Hc); [|done..].
  split; [lia|]. split; [unfold BufferedWriter.pending; by rewrite Ho|].
  exists new. split; [done|]. rewrite Hc. unfold slice.
  by rewrite Nat.sub_0_r, drop_0.
Qed.

Lemma BufferedWriter_Write_error_witness :
  ∃ bw',
    BufferedWriter.Write
      (BufferedWriter.NewBufferedWriter (newFile [Some (1, Err "EIO")]) 2)
      [x01; x02; x03] = Some (bw', (2, Some (Err "EIO"))) ∧
    2 < 3 ∧ BufferedWriter.pending bw' = [] ∧
    ∃ new, received (BufferedWriter.writer bw') = [] ++ new ∧
           concat new = [] ++ [x01; x02].
Proof.
  eexists. split; [reflexivity|].
  apply (BufferedWriter_Write_error
           (BufferedWriter.NewBufferedWriter (newFile [Some (1, Err "EIO")]) 2)
           _ [x01; x02; x03] 2 (Err "EIO"));
    [unfold BufferedWriter.wf; simpl; lia|reflexivity].
Defined.

(** X4. [Flush] always empties the buffer.  It hands the pending bytes to
    the underlying writer in one call (in none when there are no bytes)
    and resets the offset whatever that call answers: after a failed
    [Flush] the buffer is empty too, and a second [Flush] calls nothing
    and returns nil. *)
Theorem BufferedWriter_Flush_empties (bw bw' : BufferedWriter.t File)
    (err : option error) :
  BufferedWriter.Flush bw = (bw', err) →
  BufferedWriter.pending bw' = [] ∧
  BufferedWriter.Flush bw' = (bw', None) ∧
  received (BufferedWriter.writer bw')
    = received (BufferedWriter.writer bw)
      ++ (if decide (BufferedWriter.offset bw = 0) then []
          else [BufferedWriter.pending bw]) ∧
  (BufferedWriter.offset bw = 0 → err = None).
Proof.
  unfold BufferedWriter.Flush, BufferedWriter.pending.
  case_decide as Ho.
  - intros [= <- <-]. rewrite Ho. simpl. rewrite app_nil_r.
    by split_and!.
  - unfold io_Write, File_Writer, slice. rewrite Nat.sub_0_r, drop_0.
    pose proof (File_Write_received (BufferedWriter.writer bw)
                  (take (BufferedWriter.offset bw) (BufferedWriter.buffer bw))) as Hr.
    destruct (File_Write _ _) as [w' [n e]]. intros [= <- <-]. simpl in *.
    split_and!; done.
Qed.

Lemma BufferedWriter_Flush_empties_witness :
  ∃ bw1 bw',
    BufferedWriter.Write
      (BufferedWriter.NewBufferedWriter (newFile [Some (1, Err "EIO")]) 4)
      [x01; x02; x03] = Some (bw1, (3, None)) ∧
    BufferedWriter.Flush bw1 = (bw', Some (Err "EIO")) ∧
    BufferedWriter.pending bw' = [] ∧
    BufferedWriter.Flush bw' = (bw', None) ∧
    received (BufferedWriter.writer bw') = [[x01; x02; x03]] ∧
    stored (BufferedWriter.writer bw') = [x01].
Proof.
  eexists _, _. split; [reflexivity|]. split; [reflexivity|].
  destruct (BufferedWriter_Flush_empties
              {| BufferedWriter.writer := newFile [Some (1, Err "EIO")];
                 BufferedWriter.buffer := [x01; x02; x03; x00];
                 BufferedWriter.offset := 3 |} _ _ eq_refl) as (H1 & H2 & H3 & _).
  split_and!; [exact H1|exact H2|exact H3|reflexivity].
Defined.

(** X5. Capacity 0.  Over a buffer made with [bufSize = 0] the loop of
    [Write] never ends on a non-empty [p]: no bound on its iterations is
    enough.  Only the empty [Write] returns. *)
Theorem BufferedWriter_zero_capacity (w : File) (p : list byte) (fuel : nat) :
  p ≠ [] →
  BufferedWriter.Write_loop fuel (BufferedWriter.NewBufferedWriter w 0) p
    (length p) (length p) 0 = None ∧
  BufferedWriter.Write (BufferedWriter.NewBufferedWriter w 0) []
    = Some (BufferedWriter.NewBufferedWriter w 0, (0, None)).
Proof.
  intros Hp. split; [|done].
  apply Write_loop_cap0; [done..|]. destruct p; [done|simpl; lia].
Qed.

Lemma BufferedWriter_zero_capacity_witness :
  BufferedWriter.Write_loop 1000 (BufferedWriter.NewBufferedWriter (newFile []) 0)
    [x01] 1 1 0 = None ∧
  BufferedWriter.Write (BufferedWriter.NewBufferedWriter (newFile []) 0) []
    = Some (BufferedWriter.NewBufferedWriter (newFile []) 0, (0, None)).
Proof. by apply (BufferedWriter_zero_capacity (newFile []) [x01] 1000). Defined.

(** ** The digest stage: the device, the worker and the second [Sum] *)

Section AsyncSHA256WriterMore.
Import AsyncSHA256Writer AsyncSHA256WriterDirect.

Variable sha256 : list byte → list byte.

Local Abbreviation digest := (λ m, hex_EncodeToString (sha256 m)).
Local Abbreviation step := (AsyncSHA256Writer.step (W:=File) sha256).
Local Abbreviation run := (AsyncSHA256Writer.run (W:=File) sha256).

Implicit Types (s : sys File) (l : list event) (tr : list action).

Lemma direct_app f ps1 ps2 :
  direct f (ps1 ++ ps2) =
    ((direct (direct f ps1).1 ps2).1, (direct f ps1).2 ++ (direct (direct f ps1).1 ps2).2).
Proof.
  revert f. induction ps1 as [|p ps1 IH]; intros f; simpl.
  - by destruct (direct f ps2).
  - destruct (File_Write f p) as [f' [n err]]. rewrite IH.
    destruct (direct f' ps1) as [f1 l1]. simpl.
    by destruct (direct f1 ps2).
Qed.

(** What a step does to the device and to the [Write] events of the
    log. *)
Lemma step_device act s s' :
  step act s = Some s' →
  match act with
  | AWrite p =>
      writer (asw s') = (File_Write (writer (asw s)) p).1 ∧
      log s' = log s ++ [EvWrite p (File_Write (writer (asw s)) p).2.1
                                   (File_Write (writer (asw s)) p).2.2]
  | _ => writer (asw s') = writer (asw s) ∧
         filter is_write (log s') = filter is_write (log s)
  end.
Proof.
  destruct act; unfold AsyncSHA256Writer.step, AsyncSHA256Writer.Write,
    AsyncSHA256Writer.Close, hashWorker_data, io_Write, File_Writer;
    destruct (main s); try done.
  all: try (destruct (File_Write (writer (asw s)) p) as [w' [n [e|]]]; simpl).
  all: repeat case_match; try done; intros [= <-]; simpl; try done.
  all: split; [done|].
  all: by rewrite filter_app, app_nil_r.
Qed.

Lemma run_device tr : ∀ s s',
  run s tr = Some s' →
  writer (asw s') = (direct (writer (asw s)) (writes_of tr)).1 ∧
  filter is_write (log s')
    = filter is_write (log s) ++ (direct (writer (asw s)) (writes_of tr)).2.
Proof.
  induction tr as [|act tr IH]; intros s s'; simpl.
  - intros [= <-]. by rewrite app_nil_r.
  - destruct (step act s) as [s1|] eqn:Hs; [|done]. intros Hr.
    apply IH in Hr as [Hw Hl]. apply step_device in Hs.
    unfold writes_of in *. destruct act; simpl; destruct Hs as [Hw1 Hl1];
      rewrite ?Hw1, ?Hl1 in *; try done.
    rewrite filter_app in Hl. simpl in Hl.
    destruct (File_Write (writer (asw s)) p) as [f' [n err]]. simpl in *.
    destruct (direct f' _) as [f'' l']. simpl in *.
    split; [done|]. by rewrite Hl, <- app_assoc.
Qed.

Lemma sending_open_step act s s' :
  sending_open s → step act s = Some s' → sending_open s'.
Proof.
  intros HI. unfold sending_open in *.
  destruct act; unfold AsyncSHA256Writer.step, AsyncSHA256Writer.Write,
    AsyncSHA256Writer.Close, hashWorker_data, io_Write, File_Writer;
    destruct (main s) as [|v0 [n0| |]| | |] eqn:Hm; try done.
  all: try (destruct (File_Write (writer (asw s)) p) as [w' [n' [e|]]]; simpl).
  all: repeat case_match; try done; intros [= <-]; simpl; try done.
  all: try (intros v n [= <- <-]).
  all: try (destruct (HI _ _ eq_refl) as [Hc Hv]).
  all: try (split; [done|by eexists]).
  all: try done.
  all: try (match goal with H : negb _ && _ = true |- _ =>
              apply andb_true_iff in H as [H _]; apply negb_true_iff in H end;
            split; [done|by eexists]).
Qed.

Lemma bounded_step act s s' :
  bounded s → step act s = Some s' → bounded s'.
Proof.
  unfold bounded.
  destruct act; unfold AsyncSHA256Writer.step, AsyncSHA256Writer.Write,
    AsyncSHA256Writer.Close, hashWorker_data, io_Write, File_Writer;
    destruct (main s) eqn:Hm; try done.
  all: try (destruct (File_Write (writer (asw s)) p) as [w' [n' [e|]]]; simpl).
  all: repeat case_match; try done; intros Hb [= <-]; simpl in *; try done.
  all: try (rewrite length_app; simpl; lia).
  all: lia.
Qed.

Lemma run_invs tr : ∀ s s',
  Inv digest s → sending_open s → bounded s → run s tr = Some s' →
  Inv digest s' ∧ sending_open s' ∧ bounded s'.
Proof.
  induction tr as [|act tr IH]; intros s s' HI HO HB; simpl.
  - by intros [= <-].
  - destruct (step act s) as [s1|] eqn:Hs; [|done].
    apply IH; [by eapply Inv_step|by eapply sending_open_step|by eapply bounded_step].
Qed.

Lemma reachable_invs f tr s :
  run (NewAsyncSHA256Writer f) tr = Some s →
  Inv digest s ∧ sending_open s ∧ bounded s.
Proof.
  apply run_invs; [apply Inv_init|done|unfold bounded, dataCh_cap; simpl; lia].
Qed.

(** [doneCh] is closed once, and a caller that panicked stays so. *)
Lemma step_doneCh act s s' :
  step act s = Some s' →
  (doneCh (asw s) = true → doneCh (asw s') = true) ∧
  (main s = Panicked → main s' = Panicked) ∧
  (act = ATimeout → doneCh (asw s') = true ∧
                    (doneCh (asw s) = true → main s' = Panicked)).
Proof.
  destruct act; unfold AsyncSHA256Writer.step, AsyncSHA256Writer.Write,
    AsyncSHA256Writer.Close, hashWorker_data, io_Write, File_Writer;
    destruct (main s) eqn:Hm; try done.
  all: try (destruct (File_Write (writer (asw s)) p) as [w' [n' [e|]]]; simpl).
  all: repeat case_match; try done; intros [= <-]; simpl in *; try done.
  all: split_and!; try done; intros; split; try done; congruence.
Qed.

Lemma run_doneCh tr : ∀ s s',
  run s tr = Some s' →
  (doneCh (asw s) = true → doneCh (asw s') = true) ∧
  (main s = Panicked → main s' = Panicked) ∧
  (doneCh (asw s) = true → ATimeout ∈ tr → main s' = Panicked).
Proof.
  induction tr as [|act tr IH]; intros s s'; simpl.
  - intros [= <-]. split_and!; try done. intros _ H. by apply elem_of_nil in H.
  - destruct (step act s) as [s1|] eqn:Hs; [|done]. intros Hr.
    apply IH in Hr as (Hd & Hp & Ht). apply step_doneCh in Hs as (Hd1 & Hp1 & Ht1).
    split_and!; [by auto|by auto|].
    intros Hdone [<-|Hin]%elem_of_cons; [|by auto].
    destruct (Ht1 eq_refl) as [_ Hpan]. auto.
Qed.
End AsyncSHA256WriterMore.

(** X6. The digest stage is transparent.  In every run, whatever the
    interleaving and whether the stage is open, closed or blocked, the
    slices of the [Write] calls reach the underlying writer unchanged,
    once each and in order: the device ends as if they had been written
    to it directly, and each [Write] answers what the device answered. *)
Theorem AsyncSHA256Writer_transparent (sha256 : list byte → list byte)
    (fs : list (option (nat * error))) (tr : list AsyncSHA256Writer.action)
    (s : AsyncSHA256Writer.sys File) :
  AsyncSHA256Writer.run sha256
    (AsyncSHA256Writer.NewAsyncSHA256Writer (newFile fs)) tr = Some s →
  AsyncSHA256Writer.writer (AsyncSHA256Writer.asw s)
    = (AsyncSHA256WriterDirect.direct (newFile fs)
         (AsyncSHA256WriterDirect.writes_of tr)).1 ∧
  filter AsyncSHA256WriterDirect.is_write (AsyncSHA256Writer.log s)
    = (AsyncSHA256WriterDirect.direct (newFile fs)
         (AsyncSHA256WriterDirect.writes_of tr)).2.
Proof. intros Hr. by apply run_device in Hr. Qed.

Lemma AsyncSHA256Writer_transparent_witness :
  let tr := [AsyncSHA256Writer.AWrite [x01; x02]; AsyncSHA256Writer.ASend;
             AsyncSHA256Writer.AClose; AsyncSHA256Writer.ASend;
             AsyncSHA256Writer.AWrite [x03]; AsyncSHA256Writer.AWorkerData;
             AsyncSHA256Writer.AWrite [x04]] in
  ∃ s,
    AsyncSHA256Writer.run (λ m, m)
      (AsyncSHA256Writer.NewAsyncSHA256Writer (newFile [None; None; Some (0, Err "EIO")]))
      tr = Some s ∧
    received (AsyncSHA256Writer.writer (AsyncSHA256Writer.asw s))
      = [[x01; x02]; [x03]; [x04]] ∧
    filter AsyncSHA256WriterDirect.is_write (AsyncSHA256Writer.log s)
      = [AsyncSHA256Writer.EvWrite [x01; x02] 2 None;
         AsyncSHA256Writer.EvWrite [x03] 1 None;
         AsyncSHA256Writer.EvWrite [x04] 0 (Some (Err "EIO"))].
Proof.
  intros tr.
  destruct (AsyncSHA256Writer.run _ _ tr) as [s|] eqn:Hrun; [|by vm_compute in Hrun].
  exists s. split; [done|].
  destruct (AsyncSHA256Writer_transparent _ _ _ _ Hrun) as [Hw Hl].
  rewrite Hw, Hl. by vm_compute.
Defined.

(** X7. What [Sum] returns, whatever the calls.  In every run, for every
    order of [Write], [Close] and [Sum] calls, a [Sum] that returns a
    non-empty string returns the digest of the bytes written with
    success before the stage was closed; a [Write] made after [Close] or
    [Sum] reaches the device but adds nothing to it. *)
Theorem Sum_digest_any_order (sha256 : list byte → list byte)
    (fs : list (option (nat * error))) (tr : list AsyncSHA256Writer.action)
    (s : AsyncSHA256Writer.sys File) (r : string) :
  AsyncSHA256Writer.run sha256
    (AsyncSHA256Writer.NewAsyncSHA256Writer (newFile fs)) tr = Some s →
  AsyncSHA256Writer.EvSum r ∈ AsyncSHA256Writer.log s →
  (r = "" ∨
   r = hex_EncodeToString (sha256 (AsyncSHA256Writer.fed (AsyncSHA256Writer.log s)))) ∧
  ∀ p n err,
    AsyncSHA256Writer.fed
      (AsyncSHA256Writer.log s ++ [AsyncSHA256Writer.EvWrite p n err])
    = AsyncSHA256Writer.fed (AsyncSHA256Writer.log s).
Proof.
  intros Hr Hin.
  destruct (reachable_invs sha256 _ _ _ Hr) as (HI & _ & _).
  split; [by apply (AsyncSHA256Writer.inv_sum _ _ HI)|].
  intros p n err. rewrite fed_snoc.
  destruct (AsyncSHA256Writer.has_close (AsyncSHA256Writer.log s)) eqn:Hc; [done|].
  rewrite <- (AsyncSHA256Writer.inv_closed _ _ HI) in Hc.
  destruct (AsyncSHA256Writer.inv_open _ _ HI Hc) as [_ Hno]. by destruct (Hno r).
Qed.

Lemma Sum_digest_any_order_witness :
  let tr := [AsyncSHA256Writer.AWrite [x01; x02]; AsyncSHA256Writer.ASend;
             AsyncSHA256Writer.AClose; AsyncSHA256Writer.ASend;
             AsyncSHA256Writer.AWrite [x03]; AsyncSHA256Writer.AWorkerData;
             AsyncSHA256Writer.ASum; AsyncSHA256Writer.AWorkerData;
             AsyncSHA256Writer.ARecv] in
  ∃ s,
    AsyncSHA256Writer.run (λ m, m)
      (AsyncSHA256Writer.NewAsyncSHA256Writer (newFile [])) tr = Some s ∧
    AsyncSHA256Writer.EvSum "0102" ∈ AsyncSHA256Writer.log s ∧
    AsyncSHA256Writer.written_ok (AsyncSHA256Writer.log s) = [x01; x02; x03] ∧
    ("0102" = "" ∨
     "0102" = hex_EncodeToString (AsyncSHA256Writer.fed (AsyncSHA256Writer.log s))).
Proof.
  intros tr.
  destruct (AsyncSHA256Writer.run _ _ tr) as [s|] eqn:Hrun; [|by vm_compute in Hrun].
  exists s. split; [done|].
  assert (AsyncSHA256Writer.EvSum "0102" ∈ AsyncSHA256Writer.log s) as Hin.
  { pose proof Hrun as Hs. vm_compute in Hs. injection Hs as <-.
    vm_compute. repeat constructor. }
  split; [done|]. split.
  { pose proof Hrun as Hs. vm_compute in Hs. by injection Hs as <-. }
  by destruct (Sum_digest_any_order _ _ _ _ _ Hrun Hin).
Defined.

(** X8. [Sum] can time out once.  The timeout branch closes [doneCh] and
    nothing reopens it: in every run, once [doneCh] is closed, a later
    [Sum] whose [select] takes the timeout branch closes the closed
    channel and panics, and after that no call goes through. *)
Theorem Sum_second_timeout_panics (sha256 : list byte → list byte)
    (fs : list (option (nat * error))) (tr tr' : list AsyncSHA256Writer.action)
    (s s' : AsyncSHA256Writer.sys File) :
  AsyncSHA256Writer.run sha256
    (AsyncSHA256Writer.NewAsyncSHA256Writer (newFile fs)) tr = Some s →
  AsyncSHA256Writer.doneCh (AsyncSHA256Writer.asw s) = true →
  AsyncSHA256Writer.run sha256 s tr' = Some s' →
  AsyncSHA256Writer.ATimeout ∈ tr' →
  AsyncSHA256Writer.main s' = AsyncSHA256Writer.Panicked ∧
  ∀ act, AsyncSHA256Writer.is_call act = true →
         AsyncSHA256Writer.step sha256 act s' = None.
Proof.
  intros _ Hd Hr Hin.
  destruct (run_doneCh sha256 _ _ _ Hr) as (_ & _ & Hp).
  specialize (Hp Hd Hin). split; [done|].
  intros act Hc. unfold AsyncSHA256Writer.step. rewrite Hp. by destruct act.
Qed.

Lemma Sum_second_timeout_panics_witness :
  let tr := [AsyncSHA256Writer.ASum; AsyncSHA256Writer.ASend;
             AsyncSHA256Writer.ATick 30000000000; AsyncSHA256Writer.ATimeout;
             AsyncSHA256Writer.AWorkerDone; AsyncSHA256Writer.AWait] in
  let tr' := [AsyncSHA256Writer.ASum; AsyncSHA256Writer.ATick 30000000000;
              AsyncSHA256Writer.ATimeout] in
  ∃ s s',
    AsyncSHA256Writer.run (λ m, m)
      (AsyncSHA256Writer.NewAsyncSHA256Writer (newFile [])) tr = Some s ∧
    AsyncSHA256Writer.log s = [AsyncSHA256Writer.EvClose; AsyncSHA256Writer.EvSum ""] ∧
    AsyncSHA256Writer.run (λ m, m) s tr' = Some s' ∧
    AsyncSHA256Writer.main s' = AsyncSHA256Writer.Panicked.
Proof.
  intros tr tr'.
  destruct (AsyncSHA256Writer.run _ _ tr) as [s|] eqn:Hrun; [|by vm_compute in Hrun].
  exists s.
  destruct (AsyncSHA256Writer.run _ s tr') as [s'|] eqn:Hrun';
    [|pose proof Hrun as Hs; vm_compute in Hs; injection Hs as <-;
      by vm_compute in Hrun'].
  exists s'. split; [done|].
  assert (AsyncSHA256Writer.doneCh (AsyncSHA256Writer.asw s) = true
          ∧ AsyncSHA256Writer.log s
            = [AsyncSHA256Writer.EvClose; AsyncSHA256Writer.EvSum ""]) as [Hd Hl].
  { pose proof Hrun as Hs. vm_compute in Hs. by injection Hs as <-. }
  split; [done|]. split; [done|].
  apply (Sum_second_timeout_panics _ _ _ _ _ _ Hrun Hd Hrun').
  unfold tr'. repeat constructor.
Defined.

(** X10. [Write] cannot block for ever.  In every run, a [Write] parked
    in its send on [dataCh] has found the stage open, so the worker is
    running and reading: the send goes through at once when the channel
    has room, and after one turn of the worker when its 10 slots are
    taken; [Write] then returns. *)
Theorem Write_send_goes_through (sha256 : list byte → list byte)
    (fs : list (option (nat * error))) (tr : list AsyncSHA256Writer.action)
    (s : AsyncSHA256Writer.sys File) (v : option (list byte)) (n : nat) :
  AsyncSHA256Writer.run sha256
    (AsyncSHA256Writer.NewAsyncSHA256Writer (newFile fs)) tr = Some s →
  AsyncSHA256Writer.main s = AsyncSHA256Writer.Sending v (AsyncSHA256Writer.InWrite n) →
  AsyncSHA256Writer.hashWorker s = AsyncSHA256Writer.Running ∧
  ∃ s',
    AsyncSHA256Writer.run sha256 s
      (if decide (length (AsyncSHA256Writer.dataCh (AsyncSHA256Writer.asw s))
                  < AsyncSHA256Writer.dataCh_cap)
       then [AsyncSHA256Writer.ASend]
       else [AsyncSHA256Writer.AWorkerData; AsyncSHA256Writer.ASend]) = Some s' ∧
    AsyncSHA256Writer.main s' = AsyncSHA256Writer.Idle ∧
    AsyncSHA256Writer.log s' = AsyncSHA256Writer.log s.
Proof.
  intros Hr Hm.
  destruct (reachable_invs sha256 _ _ _ Hr) as (HI & HO & HB).
  destruct (HO _ _ Hm) as [Hc [d ->]].
  destruct (AsyncSHA256Writer.inv_open _ _ HI Hc) as [Hw _].
  split; [done|].
  destruct (AsyncSHA256Writer.inv_running _ _ HI Hw) as (_ & xs & _ & Hfl).
  unfold AsyncSHA256Writer.inflight in Hfl. rewrite Hm, Hc, app_nil_r in Hfl.
  case_decide as Hlen.
  - simpl. unfold AsyncSHA256Writer.step. rewrite Hm.
    rewrite decide_True by done. by eexists.
  - destruct (AsyncSHA256Writer.dataCh (AsyncSHA256Writer.asw s))
      as [|x ch] eqn:Hch; [unfold AsyncSHA256Writer.dataCh_cap in Hlen; simpl in Hlen; lia|].
    destruct xs as [|x0 xs]; [done|]. simpl in Hfl. injection Hfl as -> Hch'.
    unfold AsyncSHA256WriterDirect.bounded in HB. rewrite Hch in HB. simpl in HB.
    cbn [AsyncSHA256Writer.run]. unfold AsyncSHA256Writer.step at 1. rewrite Hw.
    unfold AsyncSHA256Writer.hashWorker_data. rewrite Hch.
    unfold AsyncSHA256Writer.step. cbn [AsyncSHA256Writer.main]. rewrite Hm.
    cbn [AsyncSHA256Writer.asw AsyncSHA256Writer.dataCh
         AsyncSHA256Writer.set_dataCh AsyncSHA256Writer.set_hasher].
    rewrite decide_True by lia. by eexists.
Qed.

Lemma Write_send_goes_through_witness :
  let tr := [AsyncSHA256Writer.AWrite [x01]; AsyncSHA256Writer.ASend;
             AsyncSHA256Writer.AWrite [x02]] in
  ∃ s s',
    AsyncSHA256Writer.run (λ m, m)
      (AsyncSHA256Writer.NewAsyncSHA256Writer (newFile [])) tr = Some s ∧
    AsyncSHA256Writer.main s
      = AsyncSHA256Writer.Sending (Some [x02]) (AsyncSHA256Writer.InWrite 1) ∧
    AsyncSHA256Writer.run (λ m, m) s [AsyncSHA256Writer.ASend] = Some s' ∧
    AsyncSHA256Writer.main s' = AsyncSHA256Writer.Idle.
Proof.
  intros tr.
  destruct (AsyncSHA256Writer.run _ _ tr) as [s|] eqn:Hrun; [|by vm_compute in Hrun].
  exists s.
  assert (AsyncSHA256Writer.main s
          = AsyncSHA256Writer.Sending (Some [x02]) (AsyncSHA256Writer.InWrite 1)
          ∧ length (AsyncSHA256Writer.dataCh (AsyncSHA256Writer.asw s)) = 1)
    as [Hm Hl].
  { pose proof Hrun as Hs. vm_compute in Hs. by injection Hs as <-. }
  destruct (Write_send_goes_through _ _ _ _ _ _ Hrun Hm) as (_ & s' & Hr' & Hi & _).
  rewrite decide_True in Hr' by (rewrite Hl; unfold AsyncSHA256Writer.dataCh_cap; lia).
  by exists s'.
Defined.

(** ** The copy loop and the shape of a run *)

Lemma written_app l1 l2 : written (l1 ++ l2) = written l1 ++ written l2.
Proof. unfold written. by rewrite omap_app, concat_app. Qed.

Lemma copied_cons pre chunk rs w w1 w' :
  trace w1 = trace w ++ pre → Forall is_copy_event pre →
  written pre = chunk → Forall (λ e, write_failed e = false) pre →
  copied rs w1 w' → copied ((chunk, None) :: rs) w w'.
Proof.
  intros Htr Hpre Hw Hnf (evs & Htr' & Hevs & Hp & Heq).
  exists (pre ++ evs). split_and!.
  - by rewrite Htr', Htr, app_assoc.
  - by apply Forall_app.
  - rewrite written_app, Hw. simpl. by apply prefix_app.
  - intros [_ Hf]%Forall_app. rewrite written_app, Hw. simpl. by rewrite Heq.
Qed.

Ltac solve_copied :=
  eexists; split_and!;
    [ norm_trace; reflexivity
    | by repeat constructor
    | cbn; rewrite ?app_nil_r; first [done | by apply prefix_nil]
    | cbn; rewrite ?app_nil_r;
      first [ done
            | intros Hf; by repeat (apply Forall_cons in Hf as [? Hf]; try done) ] ].

Lemma Plain_copyLoop_copied path rs : ∀ w,
  wp (Plain.copyLoop path rs) (λ w' _, copied rs w w') w.
Proof.
  induction rs as [|[chunk err] rs IH]; intros w; simpl.
  - wp_steps. solve_copied.
  - wp_steps.
    destruct err as [[|m]|]; case_decide as Hlen; wp_steps;
      try (destruct (next w) as [e2|] eqn:Hn; wp_steps);
      try (assert (chunk = []) as -> by (destruct chunk; [done|simpl in Hlen; lia]));
      try (eapply wp_mono; [|apply IH]; cbv beta; intros w' _ Hq;
           eapply copied_cons; [| | | |exact Hq];
           [norm_trace; reflexivity|by repeat constructor
           |cbn; by rewrite ?app_nil_r|by repeat constructor]);
      solve_copied.
Qed.

Lemma Digest_copyLoop_copied path rs : ∀ w,
  wp (Digest.copyLoop path rs) (λ w' _, copied rs w w') w.
Proof.
  induction rs as [|[chunk err] rs IH]; intros w; simpl.
  - wp_steps. solve_copied.
  - wp_steps.
    destruct err as [[|m]|]; case_decide as Hlen; wp_steps;
      try (destruct (next w) as [e2|] eqn:Hn; wp_steps);
      try (assert (chunk = []) as -> by (destruct chunk; [done|simpl in Hlen; lia]));
      try (eapply wp_mono; [|apply IH]; cbv beta; intros w' _ Hq;
           eapply copied_cons; [| | | |exact Hq];
           [norm_trace; reflexivity|by repeat constructor
           |cbn; by rewrite ?app_nil_r|by repeat constructor]);
      solve_copied.
Qed.

Lemma copy_entry_event e : is_copy_event e → is_entry_event e.
Proof. by destruct e. Qed.

Lemma entry_walk_event e : is_entry_event e → is_walk_event e.
Proof. by destruct e. Qed.

Lemma visits_app l1 l2 : visits (l1 ++ l2) = visits l1 ++ visits l2.
Proof. apply omap_app. Qed.

Lemma visits_entry evs : Forall is_entry_event evs → visits evs = [].
Proof.
  induction 1 as [|e evs He _ IH]; [done|]. destruct e; try done; exact IH.
Qed.

Lemma copied_entered it rs w w1 w' pre :
  trace w1 = trace w ++ EvVisit (path it) :: pre → Forall is_entry_event pre →
  copied rs w1 w' → entered it w w'.
Proof.
  intros Htr Hpre (evs & Htr' & Hevs & _). exists (pre ++ evs). split.
  - by rewrite Htr', Htr, <- app_assoc.
  - apply Forall_app. split; [done|].
    eapply Forall_impl; [exact Hevs|]. apply copy_entry_event.
Qed.

Ltac solve_entered :=
  eexists; split; [norm_trace; reflexivity|by repeat constructor].

Lemma Plain_walkFn_entered fp basePath baseDir it w :
  wp (Plain.walkFn fp basePath baseDir it) (λ w' _, entered it w w') w.
Proof.
  unfold Plain.walkFn. wp_steps.
  destruct (walk_err it); wp_steps;
    [|destruct (header_err it); wp_steps;
      [|destruct (Rel fp baseDir (path it)); wp_steps;
        [destruct (next w); wp_steps;
          [|destruct (negb (IsDir (info it))); wp_steps;
            [destruct (open_err it); wp_steps|]]|]]].
  all: try (eapply wp_mono; [|apply Plain_copyLoop_copied]; cbv beta; intros w' _ Hq;
            eapply copied_entered; [| |exact Hq];
            [norm_trace; reflexivity|by repeat constructor]).
  all: solve_entered.
Qed.

Lemma Digest_walkFn_entered fp it w :
  wp (Digest.walkFn fp it) (λ w' _, entered it w w') w.
Proof.
  digest_walk_cases w.
  all: try (eapply wp_mono; [|apply Digest_copyLoop_copied]; cbv beta; intros w' _ Hq;
            eapply copied_entered; [| |exact Hq];
            [norm_trace; reflexivity|by repeat constructor]).
  all: solve_entered.
Qed.

Lemma walked_refl w : walked [] true w w.
Proof. exists []. rewrite app_nil_r. split_and!; done. Qed.

Lemma walked_app items1 items2 c w w1 w' :
  walked items1 true w w1 → walked items2 c w1 w' → walked (items1 ++ items2) c w w'.
Proof.
  intros (e1 & H1 & F1 & _ & V1) (e2 & H2 & F2 & P2 & V2).
  exists (e1 ++ e2). rewrite fmap_app, visits_app, V1 by done. split_and!.
  - by rewrite H2, H1, app_assoc.
  - by apply Forall_app.
  - by apply prefix_app.
  - intros Hr. by rewrite V2.
Qed.

Lemma walked_stop items1 items2 c w w' :
  walked items1 c w w' → walked (items1 ++ items2) false w w'.
Proof.
  intros (e1 & H1 & F1 & P1 & _). exists e1. split_and!; [done..| |done].
  rewrite fmap_app. by apply prefix_app_r.
Qed.

Lemma entered_walked it c w w' : entered it w w' → walked [it] c w w'.
Proof.
  intros (evs & Htr & Hevs). exists (EvVisit (path it) :: evs).
  assert (visits (EvVisit (path it) :: evs) = [path it]) as Hv.
  { unfold visits. simpl. f_equal. by apply visits_entry. }
  rewrite Hv. split_and!; [done| |done..].
  constructor; [done|]. eapply Forall_impl; [exact Hevs|]. apply entry_walk_event.
Qed.

Lemma Walk_walked fn items :
  (∀ it w, wp (fn it) (λ w' _, entered it w w') w) →
  ∀ w, walked items (bool_decide ((Walk fn items w).2 = None)) w (Walk fn items w).1.
Proof.
  intros Hfn. induction items as [|it items IH]; intros w; simpl.
  - apply walked_refl.
  - specialize (Hfn it w). unfold wp in Hfn.
    destruct (fn it w) as [w' [[]|[e|]]]; simpl in *.
    + apply (walked_app [it] items _ _ w'); [by apply entered_walked|apply IH].
    + apply (walked_stop [it] items true). by apply entered_walked.
    + apply (walked_app [it] items _ _ w'); [by apply entered_walked|apply IH].
Qed.

Lemma Plain_addAll_walked fp env sources : ∀ w,
  walked (all_items env sources)
         (bool_decide ((Plain.addAll fp env sources w).2 = None))
         w (Plain.addAll fp env sources w).1.
Proof.
  unfold all_items.
  induction sources as [|x xs IH]; intros w; simpl; [apply walked_refl|].
  unfold Plain.addFiles. destruct (os_Stat env x) as [i|e]; simpl.
  - pose proof (Walk_walked _ (walk env x)
      (Plain_walkFn_entered fp x (if IsDir i then x else Dir fp x)) w) as Hw.
    destruct (Walk _ _ w) as [w' [e|]]; simpl in *.
    + by eapply walked_stop.
    + by eapply walked_app.
  - exists []. rewrite app_nil_r. split_and!; [done..|apply prefix_nil|done].
Qed.

Lemma Digest_addAll_walked fp env sources : ∀ w,
  walked (all_items env sources) true w (Digest.addAll fp env sources w).1.
Proof.
  unfold all_items.
  induction sources as [|x xs IH]; intros w; simpl; [apply walked_refl|].
  unfold Digest.addFiles.
  pose proof (Walk_walked _ (walk env x) (Digest_walkFn_entered fp) w) as Hw.
  rewrite Digest_Walk_nil in Hw.
  pose proof (Digest_Walk_nil fp (walk env x) w) as Hnil.
  destruct (Walk _ _ w) as [w' [e|]]; simpl in *; [done|].
  by eapply walked_app.
Qed.

Lemma Plain_checkDest_early fp destFile absDest sources f :
  Plain.checkDest fp destFile absDest sources = Some f → is_early_error f.
Proof.
  induction sources as [|x xs IH]; simpl; [done|].
  repeat case_match; try done; by intros [= <-].
Qed.

Lemma Digest_checkDest_early fp env destFile absDest sources f :
  Digest.checkDest fp env destFile absDest sources = Some f → is_early_error f.
Proof.
  induction sources as [|x xs IH]; simpl; [done|].
  repeat case_match; try done; by intros [= <-].
Qed.

Lemma Plain_scan_early env sources : ∀ w f,
  (Plain.scan env sources w).2 = Some f → is_early_error f.
Proof.
  induction sources as [|x xs IH]; intros w f; simpl; [done|].
  destruct (Walk Plain.scanFn (walk env x) w) as [w' [e|]]; simpl; [by intros [= <-]|].
  apply IH.
Qed.

Lemma Plain_addAll_fatal fp env sources : ∀ w f,
  (Plain.addAll fp env sources w).2 = Some f → ∃ x e, f = FatalAddFiles x e.
Proof.
  induction sources as [|x xs IH]; intros w f; simpl; [done|].
  destruct (Plain.addFiles fp env x w) as [w' [e|]]; simpl; [intros [= <-]; eauto|].
  apply IH.
Qed.

(** How a run of the plain variant ends, and what it has done by then. *)
Lemma Plain_main_shape fp env :
  (∃ f, (Plain.main fp env).2 = Fatal f ∧ is_early_error f ∧
        trace (Plain.main fp env).1 = []) ∨
  ∃ sources d ds evs,
    src_txt env = inl sources ∧ dst_txt env = inl (d :: ds) ∧
    Forall is_walk_event evs ∧
    visits evs `prefix_of` (path <$> all_items env sources) ∧
    ((∃ s e, (Plain.main fp env).2 = Fatal (FatalAddFiles s e) ∧
             trace (Plain.main fp env).1 = EvCreate d :: evs) ∨
     ((Plain.main fp env).2 = Returned ∧
      visits evs = path <$> all_items env sources ∧
      trace (Plain.main fp env).1
        = EvCreate d :: evs ++ [EvLog LogDone; EvZipClose; EvFlush])).
Proof.
  unfold Plain.main.
  destruct (src_txt env) as [[|s ss]|] eqn:Hsrc; [by left; eexists..| |by left; eexists].
  set (sources := s :: ss) in *. clearbody sources.
  destruct (dst_txt env) as [[|d ds]|] eqn:Hdst; [by left; eexists..| |by left; eexists].
  destruct (Abs fp d); [|by left; eexists].
  destruct (Plain.checkDest _ _ _ _) as [f|] eqn:Hck.
  { left. exists f. split_and!; [done| |done]. by eapply Plain_checkDest_early. }
  pose proof (Plain_scan_trace env sources (world0 env)) as Hscan.
  pose proof (Plain_scan_early env sources (world0 env)) as Hearly.
  destruct (Plain.scan env sources (world0 env)) as [w1 [f|]]; simpl in Hscan, Hearly.
  { left. exists f. split_and!; [done|by apply Hearly|done]. }
  destruct (create_err env); [by left; eexists|].
  right. exists sources, d, ds.
  pose proof (Plain_addAll_walked fp env sources (Plain.emit_all [EvCreate d] w1))
    as (evs & Htr & Hev & Hpre & Hall).
  exists evs. simpl in Htr. rewrite Hscan in Htr. simpl in Htr.
  split_and!; [done..|].
  pose proof (Plain_addAll_fatal fp env sources (Plain.emit_all [EvCreate d] w1)) as Hf.
  destruct (Plain.addAll fp env sources _) as [w2 [f|]]; simpl in *.
  - left. destruct (Hf f eq_refl) as (x & e & ->). by exists x, e.
  - right. split; [done|]. split; [by apply Hall|]. by rewrite Htr, <- app_assoc.
Qed.

Lemma Digest_scan_logs env sources : ∀ w,
  ∃ logs, trace (Digest.scan env sources w) = trace w ++ logs ∧ Forall is_log logs.
Proof.
  assert (∀ w0 it w,
    (∃ logs, trace w = trace w0 ++ logs ∧ Forall is_log logs) →
    wp (Digest.scanFn it)
       (λ w' _, ∃ logs, trace w' = trace w0 ++ logs ∧ Forall is_log logs) w) as Hfn.
  { intros w0 it w (logs & Htr & Hl). unfold Digest.scanFn.
    destruct (walk_err it); wp_steps; [|by exists logs].
    exists (logs ++ [EvLog (LogAccess (path it) e)]). norm_trace.
    split; [by rewrite Htr, <- app_assoc|]. apply Forall_app. by repeat constructor. }
  induction sources as [|x xs IH]; intros w; simpl.
  - exists []. by rewrite app_nil_r.
  - pose proof (Walk_inv _ _ (walk env x) (Hfn w) w) as (l1 & H1 & F1).
    { exists []. by rewrite app_nil_r. }
    destruct (Walk Digest.scanFn (walk env x) w) as [w' [e|]]; simpl in *.
    + destruct (IH (Plain.emit_all [EvLog (LogScan x e)] w')) as (l2 & H2 & F2).
      exists (l1 ++ EvLog (LogScan x e) :: l2). simpl in H2.
      split; [by rewrite H2, H1, <- !app_assoc|].
      apply Forall_app. split; [done|]. by constructor.
    + destruct (IH w') as (l2 & H2 & F2). exists (l1 ++ l2).
      split; [by rewrite H2, H1, <- app_assoc|]. by apply Forall_app.
Qed.

(** How a run of the SHA-256 variant ends, and what it has done by
    then. *)
Lemma Digest_main_shape fp env sum :
  (∃ f, (Digest.main fp env sum).2 = Fatal f ∧ is_early_error f ∧
        Forall is_log (trace (Digest.main fp env sum).1)) ∨
  ∃ sources d ds logs evs,
    src_txt env = inl sources ∧ dst_txt env = inl (d :: ds) ∧
    Forall is_log logs ∧ Forall is_walk_event evs ∧
    visits evs = path <$> all_items env sources ∧
    (Digest.main fp env sum).2 = Returned ∧
    trace (Digest.main fp env sum).1
      = logs ++ EvCreate d :: evs ++ [EvZipClose; EvFlush]
        ++ Digest.report fp env (if noSha256 env then "" else sum) d
        ++ [EvZipClose; EvFlush].
Proof.
  unfold Digest.main.
  destruct (src_txt env) as [[|s ss]|] eqn:Hsrc;
    [by left; eexists; split_and!..| |by left; eexists; split_and!].
  set (sources := s :: ss) in *. clearbody sources.
  destruct (dst_txt env) as [[|d ds]|] eqn:Hdst;
    [by left; eexists; split_and!..| |by left; eexists; split_and!].
  destruct (Abs fp d); [|by left; eexists; split_and!].
  destruct (Digest.checkDest _ _ _ _ _) as [f|] eqn:Hck.
  { left. exists f. split_and!; [done| |done]. by eapply Digest_checkDest_early. }
  destruct (Digest_scan_logs env sources (world0 env)) as (logs & Hscan & Hlogs).
  simpl in Hscan.
  destruct (create_err env).
  { left. eexists. split_and!; [done..|]. simpl. by rewrite Hscan. }
  right. exists sources, d, ds, logs.
  pose proof (Digest_addAll_walked fp env sources
                (Plain.emit_all [EvCreate d] (Digest.scan env sources (world0 env))))
    as (evs & Htr & Hev & _ & Hall).
  exists evs. simpl in Htr. rewrite Hscan in Htr.
  pose proof (Digest_addAll_nil fp env sources
                (Plain.emit_all [EvCreate d] (Digest.scan env sources (world0 env)))) as Hnil.
  destruct (Digest.addAll fp env sources _) as [w2 [f|]]; simpl in *; [done|].
  split_and!; [done..|by apply Hall|done|].
  rewrite Htr. by rewrite <- !app_assoc.
Qed.

Lemma walk_events_only evs e :
  Forall is_walk_event evs → e ∈ evs → is_walk_event e.
Proof. rewrite Forall_forall. auto. Qed.

Lemma log_events_only evs e : Forall is_log evs → e ∈ evs → is_log e.
Proof. rewrite Forall_forall. auto. Qed.

Lemma visits_logs evs : Forall is_log evs → visits evs = [].
Proof.
  induction 1 as [|e evs He _ IH]; [done|]. destruct e; try done; exact IH.
Qed.

Lemma report_logs fp env sum d e :
  e ∈ Digest.report fp env sum d →
  is_log e ∨
  (noSha256 env = false ∧ sum ≠ "" ∧
   e = EvWriteFile (d +:+ ".sha256")
         (sum +:+ "  " +:+ Base fp d +:+ String "010"%char EmptyString)
         (writeFile_err env)).
Proof.
  unfold Digest.report. destruct (noSha256 env); [set_solver|].
  case_bool_decide as Hs; simpl; [set_solver|].
  intros Hin. repeat (apply elem_of_cons in Hin as [->|Hin]); try (by left).
  - by right.
  - left. by destruct (writeFile_err env).
  - by apply elem_of_nil in Hin.
Qed.

(** ** The copy loop: what is written *)

Lemma copyLoop_nonempty_step (w W w' : world) (evs : list event) :
  trace W = trace w ++ evs → Forall nonempty_write evs →
  (∃ evs', trace w' = trace W ++ evs' ∧ Forall nonempty_write evs') →
  ∃ evs', trace w' = trace w ++ evs' ∧ Forall nonempty_write evs'.
Proof.
  intros HW He (evs' & Hw' & He'). exists (evs ++ evs').
  split; [by rewrite Hw', HW, app_assoc|by apply Forall_app].
Qed.

Ltac solve_nonempty :=
  eexists; split; [norm_trace; reflexivity|];
  repeat constructor; try done;
  by (intros ->; simpl in *; lia).

Lemma Plain_copyLoop_nonempty path rs : ∀ w,
  wp (Plain.copyLoop path rs)
     (λ w' _, ∃ evs, trace w' = trace w ++ evs ∧ Forall nonempty_write evs) w.
Proof.
  induction rs as [|[chunk err] rs IH]; intros w; simpl.
  - wp_steps. solve_nonempty.
  - wp_steps.
    destruct err as [[|m]|]; case_decide as Hlen; wp_steps;
      try (destruct (next w) as [e2|] eqn:Hn; wp_steps);
      try (eapply wp_mono; [|apply IH]; cbv beta; intros w' _ Hq;
           eapply copyLoop_nonempty_step; [| |exact Hq];
           [norm_trace; reflexivity|
            repeat constructor; try done; by (intros ->; simpl in *; lia)]);
      solve_nonempty.
Qed.

Lemma Digest_copyLoop_nonempty path rs : ∀ w,
  wp (Digest.copyLoop path rs)
     (λ w' _, ∃ evs, trace w' = trace w ++ evs ∧ Forall nonempty_write evs) w.
Proof.
  induction rs as [|[chunk err] rs IH]; intros w; simpl.
  - wp_steps. solve_nonempty.
  - wp_steps.
    destruct err as [[|m]|]; case_decide as Hlen; wp_steps;
      try (destruct (next w) as [e2|] eqn:Hn; wp_steps);
      try (eapply wp_mono; [|apply IH]; cbv beta; intros w' _ Hq;
           eapply copyLoop_nonempty_step; [| |exact Hq];
           [norm_trace; reflexivity|
            repeat constructor; try done; by (intros ->; simpl in *; lia)]);
      solve_nonempty.
Qed.

(** X11. The copy loop copies.  In either variant, the bytes the loop
    writes to the entry are, in order, bytes that [file.Read] delivered:
    a prefix of what the reads deliver up to the first one that returns
    an error ([io.EOF] included), and all of it unless a write fails.  The
    bytes of a [Read] that also returns an error are still written, and
    no write is made for a [Read] that delivered nothing: every write
    carries at least one byte. *)
Theorem copy_loop_is_faithful (path : string) (rs : list (list byte * option error))
    (w : world) :
  let plain := emitted (Plain.copyLoop path rs) w in
  let digest := emitted (Digest.copyLoop path rs) w in
  written plain `prefix_of` delivered rs ∧
  (Forall (λ e, write_failed e = false) plain → written plain = delivered rs) ∧
  written digest `prefix_of` delivered rs ∧
  (Forall (λ e, write_failed e = false) digest → written digest = delivered rs) ∧
  Forall nonempty_write plain ∧
  Forall nonempty_write digest.
Proof.
  intros plain digest.
  assert (∀ m : M (), wp m (λ w' _, copied rs w w') w →
            written (emitted m w) `prefix_of` delivered rs ∧
            (Forall (λ e, write_failed e = false) (emitted m w) →
             written (emitted m w) = delivered rs)) as H.
  { intros m (evs & Htr & _ & Hp & He). unfold emitted.
    by rewrite Htr, drop_app_length. }
  destruct (H _ (Plain_copyLoop_copied path rs w)).
  destruct (H _ (Digest_copyLoop_copied path rs w)).
  split_and!; [done..| |].
  - apply (emitted_wp _ (Forall nonempty_write)), Plain_copyLoop_nonempty.
  - apply (emitted_wp _ (Forall nonempty_write)), Digest_copyLoop_nonempty.
Qed.

Lemma copy_loop_is_faithful_witness :
  let rs := [([x01; x02], None); ([], None); ([x03], Some (Err "EIO"))] in
  let w := world0 Examples.one_file in
  Forall (λ e, write_failed e = false) (emitted (Digest.copyLoop "/src/a.txt" rs) w) ∧
  written (emitted (Digest.copyLoop "/src/a.txt" rs) w) = [x01; x02; x03] ∧
  filter (λ e, is_io e && negb (is_read e)) (emitted (Digest.copyLoop "/src/a.txt" rs) w)
    = [EvWrite [x01; x02] None; EvWrite [x03] None].
Proof.
  intros rs w.
  assert (Forall (λ e, write_failed e = false)
            (emitted (Digest.copyLoop "/src/a.txt" rs) w)) as Hok
    by (vm_compute; repeat constructor).
  split; [exact Hok|].
  destruct (copy_loop_is_faithful "/src/a.txt" rs w) as (_ & _ & _ & H & _).
  split; [exact (H Hok)|reflexivity].
Defined.

(** X12. The deferred calls of the plain variant.  [zipWriter.Close()] and
    [bufferedFile.Flush()] are deferred, and [log.Fatalf] leaves without
    running deferred calls: a run that returns ends with exactly one
    [Close] and one [Flush], in this order, and a run that dies, be it of
    an error of [addFiles] in the middle of the archive, calls neither:
    the archive is left without its central directory and the bytes in the
    buffer are never written. *)
Theorem Plain_deferred_calls (fp : Filepath) (env : Env) :
  ((Plain.main fp env).2 = Returned →
     ∃ evs, trace (Plain.main fp env).1 = evs ++ [EvZipClose; EvFlush] ∧
            (EvZipClose ∉ evs) ∧ (EvFlush ∉ evs)) ∧
  (∀ f, (Plain.main fp env).2 = Fatal f →
     (EvZipClose ∉ trace (Plain.main fp env).1) ∧
     (EvFlush ∉ trace (Plain.main fp env).1)).
Proof.
  destruct (Plain_main_shape fp env)
    as [(f & Hex & _ & Htr)|(sources & d & ds & evs & _ & _ & Hev & _ &
          [(s & e & Hex & Htr)|(Hex & _ & Htr)])];
    rewrite Hex, Htr.
  - split; [done|]. intros _ _. split; apply not_elem_of_nil.
  - split; [done|]. intros _ _.
    split; intros [|Hin]%elem_of_cons; try done;
      by apply (walk_events_only _ _ Hev) in Hin.
  - split; [|done]. intros _. exists (EvCreate d :: evs ++ [EvLog LogDone]).
    split; [simpl; by rewrite <- app_assoc|].
    split; intros [|[Hin|Hin]%elem_of_app]%elem_of_cons; try done;
      try (by apply (walk_events_only _ _ Hev) in Hin);
      by apply list_elem_of_singleton in Hin.
Qed.

Lemma Plain_deferred_calls_witness :
  (∃ evs, trace (Plain.main Lite.unix Examples.one_file).1
            = evs ++ [EvZipClose; EvFlush] ∧
          (EvZipClose ∉ evs) ∧ (EvFlush ∉ evs)) ∧
  (Plain.main Lite.unix Examples.read_error).2
    = Fatal (FatalAddFiles "/src" (Err "EIO")) ∧
  (EvZipClose ∉ trace (Plain.main Lite.unix Examples.read_error).1) ∧
  (EvFlush ∉ trace (Plain.main Lite.unix Examples.read_error).1).
Proof.
  split.
  - destruct (Plain_deferred_calls Lite.unix Examples.one_file) as [H _]. by apply H.
  - split; [reflexivity|].
    destruct (Plain_deferred_calls Lite.unix Examples.read_error) as [_ H].
    by apply (H (FatalAddFiles "/src" (Err "EIO"))).
Defined.

(** X13. The SHA-256 variant finishes what it begins.  [main] dies only
    before the archive is begun, and then it has called neither
    [zipWriter.Close()] nor [bufferedFile.Flush()].  A run that returns
    has called the pair twice and nowhere else: once after the last
    source, before the digest is reported, and once more as the deferred
    calls at the very end. *)
Theorem Digest_closes_twice (fp : Filepath) (env : Env) (sum : string) :
  ((Digest.main fp env sum).2 = Returned →
     ∃ pre rep,
       trace (Digest.main fp env sum).1
         = pre ++ [EvZipClose; EvFlush] ++ rep ++ [EvZipClose; EvFlush] ∧
       (EvZipClose ∉ pre ++ rep) ∧ (EvFlush ∉ pre ++ rep)) ∧
  (∀ f, (Digest.main fp env sum).2 = Fatal f →
     is_early_error f ∧
     (EvZipClose ∉ trace (Digest.main fp env sum).1) ∧
     (EvFlush ∉ trace (Digest.main fp env sum).1)).
Proof.
  destruct (Digest_main_shape fp env sum)
    as [(f & Hex & Hf & Htr)|(sources & d & ds & logs & evs & _ & _ & Hl & Hev & _ &
          Hex & Htr)];
    rewrite Hex.
  - split; [done|]. intros ? [= <-]. split; [done|].
    split; intros Hin; by apply (log_events_only _ _ Htr) in Hin.
  - split; [|done]. intros _. rewrite Htr.
    exists (logs ++ EvCreate d :: evs), (Digest.report fp env (if noSha256 env then "" else sum) d).
    split; [by rewrite <- !app_assoc|].
    split; intros [[Hin|[|Hin]%elem_of_cons]%elem_of_app|Hin]%elem_of_app; try done;
      try (by apply (log_events_only _ _ Hl) in Hin);
      try (by apply (walk_events_only _ _ Hev) in Hin);
      by apply report_logs in Hin as [?|(_ & _ & ?)].
Qed.

Lemma Digest_closes_twice_witness :
  (Digest.main Lite.unix Examples.read_error "ab").2 = Returned ∧
  ∃ pre rep,
    trace (Digest.main Lite.unix Examples.read_error "ab").1
      = pre ++ [EvZipClose; EvFlush] ++ rep ++ [EvZipClose; EvFlush] ∧
    (EvZipClose ∉ pre ++ rep) ∧ (EvFlush ∉ pre ++ rep).
Proof.
  split; [reflexivity|].
  destruct (Digest_closes_twice Lite.unix Examples.read_error "ab") as [H _].
  by apply H.
Defined.

(** X14. No compression.  Every header either variant hands to
    [CreateHeader], for an entry or for a volume root, has the method
    [zip.Store]. *)
Theorem headers_are_stored (fp : Filepath) (env : Env) (sum : string)
    (k : header_kind) (h : FileHeader) (err : option error) :
  EvCreateHeader k h err ∈ trace (Plain.main fp env).1
  ∨ EvCreateHeader k h err ∈ trace (Digest.main fp env sum).1 →
  Method h = zip_Store.
Proof.
  assert (∀ evs, Forall is_walk_event evs → EvCreateHeader k h err ∈ evs →
                 Method h = zip_Store) as Hw.
  { intros evs Hev Hin. apply (walk_events_only _ _ Hev) in Hin.
    by apply bool_decide_unpack in Hin. }
  intros [Hin|Hin].
  - destruct (Plain_main_shape fp env)
      as [(f & _ & _ & Htr)|(sources & d & ds & evs & _ & _ & Hev & _ &
            [(s & e & _ & Htr)|(_ & _ & Htr)])];
      rewrite Htr in Hin.
    + by apply elem_of_nil in Hin.
    + apply elem_of_cons in Hin as [|Hin]; [done|]. by eapply Hw.
    + apply elem_of_cons in Hin as [|[Hin|Hin]%elem_of_app]; [done|by eapply Hw|].
      repeat (apply elem_of_cons in Hin as [|Hin]; [done|]). by apply elem_of_nil in Hin.
  - destruct (Digest_main_shape fp env sum)
      as [(f & _ & _ & Htr)|(sources & d & ds & logs & evs & _ & _ & Hl & Hev & _ &
            _ & Htr)].
    + by apply (log_events_only _ _ Htr) in Hin.
    + rewrite Htr in Hin.
      apply elem_of_app in Hin as [Hin|[|Hin]%elem_of_cons];
        [by apply (log_events_only _ _ Hl) in Hin|done|].
      apply elem_of_app in Hin as [Hin|Hin]; [by eapply Hw|].
      do 2 (apply elem_of_cons in Hin as [|Hin]; [done|]).
      apply elem_of_app in Hin as [Hin|Hin].
      * by apply report_logs in Hin as [?|(_ & _ & ?)].
      * repeat (apply elem_of_cons in Hin as [|Hin]; [done|]). by apply elem_of_nil in Hin.
Qed.

Lemma headers_are_stored_witness :
  EvCreateHeader HVolume {| Name := "C/"; Method := 0 |} None
    ∈ trace (Digest.main Lite.windows Examples.one_file_on_C "").1 ∧
  Method {| Name := "C/"; Method := 0 |} = zip_Store.
Proof.
  assert (EvCreateHeader HVolume {| Name := "C/"; Method := 0 |} None
            ∈ trace (Digest.main Lite.windows Examples.one_file_on_C "").1) as Hin
    by (vm_compute; repeat constructor).
  split; [exact Hin|].
  apply (headers_are_stored Lite.windows Examples.one_file_on_C "" HVolume _ None).
  by right.
Defined.

(** X15. The [.sha256] file.  The SHA-256 variant calls [os.WriteFile]
    only at the end of a run that returns, only without [-n] and only
    when [Sum] gave a non-empty digest; the call is then made once, for
    the destination's name followed by [.sha256], with the digest, two
    spaces, the base name of the destination and a newline.  With [-n],
    or after the timeout of [Sum], no file is written. *)
Theorem sha256_file_written (fp : Filepath) (env : Env) (sum : string)
    (name content : string) (err : option error) :
  EvWriteFile name content err ∈ trace (Digest.main fp env sum).1 ↔
  (Digest.main fp env sum).2 = Returned ∧ noSha256 env = false ∧ sum ≠ "" ∧
  ∃ d ds, dst_txt env = inl (d :: ds) ∧
    EvWriteFile name content err
      = EvWriteFile (d +:+ ".sha256")
          (sum +:+ "  " +:+ Base fp d +:+ String "010"%char EmptyString)
          (writeFile_err env).
Proof.
  destruct (Digest_main_shape fp env sum)
    as [(f & Hex & _ & Htr)|(sources & d & ds & logs & evs & _ & Hdst & Hl & Hev & _ &
          Hex & Htr)].
  - split; [|rewrite Hex; by intros [? _]].
    intros Hin. by apply (log_events_only _ _ Htr) in Hin.
  - rewrite Htr, Hex. split.
    + intros Hin.
      apply elem_of_app in Hin as [Hin|[|Hin]%elem_of_cons];
        [by apply (log_events_only _ _ Hl) in Hin|done|].
      apply elem_of_app in Hin as [Hin|Hin];
        [by apply (walk_events_only _ _ Hev) in Hin|].
      do 2 (apply elem_of_cons in Hin as [|Hin]; [done|]).
      apply elem_of_app in Hin as [Hin|Hin].
      * apply report_logs in Hin as [?|(Hn & Hs & Heq)]; [done|].
        rewrite Hn in *. split_and!; [done..|]. by exists d, ds.
      * repeat (apply elem_of_cons in Hin as [|Hin]; [done|]). by apply elem_of_nil in Hin.
    + intros (_ & Hn & Hs & d' & ds' & Hd' & ->). rewrite Hdst in Hd'.
      injection Hd' as <- <-. rewrite Hn.
      apply elem_of_app. right. apply elem_of_cons. right.
      apply elem_of_app. right. do 2 (apply elem_of_cons; right).
      apply elem_of_app. left. unfold Digest.report. rewrite Hn.
      rewrite bool_decide_eq_false_2 by done. simpl. set_solver.
Qed.

Lemma sha256_file_written_witness :
  let env := {| src_txt := inl ["/src"]; dst_txt := inl ["/out/a.zip"];
                os_Stat := λ _, inl {| IsDir := true; Size := 0 |};
                walk := λ _, []; create_err := None; zip_script := [];
                noSha256 := false; writeFile_err := None |} in
  EvWriteFile "/out/a.zip.sha256" ("00ff  a.zip" +:+ String "010"%char EmptyString) None
    ∈ trace (Digest.main Lite.unix env "00ff").1.
Proof.
  intros env.
  apply (sha256_file_written Lite.unix env "00ff").
  split_and!; [reflexivity|reflexivity|done|]. by exists "/out/a.zip", [].
Defined.

(** X16. Nothing is begun before the configuration stands.  When [main]
    dies of anything but an error of [addFiles] (an unreadable or empty
    [src.txt] or [dst.txt], a path that cannot be made absolute, a
    destination inside a source, a failed scan in the plain variant, a
    failed [os.Create]), the plain variant has done nothing at all and
    the SHA-256 variant has only logged. *)
Theorem early_failure_leaves_nothing (fp : Filepath) (env : Env) (sum : string)
    (f : fatal) :
  is_early_error f →
  ((Plain.main fp env).2 = Fatal f → trace (Plain.main fp env).1 = []) ∧
  ((Digest.main fp env sum).2 = Fatal f →
     Forall is_log (trace (Digest.main fp env sum).1)).
Proof.
  intros Hf. split.
  - destruct (Plain_main_shape fp env)
      as [(f' & Hex & _ & Htr)|(sources & d & ds & evs & _ & _ & Hev & _ &
            [(s & e & Hex & Htr)|(Hex & _ & Htr)])];
      rewrite Hex; [done| |done].
    intros [= <-]. done.
  - destruct (Digest_main_shape fp env sum)
      as [(f' & Hex & _ & Htr)|(sources & d & ds & logs & evs & _ & _ & Hl & Hev & _ &
            Hex & Htr)];
      by rewrite Hex.
Qed.

Lemma early_failure_leaves_nothing_witness :
  let env := {| src_txt := inl ["/src"]; dst_txt := inl ["/src/out/a.zip"];
                os_Stat := λ _, inl {| IsDir := true; Size := 0 |};
                walk := λ _, [Examples.file "/src/a" []];
                create_err := None; zip_script := [];
                noSha256 := false; writeFile_err := None |} in
  (Plain.main Lite.unix env).2 = Fatal (FatalDestInSource "/src/out/a.zip" "/src") ∧
  trace (Plain.main Lite.unix env).1 = [] ∧
  Forall is_log (trace (Digest.main Lite.unix env "").1).
Proof.
  intros env.
  destruct (early_failure_leaves_nothing Lite.unix env ""
              (FatalDestInSource "/src/out/a.zip" "/src") I) as [Hp Hd].
  split; [reflexivity|]. split; [by apply Hp|by apply Hd].
Defined.

(** X17. What the walk covers.  The walk function is entered once for
    every item [filepath.Walk] yields, in the order of the sources and of
    each walk: a run of the SHA-256 variant that gets to the archive
    enters it for every item of every source, whatever fails on the way;
    a run of the plain variant enters it for a prefix of them, and for
    all of them when it returns. *)
Theorem walk_coverage (fp : Filepath) (env : Env) (sum : string)
    (sources : list string) :
  src_txt env = inl sources →
  ((Digest.main fp env sum).2 = Returned →
     visits (trace (Digest.main fp env sum).1) = path <$> all_items env sources) ∧
  visits (trace (Plain.main fp env).1) `prefix_of` (path <$> all_items env sources) ∧
  ((Plain.main fp env).2 = Returned →
     visits (trace (Plain.main fp env).1) = path <$> all_items env sources).
Proof.
  intros Hsrc. split_and!.
  - destruct (Digest_main_shape fp env sum)
      as [(f' & Hex & _ & Htr)|(sources' & d & ds & logs & evs & Hsrc' & _ & Hl & Hev &
            Hv & Hex & Htr)];
      rewrite Hex; [done|]. intros _. rewrite Htr.
    rewrite Hsrc in Hsrc'. injection Hsrc' as <-.
    assert (∀ rep, visits (Digest.report fp env rep d) = []) as Hrep.
    { intros rep. unfold Digest.report. by repeat case_match. }
    rewrite visits_app, (visits_logs _ Hl).
    change (visits (EvCreate d :: ?l)) with (visits l).
    rewrite !visits_app, Hv, Hrep. simpl. by rewrite app_nil_r.
  - destruct (Plain_main_shape fp env)
      as [(f' & Hex & _ & Htr)|(sources' & d & ds & evs & Hsrc' & _ & Hev & Hpre &
            [(s & e & Hex & Htr)|(Hex & Hv & Htr)])];
      rewrite Htr; [apply prefix_nil|..];
      rewrite Hsrc in Hsrc'; injection Hsrc' as <-;
      change (visits (EvCreate d :: ?l)) with (visits l); [done|].
    rewrite visits_app. simpl. by rewrite app_nil_r.
  - destruct (Plain_main_shape fp env)
      as [(f' & Hex & _ & Htr)|(sources' & d & ds & evs & Hsrc' & _ & Hev & Hpre &
            [(s & e & Hex & Htr)|(Hex & Hv & Htr)])];
      rewrite Hex; [done..|]. intros _. rewrite Htr.
    rewrite Hsrc in Hsrc'. injection Hsrc' as <-.
    change (visits (EvCreate d :: ?l)) with (visits l).
    rewrite visits_app. simpl. by rewrite app_nil_r.
Qed.

Lemma walk_coverage_witness :
  visits (trace (Digest.main Lite.unix Examples.read_error "").1)
    = ["/src/a.txt"; "/src/b.txt"] ∧
  visits (trace (Plain.main Lite.unix Examples.read_error).1) = ["/src/a.txt"] ∧
  visits (trace (Plain.main Lite.unix Examples.read_error).1)
    `prefix_of` ["/src/a.txt"; "/src/b.txt"].
Proof.
  destruct (walk_coverage Lite.unix Examples.read_error "" ["/src"] eq_refl)
    as (Hd & Hp & _).
  split; [by apply Hd|]. split; [reflexivity|exact Hp].
Defined.

(** ** Configuration files, the pause flag and the progress line *)

Section StringFacts.
Implicit Types (s t : string) (c : ascii).

Lemma length_append s t : String.length (s +:+ t) = String.length s + String.length t.
Proof. induction s as [|a s IH]; [done|]. rewrite append_cons. simpl. by rewrite IH. Qed.

Lemma rev_app_append s t acc :
  String.rev_app (s +:+ t) acc = String.rev_app t (String.rev_app s acc).
Proof.
  revert acc. induction s as [|a s IH]; intros acc; [done|].
  rewrite append_cons. simpl. apply IH.
Qed.

Lemma rev_app_acc s acc : String.rev_app s acc = String.rev s +:+ acc.
Proof.
  unfold String.rev. revert acc. induction s as [|a s IH]; intros acc; [done|].
  simpl. rewrite IH, (IH (String a "")), append_assoc. done.
Qed.

Lemma rev_append s t : String.rev (s +:+ t) = String.rev t +:+ String.rev s.
Proof. unfold String.rev at 1. by rewrite rev_app_append, rev_app_acc. Qed.

Lemma rev_involutive s : String.rev (String.rev s) = s.
Proof.
  induction s as [|a s IH]; [done|].
  change (String a s) with (String a "" +:+ s) at 1.
  rewrite rev_append, rev_append. simpl. by rewrite IH.
Qed.

Lemma HasSuffix_slash s : HasSuffix (s +:+ "/") "/" = true.
Proof.
  unfold HasSuffix. by rewrite rev_append.
Qed.

Lemma trimLeftByte_spec s c :
  HasPrefix (trimLeftByte s c) (String c "") = false ∧
  ∃ pre, s = pre +:+ trimLeftByte s c.
Proof.
  induction s as [|d s [IH1 [pre IH2]]]; simpl.
  - split; [done|]. by exists "".
  - case_bool_decide as Hd.
    + split; [done|]. exists (String d pre). by rewrite append_cons, <- IH2.
    + split; [|by exists ""]. simpl. rewrite bool_decide_eq_false_2; [done|congruence].
Qed.
End StringFacts.

Section TrimFacts.
Implicit Types (s t : string) (c : ascii).

Lemma rev_empty s : String.rev s = "" → s = "".
Proof. intros H. by rewrite <- (rev_involutive s), H. Qed.

Lemma HasSuffix_nonempty pre s c :
  s ≠ "" → HasSuffix (pre +:+ s) (String c "") = HasSuffix s (String c "").
Proof.
  intros Hs. unfold HasSuffix. rewrite rev_append.
  destruct (String.rev s) as [|a r] eqn:Hr; [by apply rev_empty in Hr|].
  by rewrite append_cons.
Qed.

Lemma trimRightByte_spec s c : HasSuffix (trimRightByte s c) (String c "") = false.
Proof.
  unfold HasSuffix, trimRightByte. rewrite rev_involutive.
  apply trimLeftByte_spec.
Qed.

Lemma Trim_spec s c :
  HasPrefix (Trim s c) (String c "") = false ∧ HasSuffix (Trim s c) (String c "") = false.
Proof.
  unfold Trim. case_bool_decide as Hs; [by subst|].
  destruct (trimLeftByte_spec (trimRightByte s c) c) as [Hp [pre Hpre]].
  split; [done|].
  destruct (decide (trimLeftByte (trimRightByte s c) c = "")) as [->|Hne]; [done|].
  rewrite <- (HasSuffix_nonempty pre) by done. rewrite <- Hpre.
  apply trimRightByte_spec.
Qed.

Lemma substring_all s : String.substring 0 (String.length s) s = s.
Proof. induction s as [|a s IH]; simpl; [done|by rewrite IH]. Qed.

Lemma substring_tail n : ∀ s,
  n ≤ String.length s →
  ∃ pre, s = pre +:+ String.substring n (String.length s - n) s ∧
         String.length pre = n ∧
         String.length (String.substring n (String.length s - n) s) = String.length s - n.
Proof.
  induction n as [|n IH]; intros s Hn.
  - exists "". rewrite Nat.sub_0_r, substring_all. split_and!; [done..|lia].
  - destruct s as [|a s]; simpl in Hn; [lia|].
    destruct (IH s ltac:(lia)) as (pre & Hs & Hl & Hl').
    exists (String a pre). simpl. rewrite append_cons, <- Hs, Hl. done.
Qed.
End TrimFacts.

Section ReadLinesFacts.
Import ReadLines.
Variable TrimSpace : string → string.

Lemma scan_loop_spec scanned : ∀ lines,
  scan_loop TrimSpace lines scanned
  = lines ++ filter (λ l, l ≠ "") ((λ text, Trim (TrimSpace text) quote) <$> scanned).
Proof.
  induction scanned as [|text rest IH]; intros lines; simpl.
  - by rewrite app_nil_r.
  - rewrite filter_cons. case_bool_decide as Hl; simpl.
    + rewrite decide_False by (by rewrite Hl; intros ?).
      apply IH.
    + rewrite decide_True by done. by rewrite IH, <- app_assoc.
Qed.
End ReadLinesFacts.

(** X18. What [readLines] returns.  Whatever the file holds and whatever
    [strings.TrimSpace] does, every line returned is the trimmed form of
    a line scanned, is not empty, and neither begins nor ends with a
    double quote; when the file cannot be opened no line is returned,
    and an error of the scanner is returned along with the lines read
    before it. *)
Theorem readLines_lines (TrimSpace : string → string) (open_err : option error)
    (scanned : list string) (scan_err : option error) (line : string) :
  line ∈ (ReadLines.readLines TrimSpace open_err scanned scan_err).1 →
  open_err = None ∧
  (ReadLines.readLines TrimSpace open_err scanned scan_err).2 = scan_err ∧
  line ≠ "" ∧ HasPrefix line (String quote "") = false ∧
  HasSuffix line (String quote "") = false ∧
  ∃ text, text ∈ scanned ∧ line = Trim (TrimSpace text) quote.
Proof.
  unfold ReadLines.readLines. destruct open_err as [e|]; simpl.
  { intros H. by apply elem_of_nil in H. }
  rewrite scan_loop_spec. simpl.
  intros [Hne (text & -> & Hin)%list_elem_of_fmap]%list_elem_of_filter.
  split_and!; [done..|apply Trim_spec|apply Trim_spec|by exists text].
Qed.

Lemma readLines_lines_witness :
  let trim := λ s, trimLeftByte (trimRightByte s " "%char) " "%char in
  let scanned := [String quote ("/data/my files" +:+ String quote " ");
                  "   "; String quote (String quote "");
                  String quote (" " +:+ String quote ""); "/src"] in
  (ReadLines.readLines trim None scanned None).1 = ["/data/my files"; " "; "/src"] ∧
  "/src" ≠ "" ∧ HasPrefix "/src" (String quote "") = false ∧
  HasSuffix "/src" (String quote "") = false.
Proof.
  intros trim scanned. split; [reflexivity|].
  assert ("/src" ∈ (ReadLines.readLines trim None scanned None).1) as Hin
    by (vm_compute; repeat constructor).
  destruct (readLines_lines _ _ _ _ _ Hin) as (_ & _ & H1 & H2 & H3 & _). done.
Defined.

(** X19. A configuration file that gives nothing.  [main] looks at the
    error of [readLines] before the lines: when [src.txt] cannot be
    opened, or the scanner fails, be it after lines that were read well,
    both variants die of the read error; when the file is read without
    error and every line trims to the empty string, they die of the
    empty list.  In both cases nothing has been done. *)
Theorem unusable_src_txt (fp : Filepath) (env : Env) (sum : string)
    (TrimSpace : string → string) (open_err : option error)
    (scanned : list string) (scan_err : option error) :
  src_txt env
    = ReadLines.checked (ReadLines.readLines TrimSpace open_err scanned scan_err) →
  (∀ e, open_err = Some e ∨ (open_err = None ∧ scan_err = Some e) →
     Plain.main fp env = (world0 env, Fatal (FatalSrcRead e)) ∧
     Digest.main fp env sum = (world0 env, Fatal (FatalSrcRead e))) ∧
  (open_err = None → scan_err = None →
   Forall (λ text, Trim (TrimSpace text) quote = "") scanned →
     Plain.main fp env = (world0 env, Fatal FatalSrcEmpty) ∧
     Digest.main fp env sum = (world0 env, Fatal FatalSrcEmpty)).
Proof.
  intros Hsrc. split.
  - intros e [->|[-> ->]]; unfold Plain.main, Digest.main; by rewrite Hsrc.
  - intros -> -> Hall. unfold ReadLines.checked, ReadLines.readLines in Hsrc.
    simpl in Hsrc. rewrite scan_loop_spec in Hsrc. simpl in Hsrc.
    assert (filter (λ l, l ≠ "") ((λ text, Trim (TrimSpace text) quote) <$> scanned) = [])
      as Hnil.
    { clear Hsrc. induction Hall as [|text rest Ht _ IH]; [done|]. simpl.
      rewrite filter_cons, decide_False by (by rewrite Ht; intros ?). done. }
    rewrite Hnil in Hsrc. unfold Plain.main, Digest.main. by rewrite Hsrc.
Qed.

Lemma unusable_src_txt_witness :
  let scanned := ["/src"; String quote (String quote "")] in
  let env1 := {| src_txt := ReadLines.checked
                   (ReadLines.readLines (λ s, s) None scanned (Some (Err "EIO")));
                 dst_txt := inl ["/out/a.zip"];
                 os_Stat := λ _, inr (Err "ENOENT"); walk := λ _, [];
                 create_err := None; zip_script := []; noSha256 := false;
                 writeFile_err := None |} in
  let env2 := {| src_txt := ReadLines.checked
                   (ReadLines.readLines (λ s, s) None [String quote (String quote "")] None);
                 dst_txt := inl ["/out/a.zip"];
                 os_Stat := λ _, inr (Err "ENOENT"); walk := λ _, [];
                 create_err := None; zip_script := []; noSha256 := false;
                 writeFile_err := None |} in
  Plain.main Lite.unix env1 = (world0 env1, Fatal (FatalSrcRead (Err "EIO"))) ∧
  Digest.main Lite.unix env2 "" = (world0 env2, Fatal FatalSrcEmpty).
Proof.
  intros scanned env1 env2. split.
  - destruct (unusable_src_txt Lite.unix env1 "" (λ s, s) None scanned
                (Some (Err "EIO")) eq_refl) as [H _].
    by destruct (H (Err "EIO") (or_intror (conj eq_refl eq_refl))).
  - destruct (unusable_src_txt Lite.unix env2 "" (λ s, s) None
                [String quote (String quote "")] None eq_refl) as [_ H].
    destruct (H eq_refl eq_refl) as [_ Hd]; [|exact Hd].
    by repeat constructor.
Defined.

(** X20. The pause flag counts key presses.  The keyboard goroutine
    calls [Toggle] once for every line it reads: after [n] of them on a
    fresh controller the flag is set exactly when [n] is odd, and
    [WaitIfPaused] returns exactly when [n] is even. *)
Theorem PauseController_parity (n : nat) :
  let pc := Nat.iter n PauseController.Toggle PauseController.NewPauseController in
  PauseController.IsPaused pc = Nat.odd n ∧
  PauseController.WaitIfPaused_returns pc = Nat.even n.
Proof.
  intros pc.
  assert (PauseController.paused pc = if Nat.odd n then 1%Z else 0%Z) as Hp.
  { unfold pc. induction n as [|n IH]; [done|].
    rewrite Nat.odd_succ, <- Nat.negb_odd.
    change (Nat.iter (S n) ?f ?x) with (f (Nat.iter n f x)).
    unfold PauseController.Toggle at 1. rewrite IH. by destruct (Nat.odd n). }
  unfold PauseController.IsPaused, PauseController.WaitIfPaused_returns.
  rewrite Hp, <- Nat.negb_odd. by destruct (Nat.odd n).
Qed.

Section PausingMore.
Import Pausing.

Lemma run_produce_all : ∀ s,
  PauseController.WaitIfPaused_returns (pc s) = true →
  run s (replicate (length (todo s)) Produce)
  = Some {| pc := pc s; todo := []; done := done s ++ todo s |}.
Proof.
  intros [p td dn]. revert dn. simpl. induction td as [|e td IH]; intros dn Hp; simpl.
  - by rewrite app_nil_r.
  - simpl in Hp. rewrite Hp, andb_false_r. rewrite IH by done.
    by rewrite <- app_assoc.
Qed.
End PausingMore.

(** X21. A paused run can always be resumed, and pausing loses nothing.
    In every interleaving of key presses with the archiving goroutine,
    what is done and what is left make up the trace in its order; and
    from every state the run can be completed: after one more [Toggle] if
    the flag is set, the goroutine performs all that is left. *)
Theorem pause_can_be_resumed (tr : list event) (acts : list Pausing.action)
    (s : Pausing.sys) :
  Pausing.run (Pausing.start tr) acts = Some s →
  Pausing.done s ++ Pausing.todo s = tr ∧
  ∃ s',
    Pausing.run s
      ((if PauseController.IsPaused (Pausing.pc s) then [Pausing.Toggle] else [])
       ++ replicate (length (Pausing.todo s)) Pausing.Produce) = Some s' ∧
    Pausing.todo s' = [] ∧ Pausing.done s' = tr.
Proof.
  intros Hr. apply run_conserves in Hr. simpl in Hr. split; [done|].
  destruct (PauseController.IsPaused (Pausing.pc s)) eqn:Hp.
  - simpl.
    pose proof (run_produce_all
      {| Pausing.pc := PauseController.Toggle (Pausing.pc s);
         Pausing.todo := Pausing.todo s; Pausing.done := Pausing.done s |}) as Hall.
    simpl in Hall. rewrite Hall; [by eexists|].
    unfold PauseController.IsPaused in Hp. apply bool_decide_eq_true in Hp.
    unfold PauseController.Toggle, PauseController.WaitIfPaused_returns.
    by rewrite Hp.
  - simpl. rewrite run_produce_all; [by eexists|].
    unfold PauseController.WaitIfPaused_returns, PauseController.IsPaused in *.
    by rewrite Hp.
Qed.

Lemma pause_can_be_resumed_witness :
  let tr := trace (Plain.main Lite.unix Examples.one_file).1 in
  ∃ s s',
    Pausing.run (Pausing.start tr)
      [Pausing.Produce; Pausing.Produce; Pausing.Toggle] = Some s ∧
    PauseController.IsPaused (Pausing.pc s) = true ∧
    Pausing.run s (Pausing.Toggle :: replicate 14 Pausing.Produce) = Some s' ∧
    Pausing.todo s' = [] ∧ Pausing.done s' = tr.
Proof.
  intros tr.
  destruct (Pausing.run (Pausing.start tr)
              [Pausing.Produce; Pausing.Produce; Pausing.Toggle]) as [s|] eqn:Hr;
    [|by vm_compute in Hr].
  exists s.
  destruct (pause_can_be_resumed _ _ _ Hr) as (_ & s' & Hr' & Ht & Hd).
  assert (PauseController.IsPaused (Pausing.pc s) = true
          ∧ length (Pausing.todo s) = 14) as [Hp Hl].
  { pose proof Hr as H. vm_compute in H. by injection H as <-. }
  rewrite Hp, Hl in Hr'. by exists s'.
Defined.

(** X22. The path in the progress description.  The path shown is never
    longer than 16 bytes: a path of at most 16 bytes is shown as it is,
    a longer one as three dots followed by its last 13 bytes. *)
Theorem shown_path_fits (filePath : string) :
  String.length (shown_path filePath) ≤ maxPathLen ∧
  (String.length filePath ≤ maxPathLen → shown_path filePath = filePath) ∧
  (maxPathLen < String.length filePath →
     ∃ pre suf, filePath = pre +:+ suf ∧ String.length suf = 13 ∧
                shown_path filePath = "..." +:+ suf).
Proof.
  unfold shown_path, maxPathLen. case_decide as Hlen.
  - destruct (substring_tail (String.length filePath - 16 + 3) filePath ltac:(lia))
      as (pre & Hs & Hl & Hl').
    split_and!; [rewrite length_append, Hl'; simpl; lia|lia|].
    intros _. eexists pre, _. split_and!; [exact Hs|lia|done].
  - split_and!; [lia|done|lia].
Qed.

Lemma shown_path_fits_witness :
  shown_path "docs/reports/2024/summary.txt" = "...4/summary.txt" ∧
  ∃ pre suf, "docs/reports/2024/summary.txt" = pre +:+ suf ∧ String.length suf = 13 ∧
             shown_path "docs/reports/2024/summary.txt" = "..." +:+ suf.
Proof.
  split; [reflexivity|].
  destruct (shown_path_fits "docs/reports/2024/summary.txt") as (_ & _ & H).
  apply H. vm_compute. lia.
Defined.

(** X23. Directory entries.  For an item that is a directory, the walk
    function of either variant opens, reads and writes nothing, and the
    name of the header it creates for the entry ends in a slash. *)
Theorem directory_entries (fp : Filepath) (basePath baseDir : string)
    (it : WalkItem) (w : world) :
  IsDir (info it) = true →
  Forall is_dir_event (emitted (Plain.walkFn fp basePath baseDir it) w) ∧
  Forall is_dir_event (emitted (Digest.walkFn fp it) w).
Proof.
  intros HisDir. split; apply emitted_wp.
  - unfold Plain.walkFn. rewrite HisDir. simpl negb. cbv iota. wp_steps.
    destruct (walk_err it); wp_steps;
      [|destruct (header_err it); wp_steps;
        [|destruct (Rel fp baseDir (path it)); wp_steps;
          [destruct (next w); wp_steps|]]].
    all: solve_emitted; repeat constructor; apply HasSuffix_slash.
  - digest_walk_cases w.
    all: try (rewrite HisDir in Hdir; done).
    all: solve_emitted; repeat constructor; rewrite ?HisDir; try apply HasSuffix_slash.
Qed.

Lemma directory_entries_witness :
  Forall is_dir_event
    (emitted (Digest.walkFn Lite.windows (Examples.dir "C:\data"))
       (world0 Examples.one_file_on_C)) ∧
  emitted (Digest.walkFn Lite.windows (Examples.dir "C:\data"))
    (world0 Examples.one_file_on_C)
  = [EvVisit "C:\data"; EvWaitIfPaused;
     EvCreateHeader HVolume {| Name := "C/"; Method := 0 |} None;
     EvCreateHeader HEntry {| Name := "C/data/"; Method := 0 |} None].
Proof.
  split; [|reflexivity].
  by apply (directory_entries Lite.windows "" "" (Examples.dir "C:\data")
              (world0 Examples.one_file_on_C)).
Defined.

Lemma entry_headers_app l1 l2 :
  entry_headers (l1 ++ l2) = entry_headers l1 ++ entry_headers l2.
Proof. apply omap_app. Qed.

Lemma entry_headers_copy evs : Forall is_copy_event evs → entry_headers evs = [].
Proof.
  induction 1 as [|e evs He _ IH]; [done|]. destruct e; try done; exact IH.
Qed.

(** X24. A source that is a file.  When a line of [src.txt] names a file,
    the plain variant stores it at the root of the archive: the walk
    consists of that one file, and the only header tried for it is named
    by the base name of its path. *)
Theorem single_file_source (fp : Filepath) (env : Env) (basePath rel : string)
    (it : WalkItem) (i : FileInfo) (w : world) :
  os_Stat env basePath = inl i → IsDir i = false →
  walk env basePath = [it] → path it = basePath → IsDir (info it) = false →
  walk_err it = None → header_err it = None →
  Rel fp (Dir fp basePath) basePath = inl rel →
  entry_headers (emitted (Plain.addFiles fp env basePath) w)
    = [ToSlash fp (Base fp basePath)].
Proof.
  intros Hst Hfile Hwalk Hpath HisDir Hwe Hhe Hrel.
  assert (emitted (Plain.addFiles fp env basePath) w
          = emitted (Plain.walkFn fp basePath (Dir fp basePath) it) w) as ->.
  { unfold emitted, Plain.addFiles. rewrite Hst, Hfile, Hwalk. simpl.
    by destruct (Plain.walkFn fp basePath (Dir fp basePath) it w) as [w' [[]|[e|]]]. }
  apply (emitted_wp _ (λ evs, entry_headers evs = _)).
  unfold Plain.walkFn, Plain.rootFile. rewrite Hwe, Hhe, Hpath, Hrel, HisDir.
  rewrite !bool_decide_eq_true_2 by done. simpl negb. cbv iota. simpl andb. cbv iota.
  wp_steps. destruct (next w); wp_steps; [by solve_emitted|].
  destruct (open_err it); wp_steps; [by solve_emitted|].
  eapply wp_mono; [|apply Plain_copyLoop_quiet]. cbv beta.
  intros w' _ (evs & Htr & Hevs & _). norm_trace.
  eexists. split; [rewrite Htr; norm_trace; reflexivity|].
  change (entry_headers (?a :: ?b :: ?c :: ?d :: evs))
    with (entry_headers [a; b; c; d] ++ entry_headers evs).
  by rewrite (entry_headers_copy _ Hevs).
Qed.

Lemma single_file_source_witness :
  let it := Examples.file "/src/a.txt" [([x01], None)] in
  let env := {| src_txt := inl ["/src/a.txt"]; dst_txt := inl ["/out/a.zip"];
                os_Stat := λ _, inl {| IsDir := false; Size := 1 |};
                walk := λ _, [it]; create_err := None; zip_script := [];
                noSha256 := false; writeFile_err := None |} in
  entry_headers (emitted (Plain.addFiles Lite.unix env "/src/a.txt") (world0 env))
    = ["a.txt"].
Proof.
  intros it env.
  by apply (single_file_source Lite.unix env "/src/a.txt" "a.txt" it
              {| IsDir := false; Size := 1 |} (world0 env)).
Defined.

(** ** crypto/sha256: the test vectors of FIPS 180-4 *)

Lemma Sum256_abc :
  hex_EncodeToString (SHA256.Sum256 (ascii_bytes "abc"))
  = "ba7816bf8f01cfea414140de5dae2223b00361a396177a9cb410ff61f20015ad".
Proof. vm_compute. reflexivity. Qed.

Lemma Sum256_empty :
  hex_EncodeToString (SHA256.Sum256 [])
  = "e3b0c44298fc1c149afbf4c8996fb92427ae41e4649b934ca495991b7852b855".
Proof. vm_compute. reflexivity. Qed.

Lemma Sum256_two_blocks :
  hex_EncodeToString
    (SHA256.Sum256 (ascii_bytes "abcdbcdecdefdefgefghfghighijhijkijkljklmklmnlmnomnopnopq"))
  = "248d6a61d20638b8e5c026930c3e6039a33ce45964ff2167f6ecedd419db06c1".
Proof. vm_compute. reflexivity. Qed.

(** ** The digest stage: what is hashed and what is on the sink *)

Section AsyncSHA256WriterSinkFacts.
Import AsyncSHA256Writer AsyncSHA256WriterDirect AsyncSHA256WriterSink.

Variable sha256 : list byte → list byte.

Local Abbreviation step := (AsyncSHA256Writer.step (W:=File) sha256).
Local Abbreviation run := (AsyncSHA256Writer.run (W:=File) sha256).

Implicit Types (s : sys File) (l : list event) (tr : list action).

Lemma File_Write_stored f p :
  stored (File_Write f p).1 = stored f ++ slice p 0 (File_Write f p).2.1.
Proof.
  unfold File_Write, slice. rewrite drop_0, Nat.sub_0_r.
  destruct (faults f) as [|[[k e]|] rest]; simpl; try done.
  all: by rewrite firstn_all.
Qed.

Lemma accepted_app l1 l2 : accepted (l1 ++ l2) = accepted l1 ++ accepted l2.
Proof.
  induction l1 as [|[p n e| |r] l1 IH]; simpl; rewrite ?IH, ?app_assoc; done.
Qed.

Lemma accepted_filter l : accepted (filter is_write l) = accepted l.
Proof.
  induction l as [|[p n e| |r] l IH]; try done.
  rewrite filter_cons. simpl. by rewrite IH.
Qed.

Lemma step_accepted act s s' :
  step act s = Some s' →
  stored (writer (asw s)) = accepted (log s) →
  stored (writer (asw s')) = accepted (log s').
Proof.
  intros Hs Hst. apply step_device in Hs.
  destruct act; destruct Hs as [Hw Hl]; rewrite Hw.
  2-10: by rewrite <- (accepted_filter (log s')), Hl, accepted_filter.
  rewrite Hl, accepted_app, File_Write_stored, Hst. simpl. by rewrite app_nil_r.
Qed.

Lemma run_accepted tr : ∀ s s',
  run s tr = Some s' →
  stored (writer (asw s)) = accepted (log s) →
  stored (writer (asw s')) = accepted (log s').
Proof.
  induction tr as [|act tr IH]; intros s s'; simpl.
  - by intros [= <-].
  - destruct (step act s) as [s1|] eqn:Hs; [|done]. intros Hr Hst.
    eapply IH; [done|]. by eapply step_accepted.
Qed.

Lemma written_ok_accepted l : clean_failures l → written_ok l = accepted l.
Proof.
  induction l as [|[p n [e|]| |r] l IH]; intros Hc; simpl.
  - done.
  - rewrite (Hc p n e) by constructor. simpl.
    apply IH. intros p' n' e' Hin. eapply Hc. by constructor.
  - f_equal. apply IH. intros p' n' e' Hin. eapply Hc. by constructor.
  - apply IH. intros p' n' e' Hin. eapply Hc. by constructor.
  - apply IH. intros p' n' e' Hin. eapply Hc. by constructor.
Qed.

Lemma digest_written_ok fs ps tr s r :
  run (NewAsyncSHA256Writer (newFile fs)) tr = Some s →
  calls tr = (AWrite <$> ps) ++ [ASum] →
  EvSum r ∈ log s →
  r ≠ "" →
  r = hex_EncodeToString (sha256 (written_ok (log s))).
Proof.
  intros Hrun Hcalls Hin Hne.
  pose proof (Inv_run sha256 _ _ _ (Inv_init sha256 (newFile fs)) Hrun) as HI.
  rewrite <- (fed_written_ok sha256 _ _ _ _ Hrun Hcalls).
  by destruct (inv_sum _ _ HI r Hin).
Qed.
End AsyncSHA256WriterSinkFacts.

(** C2. The digest.  The caller makes the calls [Write p1; ...;
    Write pk; Sum()] on a fresh stage over the device; the worker and the
    clock interleave in any way.  If [Sum] returns a non-empty string, that
    string is the hex encoding of the SHA-256 digest of the concatenation,
    in call order, of [p[:n]] for every [Write] that the underlying writer
    answered with [(n, nil)].  The sink holds [p[:n]] of every [Write],
    answered with an error or not; so the digest is that of the content
    of the sink when no failing [Write] had put bytes on it. *)
Theorem AsyncSHA256Writer_digest (sha256 : list byte → list byte)
    (fs : list (option (nat * error)))
    (ps : list (list byte)) (tr : list AsyncSHA256Writer.action)
    (s : AsyncSHA256Writer.sys File) (r : string) :
  AsyncSHA256Writer.run sha256
    (AsyncSHA256Writer.NewAsyncSHA256Writer (newFile fs)) tr = Some s →
  AsyncSHA256Writer.calls tr
    = (AsyncSHA256Writer.AWrite <$> ps) ++ [AsyncSHA256Writer.ASum] →
  AsyncSHA256Writer.EvSum r ∈ AsyncSHA256Writer.log s →
  r ≠ "" →
  r = hex_EncodeToString
        (sha256 (AsyncSHA256Writer.written_ok (AsyncSHA256Writer.log s))) ∧
  stored (AsyncSHA256Writer.writer (AsyncSHA256Writer.asw s))
    = AsyncSHA256WriterSink.accepted (AsyncSHA256Writer.log s) ∧
  (AsyncSHA256WriterSink.clean_failures (AsyncSHA256Writer.log s) →
   r = hex_EncodeToString
         (sha256 (stored (AsyncSHA256Writer.writer (AsyncSHA256Writer.asw s))))).
Proof.
  intros Hrun Hcalls Hin Hne.
  pose proof (digest_written_ok sha256 _ _ _ _ _ Hrun Hcalls Hin Hne) as Hr.
  pose proof (run_accepted sha256 _ _ _ Hrun eq_refl) as Hst.
  split_and!; [done..|].
  intros Hc. by rewrite Hst, <- written_ok_accepted.
Qed.

Lemma AsyncSHA256Writer_digest_witness :
  let tr := [AsyncSHA256Writer.AWrite [x01; x02]; AsyncSHA256Writer.ASend;
             AsyncSHA256Writer.AWrite [x03]; AsyncSHA256Writer.AWorkerData;
             AsyncSHA256Writer.AWrite [x04]; AsyncSHA256Writer.ASend;
             AsyncSHA256Writer.ATick 5; AsyncSHA256Writer.ASum;
             AsyncSHA256Writer.AWorkerData; AsyncSHA256Writer.ASend;
             AsyncSHA256Writer.AWorkerData; AsyncSHA256Writer.ARecv] in
  let r := "d4b29a968c40173638ded8d174c86957afa211be479cee020dba5dfe127d91ca" in
  ∃ s,
    AsyncSHA256Writer.run SHA256.Sum256
      (AsyncSHA256Writer.NewAsyncSHA256Writer (newFile [None; Some (0, Err "EIO")]))
      tr = Some s ∧
    AsyncSHA256Writer.calls tr
      = (AsyncSHA256Writer.AWrite <$> [[x01; x02]; [x03]; [x04]])
        ++ [AsyncSHA256Writer.ASum] ∧
    AsyncSHA256Writer.EvSum r ∈ AsyncSHA256Writer.log s ∧
    r ≠ "" ∧
    AsyncSHA256WriterSink.clean_failures (AsyncSHA256Writer.log s) ∧
    stored (AsyncSHA256Writer.writer (AsyncSHA256Writer.asw s)) = [x01; x02; x04] ∧
    r = hex_EncodeToString
          (SHA256.Sum256 (stored (AsyncSHA256Writer.writer (AsyncSHA256Writer.asw s)))).
Proof.
  intros tr r.
  destruct (AsyncSHA256Writer.run SHA256.Sum256
      (AsyncSHA256Writer.NewAsyncSHA256Writer (newFile [None; Some (0, Err "EIO")]))
      tr) as [s|] eqn:Hrun; [|by vm_compute in Hrun].
  exists s.
  assert (AsyncSHA256Writer.calls tr
      = (AsyncSHA256Writer.AWrite <$> [[x01; x02]; [x03]; [x04]])
        ++ [AsyncSHA256Writer.ASum]) as Hcalls by reflexivity.
  assert (AsyncSHA256Writer.EvSum r ∈ AsyncSHA256Writer.log s ∧
          AsyncSHA256WriterSink.clean_failures (AsyncSHA256Writer.log s) ∧
          stored (AsyncSHA256Writer.writer (AsyncSHA256Writer.asw s))
            = [x01; x02; x04]) as (Hin & Hc & Hst).
  { pose proof Hrun as Hs. vm_compute in Hs. injection Hs as <-. clear Hrun.
    split; [|split; [|reflexivity]].
    - subst r. simpl. repeat constructor.
    - intros p n e Hp. simpl in Hp. set_solver. }
  destruct (AsyncSHA256Writer_digest SHA256.Sum256 _ _ _ _ _ Hrun Hcalls Hin
              ltac:(done)) as (_ & _ & Hsink).
  split_and!; [done|exact Hcalls|exact Hin|done|exact Hc|exact Hst|by apply Hsink].
Defined.

(** A [Write] that fails after the device took one byte: the byte is on
    the sink and not in the digest. *)
Lemma AsyncSHA256Writer_digest_counterexample :
  ¬ AsyncSHA256WriterSink.digest_of_sink SHA256.Sum256.
Proof.
  intros H.
  pose (tr := [AsyncSHA256Writer.AWrite [x01]; AsyncSHA256Writer.ASend;
               AsyncSHA256Writer.AWrite [x03; x05];
               AsyncSHA256Writer.AWrite [x04]; AsyncSHA256Writer.ASend;
               AsyncSHA256Writer.ASum; AsyncSHA256Writer.ASend;
               AsyncSHA256Writer.AWorkerData; AsyncSHA256Writer.AWorkerData;
               AsyncSHA256Writer.AWorkerData; AsyncSHA256Writer.ARecv]).
  pose (r := "a8d5dd63fba471ebcb1f3e8f7c1e1879b7152a6e7298a91ce119a63400ade7c5").
  destruct (AsyncSHA256Writer.run SHA256.Sum256
      (AsyncSHA256Writer.NewAsyncSHA256Writer
         (newFile [None; Some (1, Err "EIO"); None])) tr)
    as [s|] eqn:Hrun; [|by vm_compute in Hrun].
  specialize (H [None; Some (1, Err "EIO"); None] [[x01]; [x03; x05]; [x04]]
                tr s r Hrun eq_refl).
  vm_compute in Hrun. injection Hrun as <-.
  specialize (H ltac:(simpl; repeat constructor) ltac:(done)).
  by vm_compute in H.
Qed.

(** ** The timeout of [Sum] and what [main] makes of it *)





(** ** Monitors along a run *)

Section MonitorFacts.
Context {Q : Type}.
Variable δ : Q → event → option Q.
Variable q0 : Q.

Lemma monitor_app q l1 l2 :
  monitor δ q (l1 ++ l2) = monitor δ q l1 ≫= λ q', monitor δ q' l2.
Proof.
  revert q. induction l1 as [|e l1 IH]; intros q; simpl; [done|].
  destruct (δ q e); [apply IH|done].
Qed.

Lemma state_add_event w e :
  state δ q0 (add_event w e) = state δ q0 w ≫= λ q, δ q e.
Proof.
  unfold state. simpl. rewrite monitor_app. destruct (monitor δ q0 (trace w)); simpl; [|done].
  by destruct (δ _ e).
Qed.

Lemma state_pop w : state δ q0 (pop w) = state δ q0 w.
Proof. done. Qed.

Lemma state_set_created w d : state δ q0 (Digest.set_created w d) = state δ q0 w.
Proof. done. Qed.

Lemma state_emit_all w es :
  state δ q0 (Plain.emit_all es w) = state δ q0 w ≫= λ q, monitor δ q es.
Proof. unfold state. simpl. apply monitor_app. Qed.
End MonitorFacts.

Lemma emit_all_nil w : Plain.emit_all [] w = w.
Proof. destruct w. unfold Plain.emit_all. simpl. by rewrite app_nil_r. Qed.

Lemma emit_all_cons e es w :
  Plain.emit_all (e :: es) w = Plain.emit_all es (add_event w e).
Proof. unfold Plain.emit_all, add_event. simpl. by rewrite <- app_assoc. Qed.

Lemma emit_all_inv (J : world → Prop) es : ∀ w,
  (∀ e w, is_main_event e → J w → J (add_event w e)) →
  Forall is_main_event es → J w → J (Plain.emit_all es w).
Proof.
  induction es as [|e es IH]; intros w Hadd Hes Hw.
  - by rewrite emit_all_nil.
  - apply Forall_cons in Hes as [He Hes]. rewrite emit_all_cons. apply IH; auto.
Qed.

Lemma report_main_events fp env sum d : Forall is_main_event (Digest.report fp env sum d).
Proof. unfold Digest.report. repeat case_match; by repeat constructor. Qed.

(** An invariant of the walk functions and of the events of [main]
    holds at the end of a run. *)
Lemma Plain_main_inv fp env (J : world → Prop) :
  J (world0 env) →
  (∀ basePath baseDir it w,
     J w → wp (Plain.walkFn fp basePath baseDir it) (λ w' _, J w') w) →
  (∀ e w, is_main_event e → J w → J (add_event w e)) →
  J (Plain.main fp env).1.
Proof.
  intros H0 Hfn Hadd.
  assert (∀ sources w, J w → J (Plain.addAll fp env sources w).1) as Hall.
  { induction sources as [|x xs IH]; intros w Hw; simpl; [done|].
    unfold Plain.addFiles. destruct (os_Stat env x) as [i|]; [|done].
    pose proof (Walk_inv J _ (walk env x)
                  (Hfn x (if IsDir i then x else Dir fp x)) w Hw) as H.
    destruct (Walk _ _ w) as [w' [e|]]; simpl in *; auto. }
  assert (∀ sources w, J w → J (Plain.scan env sources w).1) as Hscan.
  { assert (∀ it w, J w → wp (Plain.scanFn it) (λ w' _, J w') w) as Hs.
    { intros it w Hw. unfold Plain.scanFn. by destruct (walk_err it). }
    induction sources as [|x xs IH]; intros w Hw; simpl; [done|].
    pose proof (Walk_inv J _ (walk env x) Hs w Hw) as H.
    destruct (Walk _ _ w) as [w' [e|]]; simpl in *; auto. }
  unfold Plain.main.
  destruct (src_txt env) as [[|s ss]|]; try done.
  destruct (dst_txt env) as [[|d ds]|]; try done.
  destruct (Abs fp d); try done.
  destruct (Plain.checkDest _ _ _ _); try done.
  specialize (Hscan (s :: ss) _ H0).
  destruct (Plain.scan env (s :: ss) (world0 env)) as [w1 [f|]]; [done|].
  simpl in Hscan.
  destruct (create_err env); [done|].
  assert (J (Plain.emit_all [EvCreate d] w1)) as H1
    by (apply emit_all_inv; [done|by repeat constructor|done]).
  specialize (Hall (s :: ss) _ H1).
  destruct (Plain.addAll fp env (s :: ss) _) as [w2 [f|]]; simpl in *; [done|].
  repeat (apply emit_all_inv; [done|by repeat constructor|]). done.
Qed.

Lemma Digest_main_inv fp env sum (J : world → Prop) :
  J (world0 env) →
  (∀ it w, J w → wp (Digest.walkFn fp it) (λ w' _, J w') w) →
  (∀ e w, is_main_event e → J w → J (add_event w e)) →
  J (Digest.main fp env sum).1.
Proof.
  intros H0 Hfn Hadd.
  assert (∀ sources w, J w → J (Digest.addAll fp env sources w).1) as Hall.
  { induction sources as [|x xs IH]; intros w Hw; simpl; [done|].
    unfold Digest.addFiles.
    pose proof (Walk_inv J _ (walk env x) Hfn w Hw) as H.
    destruct (Walk _ _ w) as [w' [e|]]; simpl in *; auto. }
  assert (∀ sources w, J w → J (Digest.scan env sources w)) as Hscan.
  { assert (∀ it w, J w → wp (Digest.scanFn it) (λ w' _, J w') w) as Hs.
    { intros it w Hw. unfold Digest.scanFn. destruct (walk_err it); wp_steps; [|done].
      by apply Hadd. }
    induction sources as [|x xs IH]; intros w Hw; simpl; [done|].
    pose proof (Walk_inv J _ (walk env x) Hs w Hw) as H.
    destruct (Walk _ _ w) as [w' [e|]]; simpl in *; apply IH; [|done].
    apply emit_all_inv; [done|by repeat constructor|done]. }
  unfold Digest.main.
  destruct (src_txt env) as [[|s ss]|]; try done.
  destruct (dst_txt env) as [[|d ds]|]; try done.
  destruct (Abs fp d) as [absDest|]; try done.
  destruct (Digest.checkDest _ _ _ _ _); try done.
  specialize (Hscan (s :: ss) _ H0).
  destruct (create_err env); [done|].
  assert (J (Plain.emit_all [EvCreate d] (Digest.scan env (s :: ss) (world0 env)))) as H1
    by (apply emit_all_inv; [done|by repeat constructor|done]).
  specialize (Hall (s :: ss) _ H1).
  destruct (Digest.addAll fp env (s :: ss) _) as [w2 [f|]]; simpl in *; [done|].
  apply emit_all_inv; [done|by repeat constructor|].
  apply emit_all_inv; [done|apply report_main_events|].
  apply emit_all_inv; [done|by repeat constructor|]. done.
Qed.

(** Brings the state of a monitor on the events just added into the
    goal. *)
Ltac norm_state H :=
  repeat first [ rewrite state_add_event | rewrite state_pop
               | rewrite state_set_created ];
  rewrite ?H; cbn.

(** ** The gate at the top of the walk function *)

Lemma Plain_copyLoop_entry_gated path rs : ∀ w,
  state entry_gate false w = Some true →
  wp (Plain.copyLoop path rs) (λ w' _, state entry_gate false w' = Some true) w.
Proof.
  induction rs as [|[chunk err] rs IH]; intros w Hw; simpl.
  - wp_steps. by norm_state Hw.
  - wp_steps.
    destruct err as [[|m]|]; case_decide; wp_steps;
      try (destruct (next w) as [e2|] eqn:Hn; wp_steps);
      try apply IH; by norm_state Hw.
Qed.

Lemma Digest_copyLoop_entry_gated path rs : ∀ w,
  state entry_gate false w = Some true →
  wp (Digest.copyLoop path rs) (λ w' _, state entry_gate false w' = Some true) w.
Proof.
  induction rs as [|[chunk err] rs IH]; intros w Hw; simpl.
  - wp_steps. by norm_state Hw.
  - wp_steps.
    destruct err as [[|m]|]; case_decide; wp_steps;
      try (destruct (next w) as [e2|] eqn:Hn; wp_steps);
      try apply IH; by norm_state Hw.
Qed.

Lemma Plain_walkFn_entry_gated fp basePath baseDir it w :
  is_Some (state entry_gate false w) →
  wp (Plain.walkFn fp basePath baseDir it)
     (λ w' _, is_Some (state entry_gate false w')) w.
Proof.
  intros [q Hw]. unfold Plain.walkFn. wp_steps.
  destruct (walk_err it); wp_steps;
    [|destruct (header_err it); wp_steps;
      [|destruct (Rel fp baseDir (path it)); wp_steps;
        [destruct (next w); wp_steps;
          [|destruct (negb (IsDir (info it))); wp_steps;
            [destruct (open_err it); wp_steps|]]|]]].
  all: try (eapply wp_mono; [|apply Plain_copyLoop_entry_gated];
            [by intros w' _ ->|]).
  all: by norm_state Hw.
Qed.

Lemma Digest_walkFn_entry_gated fp it w :
  is_Some (state entry_gate false w) →
  wp (Digest.walkFn fp it) (λ w' _, is_Some (state entry_gate false w')) w.
Proof.
  intros [q Hw]. digest_walk_cases w.
  all: try (eapply wp_mono; [|apply Digest_copyLoop_entry_gated];
            [by intros w' _ ->|]).
  all: by norm_state Hw.
Qed.

Lemma main_event_entry_gated e w :
  is_main_event e → is_Some (state entry_gate false w) →
  is_Some (state entry_gate false (add_event w e)).
Proof. intros He [q Hw]. norm_state Hw. by destruct e. Qed.

Lemma Plain_main_entry_gated fp env : entry_gated (trace (Plain.main fp env).1).
Proof.
  apply (Plain_main_inv fp env (λ w, is_Some (state entry_gate false w))).
  - done.
  - intros. by apply Plain_walkFn_entry_gated.
  - apply main_event_entry_gated.
Qed.

Lemma Digest_main_entry_gated fp env sum :
  entry_gated (trace (Digest.main fp env sum).1).
Proof.
  apply (Digest_main_inv fp env sum (λ w, is_Some (state entry_gate false w))).
  - done.
  - intros. by apply Digest_walkFn_entry_gated.
  - apply main_event_entry_gated.
Qed.

(** C5. The pause gate.  In both variants the walk function passes a
    [WaitIfPaused] before the header, the [os.Open], the reads and the
    writes of an entry, and every [file.Read] is directly preceded by a
    [WaitIfPaused]; hence, in every interleaving, from a state where the
    flag is set and as long as nobody toggles it, the producer passes no
    gate and reads at most one more chunk.  At a gate with the flag set
    the producer cannot move, and [Toggle] changes the flag only: it
    neither produces an event nor flushes. *)
Theorem pause_gate (fp : Filepath) (env : Env) (sum : string) :
  entry_gated (trace (Plain.main fp env).1) ∧
  entry_gated (trace (Digest.main fp env sum).1) ∧
  gated (trace (Plain.main fp env).1) ∧
  gated (trace (Digest.main fp env sum).1) ∧
  pause_bound (trace (Plain.main fp env).1) ∧
  pause_bound (trace (Digest.main fp env sum).1) ∧
  (∀ s rest, Pausing.todo s = EvWaitIfPaused :: rest →
             PauseController.IsPaused (Pausing.pc s) = true →
             Pausing.step Pausing.Produce s = None) ∧
  (∀ s, ∃ s', Pausing.step Pausing.Toggle s = Some s' ∧
              Pausing.todo s' = Pausing.todo s ∧ Pausing.done s' = Pausing.done s).
Proof.
  split_and!.
  - apply Plain_main_entry_gated.
  - apply Digest_main_entry_gated.
  - apply Plain_main_gated.
  - apply Digest_main_gated.
  - apply gated_pause_bound, Plain_main_gated.
  - apply gated_pause_bound, Digest_main_gated.
  - apply paused_blocks.
  - intros s. by eexists.
Qed.

Lemma pause_gate_witness :
  ∃ s1 s2,
    Pausing.run (Pausing.start (trace (Plain.main Lite.unix Examples.one_file).1))
                (replicate 12 Pausing.Produce ++ [Pausing.Toggle]) = Some s1 ∧
    PauseController.IsPaused (Pausing.pc s1) = true ∧
    Pausing.run s1 (replicate 4 Pausing.Produce) = Some s2 ∧
    ∃ evs, Pausing.done s2 = Pausing.done s1 ++ evs ∧
           Forall (λ e, is_gate e = false) evs ∧
           length (filter is_read evs) ≤ 1.
Proof.
  destruct (pause_gate Lite.unix Examples.one_file "") as (_ & _ & _ & _ & Hb & _).
  destruct (Pausing.run _ (replicate 12 Pausing.Produce ++ [Pausing.Toggle]))
    as [s1|] eqn:Hr1; [|by vm_compute in Hr1].
  assert (PauseController.IsPaused (Pausing.pc s1) = true) as Hp.
  { pose proof Hr1 as H. vm_compute in H. by injection H as <-. }
  exists s1.
  destruct (Pausing.run s1 (replicate 4 Pausing.Produce)) as [s2|] eqn:Hr2;
    [|pose proof Hr1 as H; vm_compute in H; injection H as <-; by vm_compute in Hr2].
  exists s2.
  assert (Pausing.Toggle ∉ replicate 4 Pausing.Produce) as Hnt
    by (simpl; set_solver).
  destruct (Hb _ s1 _ s2 Hr1 Hp Hnt Hr2) as [_ Hevs].
  by split_and!.
Defined.

(** With the flag set after the last gate the rest of the run goes on:
    the last chunk is read and written, the archive is closed and the
    buffer is flushed to the device. *)
Lemma pause_gate_counterexample :
  ¬ pause_stops_io (trace (Plain.main Lite.unix Examples.one_file).1).
Proof.
  intros H.
  pose (acts1 := replicate 12 Pausing.Produce ++ [Pausing.Toggle]).
  pose (acts2 := replicate 4 Pausing.Produce).
  destruct (Pausing.run (Pausing.start (trace (Plain.main Lite.unix Examples.one_file).1))
              acts1) as [s1|] eqn:Hr1; [|by vm_compute in Hr1].
  destruct (Pausing.run s1 acts2) as [s2|] eqn:Hr2;
    [|vm_compute in Hr1; injection Hr1 as <-; by vm_compute in Hr2].
  specialize (H acts1 s1 acts2 s2 Hr1).
  vm_compute in Hr1. injection Hr1 as <-.
  vm_compute in Hr2. injection Hr2 as <-.
  specialize (H eq_refl).
  assert (Pausing.Toggle ∉ acts2) as Hnt.
  { unfold acts2. simpl. set_solver. }
  specialize (H Hnt eq_refl). vm_compute in H.
  rewrite Forall_forall in H. specialize (H EvFlush).
  enough (true = false) by done. apply H. repeat constructor.
Qed.

(** ** Copy errors: fail-fast, or logged and skipped *)

Lemma Digest_copyLoop_errors_logged path rs : ∀ w cur,
  state errors_logged_step ("", Calm) w = Some (cur, Calm) →
  wp (Digest.copyLoop path rs)
     (λ w' _, ∃ p, state errors_logged_step ("", Calm) w' = Some (path, p) ∧ settled p)
     w.
Proof.
  induction rs as [|[chunk err] rs IH]; intros w cur Hw; simpl.
  - wp_steps. norm_state Hw. eexists. split; [done|by left].
  - wp_steps.
    destruct err as [[|m]|]; case_decide; wp_steps;
      try (destruct (next w) as [e2|] eqn:Hn; wp_steps);
      try (eapply IH); norm_state Hw;
      repeat (first [ rewrite decide_True by done | rewrite decide_False by done
                    | rewrite bool_decide_eq_true_2 by done ]; cbn);
      try done; eexists; (split; [done|]); unfold settled; auto.
Qed.

Lemma Digest_walkFn_errors_logged fp it w :
  (∃ cur p, state errors_logged_step ("", Calm) w = Some (cur, p) ∧ settled p) →
  wp (Digest.walkFn fp it)
     (λ w' _, ∃ cur p, state errors_logged_step ("", Calm) w' = Some (cur, p)
                       ∧ settled p) w.
Proof.
  intros (cur & p & Hw & Hp). digest_walk_cases w.
  all: try (eapply wp_mono; [|eapply Digest_copyLoop_errors_logged];
            [intros w' _ (q & -> & Hq); by eexists _, _|]).
  all: destruct Hp as [-> | ->]; norm_state Hw; try done.
  all: eexists _, _; (split; [done|]); by left.
Qed.

Lemma Digest_main_errors_logged fp env sum :
  errors_logged (trace (Digest.main fp env sum).1).
Proof.
  apply (Digest_main_inv fp env sum
           (λ w, ∃ cur p, state errors_logged_step ("", Calm) w = Some (cur, p)
                          ∧ settled p)).
  - eexists _, _. split; [done|by left].
  - intros. by apply Digest_walkFn_errors_logged.
  - intros e w He (cur & p & Hw & Hp). norm_state Hw.
    destruct Hp as [-> | ->]; destruct e; try done; eexists _, _;
      (split; [done|]); unfold settled; auto.
Qed.

Lemma Digest_main_visits fp env sum sources :
  src_txt env = inl sources →
  (Digest.main fp env sum).2 = Returned →
  visits (trace (Digest.main fp env sum).1) = path <$> all_items env sources.
Proof.
  intros Hsrc Hret.
  destruct (Digest_main_shape fp env sum)
    as [(f & Hf & _)|(sources' & d & ds & logs & evs & Hsrc' & _ & Hl & _ & Hv & _ & Htr)];
    [congruence|].
  assert (sources' = sources) as -> by congruence.
  assert (visits (Digest.report fp env (if noSha256 env then "" else sum) d) = [])
    as Hrep.
  { unfold Digest.report. by repeat case_match. }
  rewrite Htr, visits_app, (visits_logs _ Hl).
  change (visits (EvCreate d :: ?x)) with (visits x).
  rewrite !visits_app, Hv, Hrep.
  change (visits [EvZipClose; EvFlush]) with (@nil string).
  by rewrite !app_nil_r.
Qed.

Lemma Digest_main_ends fp env sum :
  (Digest.main fp env sum).2 = Returned ∨
  ∃ f, (Digest.main fp env sum).2 = Fatal f ∧ is_early_error f.
Proof.
  destruct (Digest_main_shape fp env sum)
    as [(f & Hf & He & _)|(? & ? & ? & ? & ? & _ & _ & _ & _ & _ & Hr & _)]; eauto.
Qed.

(** C3. Errors while an entry is copied.  In the plain variant a failed
    [Read] (other than end of file) or a failed write of a chunk ends
    the run at once: nothing follows the error in the trace but, after a
    failed [Read], the write of the bytes it still delivered; no further
    entry is visited, and [main] dies of the error returned by
    [addFiles].  In the SHA-256 variant every such error is followed by
    its line in the log (for a failed [Read] after the write of the bytes
    it delivered; when that write fails, the line is that of the write)
    and the entry is given up there; the walk function returns nil:
    [addFiles] never returns an error, [main] never dies once the
    archive is begun, and a run that returns has entered the walk
    function for every item of every source. *)
Theorem copy_errors_policy (fp : Filepath) (env : Env) (sum : string) :
  aborts_on_copy_error (Plain.main fp env) ∧
  fail_fast (trace (Plain.main fp env).1) (addFiles_error (Plain.main fp env).2) ∧
  (∀ basePath w, (Digest.addFiles fp env basePath w).2 = None) ∧
  (∀ source e, (Digest.main fp env sum).2 ≠ Fatal (FatalAddFiles source e)) ∧
  errors_logged (trace (Digest.main fp env sum).1) ∧
  ((Digest.main fp env sum).2 = Returned ∨
   ∃ f, (Digest.main fp env sum).2 = Fatal f ∧ is_early_error f) ∧
  (∀ sources, src_txt env = inl sources →
     (Digest.main fp env sum).2 = Returned →
     visits (trace (Digest.main fp env sum).1) = path <$> all_items env sources).
Proof.
  split_and!.
  - intros l ev l2 Htr Hev.
    destruct (fail_fast_split _ _ l ev l2 (Plain_main_fail_fast fp env) Htr Hev)
      as (Hv & [e He] & _).
    split; [done|].
    destruct (Plain.main fp env).2 as [|[]]; try done. eauto.
  - apply Plain_main_fail_fast.
  - intros basePath w. apply Digest_Walk_nil.
  - intros source e. apply Digest_main_exit.
  - apply Digest_main_errors_logged.
  - apply Digest_main_ends.
  - apply Digest_main_visits.
Qed.

Lemma copy_errors_policy_witness :
  let run := Plain.main Lite.unix Examples.read_error in
  let digest := Digest.main Lite.unix Examples.read_error "" in
  trace run.1 = take 9 (trace run.1) ++ EvRead "/src/a.txt" 0 (Some (Err "EIO")) :: [] ∧
  (∀ p, EvVisit p ∉ @nil event) ∧
  (∃ source e, run.2 = Fatal (FatalAddFiles source e)) ∧
  digest.2 = Returned ∧
  visits (trace digest.1) = ["/src/a.txt"; "/src/b.txt"] ∧
  EvLog (LogRead "/src/a.txt" (Err "EIO")) ∈ trace digest.1.
Proof.
  intros run digest.
  destruct (copy_errors_policy Lite.unix Examples.read_error "")
    as (Ha & _ & _ & _ & _ & _ & Hv).
  assert (trace run.1
          = take 9 (trace run.1) ++ EvRead "/src/a.txt" 0 (Some (Err "EIO")) :: [])
    as Htr by (by vm_compute).
  assert (digest.2 = Returned) as Hret by reflexivity.
  split; [exact Htr|].
  destruct (Ha _ _ _ Htr ltac:(by eexists)) as [Hno Hdies].
  split_and!; [exact Hno|exact Hdies|exact Hret| |].
  - exact (Hv ["/src"] eq_refl Hret).
  - vm_compute. repeat constructor.
Defined.

(** In the SHA-256 variant [/src/b.txt] is visited after the failed
    [Read] of [/src/a.txt]. *)
Lemma copy_errors_policy_counterexample :
  ¬ aborts_on_copy_error (Digest.main Lite.unix Examples.read_error "").
Proof.
  intros H.
  destruct (H (take 9 (trace (Digest.main Lite.unix Examples.read_error "").1))
              (EvRead "/src/a.txt" 0 (Some (Err "EIO")))
              (drop 10 (trace (Digest.main Lite.unix Examples.read_error "").1)))
    as [Hvisit _]; [by vm_compute|by eexists|].
  apply (Hvisit "/src/b.txt"). vm_compute. repeat constructor.
Qed.

(** ** Volume roots: the first encounter *)

Lemma Walk_app fn l1 l2 w :
  Walk fn (l1 ++ l2) w
  = match Walk fn l1 w with
    | (w', None) => Walk fn l2 w'
    | (w', Some e) => (w', Some e)
    end.
Proof.
  revert w. induction l1 as [|it l1 IH]; intros w; simpl.
  - done.
  - destruct (fn it w) as [w' [[]|[e|]]]; simpl; auto.
Qed.

(** The SHA-256 variant walks the items of all the sources, one after
    the other. *)
Lemma Digest_addAll_Walk fp env sources : ∀ w,
  Digest.addAll fp env sources w
  = ((Walk (Digest.walkFn fp) (all_items env sources) w).1, None).
Proof.
  unfold all_items.
  induction sources as [|x xs IH]; intros w; simpl; [done|].
  unfold Digest.addFiles. rewrite Walk_app.
  pose proof (Digest_Walk_nil fp (walk env x) w) as Hnil.
  destruct (Walk (Digest.walkFn fp) (walk env x) w) as [w' [e|]]; simpl in *; [done|].
  apply IH.
Qed.

Lemma Digest_scan_createdVolumes env sources : ∀ w,
  createdVolumes (Digest.scan env sources w) = createdVolumes w.
Proof.
  assert (∀ cv it w, createdVolumes w = cv →
            wp (Digest.scanFn it) (λ w' _, createdVolumes w' = cv) w) as Hfn.
  { intros cv it w HI. unfold Digest.scanFn. destruct (walk_err it); by wp_steps. }
  induction sources as [|x xs IH]; intros w; simpl; [done|].
  pose proof (Walk_inv (λ w', createdVolumes w' = createdVolumes w) _ (walk env x)
                (Hfn _) w eq_refl) as H.
  destruct (Walk _ _ w) as [w' [e|]]; simpl in *; by rewrite IH.
Qed.

(** [main] walks every item from a world in which no letter is
    marked. *)
Lemma Digest_main_walk fp env sum sources d ds :
  src_txt env = inl sources → dst_txt env = inl (d :: ds) →
  (Digest.main fp env sum).2 = Returned →
  ∃ w0, createdVolumes w0 = ∅ ∧
    trace (Digest.main fp env sum).1
    = trace (Walk (Digest.walkFn fp) (all_items env sources) w0).1
      ++ [EvZipClose; EvFlush]
      ++ Digest.report fp env (if noSha256 env then "" else sum) d
      ++ [EvZipClose; EvFlush].
Proof.
  unfold Digest.main. intros -> ->.
  destruct sources as [|s ss]; [done|].
  set (sources := s :: ss) in *. clearbody sources.
  destruct (Abs fp d); [|done].
  destruct (Digest.checkDest _ _ _ _ _); [done|].
  destruct (create_err env); [done|].
  rewrite Digest_addAll_Walk. intros _.
  exists (Plain.emit_all [EvCreate d] (Digest.scan env sources (world0 env))).
  split; [simpl; by rewrite Digest_scan_createdVolumes|].
  simpl. by rewrite <- !app_assoc.
Qed.

(** A call that does not get to a drive letter marks nothing. *)
Lemma Digest_walkFn_unmarked fp it w :
  (∀ absPath, walk_err it = None → header_err it = None →
     Abs fp (path it) = inl absPath → Digest.driveLetter fp absPath = "") →
  wp (Digest.walkFn fp it) (λ w' _, createdVolumes w' = createdVolumes w) w.
Proof.
  intros Hno. digest_walk_cases w.
  all: try (rewrite (Hno absPath) in Hvol by done; done).
  all: try (eapply wp_mono; [|apply Digest_copyLoop_quiet]; cbv beta;
            by intros w' _ (_ & _ & _ & ->)).
  all: done.
Qed.

Lemma created_insert w d d' :
  default false (<[d:=true]> (createdVolumes w) !! d') = true
  ↔ created w d' = true ∨ d' = d.
Proof.
  unfold created. destruct (decide (d = d')) as [->|Hne].
  - rewrite lookup_insert_eq. naive_solver.
  - rewrite lookup_insert_ne by done. naive_solver.
Qed.

(** What a call of the walk function marks. *)
Lemma Digest_walkFn_created fp it w d :
  d ≠ "" →
  created (Digest.walkFn fp it w).1 d = true
  ↔ created w d = true ∨ encounters fp it d.
Proof.
  intros Hd. unfold encounters.
  assert (createdVolumes (Digest.walkFn fp it w).1 = createdVolumes w →
          (∀ a, walk_err it = None → header_err it = None →
                Abs fp (path it) = inl a → Digest.driveLetter fp a ≠ d) →
          created (Digest.walkFn fp it w).1 d = true
          ↔ created w d = true
            ∨ walk_err it = None ∧ header_err it = None
              ∧ ∃ absPath, Abs fp (path it) = inl absPath
                           ∧ Digest.driveLetter fp absPath = d) as Hsame.
  { intros Hcv Hno. unfold created. rewrite Hcv. split; [auto|].
    intros [?|(? & ? & a & ? & ?)]; [done|]. by destruct (Hno a). }
  destruct (walk_err it) as [e|] eqn:Hw.
  { apply Hsame; [|done]. apply Digest_walkFn_unmarked. by rewrite Hw. }
  destruct (header_err it) as [e|] eqn:Hh.
  { apply Hsame; [|done]. apply Digest_walkFn_unmarked. by rewrite Hw, Hh. }
  destruct (Abs fp (path it)) as [absPath|e] eqn:Ha.
  2: { apply Hsame; [|done]. apply Digest_walkFn_unmarked. by rewrite Hw, Hh, Ha. }
  destruct (decide (Digest.driveLetter fp absPath = "")) as [Hl|Hl].
  { apply Hsame; [|intros a _ _ [= <-]; congruence].
    apply Digest_walkFn_unmarked. rewrite Hw, Hh, Ha. by intros a _ _ [= <-]. }
  pose proof (Digest_walkFn_vol_step fp it w absPath Hw Hh Ha Hl) as H.
  unfold wp in H. destruct H as (evs & _ & _ & Hcv).
  unfold created at 1. rewrite Hcv.
  destruct (created w (Digest.driveLetter fp absPath)) eqn:Hc.
  - fold (created w d). split; [auto|].
    intros [?|(_ & _ & a & [= <-] & <-)]; done.
  - rewrite created_insert. split.
    + intros [?| ->]; [auto|]. right. split_and!; [done..|by eexists].
    + intros [?|(_ & _ & a & [= <-] & <-)]; auto.
Qed.

Lemma Walk_created fp pre : ∀ w d,
  d ≠ "" →
  created (Walk (Digest.walkFn fp) pre w).1 d = true
  ↔ created w d = true ∨ ∃ it, it ∈ pre ∧ encounters fp it d.
Proof.
  induction pre as [|it pre IH]; intros w d Hd; simpl.
  - split; [auto|]. intros [?|(it & Hin & _)]; [done|]. by apply elem_of_nil in Hin.
  - pose proof (Digest_walkFn_nil fp it w) as Hnil. unfold wp in Hnil.
    pose proof (Digest_walkFn_created fp it w d Hd) as Hc.
    destruct (Digest.walkFn fp it w) as [w' [[]|[e|]]]; simpl in *; [|done|].
    all: rewrite IH, Hc by done; set_solver.
Qed.

(** The call that finds its drive letter unmarked tries the header of
    the volume root first of all. *)
Lemma Digest_walkFn_volume_first fp it w absPath :
  walk_err it = None → header_err it = None → Abs fp (path it) = inl absPath →
  Digest.driveLetter fp absPath ≠ "" →
  created w (Digest.driveLetter fp absPath) = false →
  ∃ rest,
    emitted (Digest.walkFn fp it) w
    = EvVisit (path it) :: EvWaitIfPaused
      :: EvCreateHeader HVolume
           {| Name := Digest.driveLetter fp absPath +:+ "/"; Method := zip_Store |}
           (next w)
      :: rest ∧
    volume_headers rest = [].
Proof.
  intros Hw Hh Ha Hd Hc.
  apply (emitted_wp _ (λ evs, ∃ rest, evs = _ :: _ :: _ :: rest ∧ _)).
  unfold Digest.walkFn. rewrite Hw, Hh, Ha. wp_steps.
  rewrite (bool_decide_eq_false_2 (Digest.driveLetter fp absPath = "")) by done.
  change (default false (createdVolumes
            (add_event (add_event w (EvVisit (path it))) EvWaitIfPaused)
            !! Digest.driveLetter fp absPath))
    with (created w (Digest.driveLetter fp absPath)).
  rewrite Hc. cbn [negb andb]. wp_steps.
  destruct (next w) eqn:Hn; wp_steps;
    (destruct (bool_decide _ || bool_decide _); wp_steps;
      [|destruct (next (pop w)); wp_steps;
        [|destruct (negb (IsDir (info it))); wp_steps;
          [destruct (open_err it); wp_steps|]]]).
  all: try (eapply wp_mono; [|apply Digest_copyLoop_quiet]; cbv beta;
            intros w' _ (evs & Htr & Hev & _);
            eexists; split; [rewrite Htr; norm_trace; reflexivity|];
            eexists; split; [reflexivity|];
            exact (volume_headers_copy evs Hev)).
  all: eexists; split; [norm_trace; reflexivity|];
       eexists; split; reflexivity.
Qed.
(** A call that gets to no drive letter tries no volume header. *)
Lemma Digest_walkFn_no_volume fp it w :
  (∀ d, encounters fp it d → d = "") →
  volume_headers (emitted (Digest.walkFn fp it) w) = [].
Proof.
  intros Hno. apply (emitted_wp _ (λ evs, volume_headers evs = [])).
  digest_walk_cases w.
  all: try (apply andb_true_iff in Hvol as [Hd%negb_true_iff _];
            apply bool_decide_eq_false in Hd; destruct Hd;
            apply Hno; split_and!; [done..|by eexists]).
  all: try (eapply wp_mono; [|apply Digest_copyLoop_quiet]; cbv beta;
            intros w' _ (evs & Htr & Hev & _);
            eexists; split; [rewrite Htr; norm_trace; reflexivity|];
            exact (volume_headers_copy evs Hev)).
  all: solve_emitted; reflexivity.
Qed.

(** C9. Volume-root headers.  In the SHA-256 variant the headers
    synthesized for volume roots are pairwise distinct and each is named
    [d/] for the drive letter [d] of a path visited.  A call of the walk
    function that gets to a drive letter not yet marked tries the header
    [d/] right after the gate, before anything else of that entry, and
    marks the letter; a call that finds its letter marked, or gets to no
    letter, tries none.  In a walk that starts with no letter marked, as
    the walk of [main] over the items of all its sources does, a letter
    is marked exactly when an earlier call got to it: the header is
    tried on the first encounter, and never again.  The plain variant
    tries none. *)
Theorem volume_root_headers (fp : Filepath) (env : Env) (sum : string) :
  let tr := trace (Digest.main fp env sum).1 in
  NoDup (volume_headers tr) ∧
  (∀ n, n ∈ volume_headers tr → ∃ d, n = d +:+ "/" ∧ d ∈ roots fp tr) ∧
  (∀ it w absPath,
     walk_err it = None → header_err it = None → Abs fp (path it) = inl absPath →
     Digest.driveLetter fp absPath ≠ "" →
     let d := Digest.driveLetter fp absPath in
     volume_headers (emitted (Digest.walkFn fp it) w)
       = (if created w d then [] else [d +:+ "/"]) ∧
     created (Digest.walkFn fp it w).1 d = true ∧
     (created w d = false →
      ∃ rest,
        emitted (Digest.walkFn fp it) w
        = EvVisit (path it) :: EvWaitIfPaused
          :: EvCreateHeader HVolume {| Name := d +:+ "/"; Method := zip_Store |}
               (next w)
          :: rest ∧
        volume_headers rest = [])) ∧
  (∀ it w, (∀ d, encounters fp it d → d = "") →
     volume_headers (emitted (Digest.walkFn fp it) w) = []) ∧
  (∀ w0 pre d, createdVolumes w0 = ∅ → d ≠ "" →
     created (Walk (Digest.walkFn fp) pre w0).1 d = true
     ↔ ∃ it, it ∈ pre ∧ encounters fp it d) ∧
  (∀ sources d ds,
     src_txt env = inl sources → dst_txt env = inl (d :: ds) →
     (Digest.main fp env sum).2 = Returned →
     ∃ w0, createdVolumes w0 = ∅ ∧
       tr = trace (Walk (Digest.walkFn fp) (all_items env sources) w0).1
            ++ [EvZipClose; EvFlush]
            ++ Digest.report fp env (if noSha256 env then "" else sum) d
            ++ [EvZipClose; EvFlush]) ∧
  volume_headers (trace (Plain.main fp env).1) = [].
Proof.
  intros tr. destruct (Digest_main_vol_inv fp env sum) as [Hnd Hn].
  split_and!; [done| | | | | |apply Plain_main_no_volume].
  - intros n Hin. destruct (Hn n Hin) as (d & -> & _ & Hr). eauto.
  - intros it w absPath Hw Hh Ha Hd d.
    destruct (Digest_first_encounter fp it w absPath Hw Hh Ha Hd) as [Hv Hc].
    split_and!; [done..|]. by apply Digest_walkFn_volume_first.
  - apply Digest_walkFn_no_volume.
  - intros w0 pre d Hcv Hd. rewrite Walk_created by done.
    unfold created. rewrite Hcv, lookup_empty. naive_solver.
  - apply Digest_main_walk.
Qed.

Lemma volume_root_headers_witness :
  let env := Examples.one_file_on_C in
  let it := Examples.file "C:\data\a.txt" [] in
  volume_headers (trace (Digest.main Lite.windows env "").1) = ["C/"] ∧
  NoDup (volume_headers (trace (Digest.main Lite.windows env "").1)) ∧
  volume_headers (emitted (Digest.walkFn Lite.windows it) (world0 env)) = ["C/"] ∧
  (∃ rest,
     emitted (Digest.walkFn Lite.windows it) (world0 env)
     = EvVisit "C:\data\a.txt" :: EvWaitIfPaused
       :: EvCreateHeader HVolume {| Name := "C/"; Method := zip_Store |} None :: rest ∧
     volume_headers rest = []) ∧
  created (Walk (Digest.walkFn Lite.windows) [Examples.dir "C:\data"] (world0 env)).1 "C"
  = true.
Proof.
  intros env it.
  destruct (volume_root_headers Lite.windows env "")
    as (Hnd & _ & Hfirst & _ & Hmark & _).
  destruct (Hfirst it (world0 env) "C:\data\a.txt") as (Hv & _ & Hshape); [done..|].
  split_and!; [reflexivity|exact Hnd|exact Hv|by apply Hshape|].
  apply (Hmark (world0 env) [Examples.dir "C:\data"] "C"); [done..|].
  exists (Examples.dir "C:\data"). split; [by left|].
  split_and!; [done..|]. by exists "C:\data".
Defined.

Lemma volume_root_headers_counterexample :
  ¬ one_header_per_root Lite.windows
      (trace (Plain.main Lite.windows Examples.one_file_on_C).1).
Proof.
  intros H.
  assert ("C" ∈ roots Lite.windows
            (trace (Plain.main Lite.windows Examples.one_file_on_C).1)) as Hroot
    by (vm_compute; repeat constructor).
  specialize (H "C" Hroot). by vm_compute in H.
Qed.

(** Not covered above: the entry of a directory that is itself a drive
    root is named after the drive letter too, next to the synthesized
    header. *)
Lemma drive_root_has_two_headers :
  let env := Examples.env "C:\" "D:\a.zip"
               [Examples.dir "C:\";
                Examples.file "C:\a.txt" [([x01], None); ([], Some EOF)]] in
  volume_headers (trace (Digest.main Lite.windows env "").1) = ["C/"] ∧
  entry_headers (trace (Digest.main Lite.windows env "").1) = ["C/"; "C/a.txt"].
Proof. split; reflexivity. Qed.
